(** * Squarified treemap layout (src/src/squarify.ts)

    A shallow embedding of the [SquarifyLayout] class and the properties of
    its [squarify] method.

    Numbers.  A TypeScript [number] is modelled by [num]: an exact rational
    or one of the three special values [+Infinity], [-Infinity], [NaN].
    Arithmetic is IEEE-754 arithmetic with the rounding step removed (so
    finite results are exact, and nothing overflows); the special values
    propagate as in JavaScript, because the source uses [NaN] as a control
    signal.  There is a single zero (no [-0]): a finite non-zero number
    divided by zero is the infinity of the sign of the numerator.
    Properties that are stated for exact arithmetic are proved of this
    reading.  Module [B64] is the same program on binary64 numbers, for
    running it where rounding or overflow decides.

    Objects.  Items are objects in a store, arrays hold references to them,
    and arrays are themselves mutable objects in an array store; the
    caller's [items] array is one of them.  The same object may occur more
    than once in an array.  The [bounds] object is no item (it is the
    rectangle being carved up), so it is passed along as a value; the
    engine updates it in place and [rootbounds] always denotes it. *)

From Stdlib Require Import String ZArith QArith Qminmax Lia Lqa Bool.
From Stdlib Require Import List Permutation.
From Stdlib Require Floats.
Import ListNotations.
Open Scope Q_scope.

(* ================================================================== *)
(** ** Numbers *)

Inductive num : Type :=
| Fin (q : Q)
| PInf
| NInf
| NaN.

Definition sign := comparison.

(** The infinity of a given sign ([Lt] negative, [Gt] positive); the sign
    [Eq] of zero stands for an undefined form such as [0 * Infinity] or
    [0 / 0]. *)
Definition inf_of_sign (s : sign) : num :=
  match s with
  | Gt => PInf
  | Lt => NInf
  | Eq => NaN
  end.

Definition nadd (a b : num) : num :=
  match a, b with
  | NaN, _ | _, NaN => NaN
  | Fin p, Fin q => Fin (p + q)
  | PInf, NInf | NInf, PInf => NaN
  | PInf, _ | _, PInf => PInf
  | NInf, _ | _, NInf => NInf
  end.

Definition nneg (a : num) : num :=
  match a with
  | Fin q => Fin (- q)
  | PInf => NInf
  | NInf => PInf
  | NaN => NaN
  end.

Definition nsub (a b : num) : num := nadd a (nneg b).

Definition nmul (a b : num) : num :=
  match a, b with
  | NaN, _ | _, NaN => NaN
  | Fin p, Fin q => Fin (p * q)
  | Fin p, PInf | PInf, Fin p => inf_of_sign (p ?= 0)
  | Fin p, NInf | NInf, Fin p => inf_of_sign (CompOpp (p ?= 0))
  | PInf, PInf | NInf, NInf => PInf
  | PInf, NInf | NInf, PInf => NInf
  end.

Definition ndiv (a b : num) : num :=
  match a, b with
  | NaN, _ | _, NaN => NaN
  | Fin p, Fin q =>
      if Qeq_bool q 0 then inf_of_sign (p ?= 0) else Fin (p / q)
  | Fin _, _ => Fin 0
  | PInf, Fin q => match q ?= 0 with Lt => NInf | _ => PInf end
  | NInf, Fin q => match q ?= 0 with Lt => PInf | _ => NInf end
  | _, _ => NaN
  end.

(** Comparisons; every comparison with [NaN] is false. *)
Definition nle (a b : num) : bool :=
  match a, b with
  | NaN, _ | _, NaN => false
  | Fin p, Fin q => Qle_bool p q
  | NInf, _ | _, PInf => true
  | _, _ => false
  end.

Definition neq (a b : num) : bool :=
  match a, b with
  | Fin p, Fin q => Qeq_bool p q
  | PInf, PInf | NInf, NInf => true
  | _, _ => false
  end.

Definition nge (a b : num) : bool := nle b a.
Definition ngt (a b : num) : bool := nle b a && negb (neq a b).

Definition isNaN (a : num) : bool :=
  match a with NaN => true | _ => false end.

(** [Math.max] and [Math.min]: [NaN] as soon as an argument is [NaN]. *)
Definition nmax (a b : num) : num :=
  match a, b with
  | NaN, _ | _, NaN => NaN
  | _, _ => if nle a b then b else a
  end.

Definition nmin (a b : num) : num :=
  match a, b with
  | NaN, _ | _, NaN => NaN
  | _, _ => if nle a b then a else b
  end.

Definition of_Z (z : Z) : num := Fin (inject_Z z).
Definition of_nat (n : nat) : num := of_Z (Z.of_nat n).

(** [Number.MAX_VALUE], the largest finite double: 2^1024 - 2^971. *)
Definition MAX_VALUE : num := Fin (inject_Z (2 ^ 1024 - 2 ^ 971)).

(** Finite and non-negative / positive. *)
Definition fin_nonneg (a : num) : bool :=
  match a with Fin q => Qle_bool 0 q | _ => false end.

Definition fin_pos (a : num) : bool :=
  match a with Fin q => Qle_bool 0 q && negb (Qeq_bool q 0) | _ => false end.

(* ================================================================== *)
(** ** Objects, arrays and the engine *)

(** [SquarifyLayoutRect] *)
Record SquarifyLayoutRect : Type := mkRect {
  x : num;
  y : num;
  width : num;
  height : num
}.

(** An item object: [SquarifyLayoutWeighted] before the call,
    [SquarifyLayoutWeightedRect] once [layoutRow] has written its four
    geometry fields ([geom = None]: not written). *)
Record Item : Type := mkItem {
  weight : num;
  geom : option SquarifyLayoutRect
}.

(** References to item objects and the object store. *)
Definition ref := nat.
Definition heap := ref -> Item.

Definition assign (h : heap) (r : ref) (o : Item) : heap :=
  fun r' => if Nat.eqb r' r then o else h r'.

(** References to arrays: the array the caller passes as [items], and the
    arrays the call itself allocates ([[...items]] and each [[]]). *)
Inductive aref : Type :=
| ItemsArr
| Local (k : nat).

Definition aref_eqb (a b : aref) : bool :=
  match a, b with
  | ItemsArr, ItemsArr => true
  | Local i, Local j => Nat.eqb i j
  | _, _ => false
  end.

Definition astore := aref -> list ref.

Definition aset (m : astore) (a : aref) (l : list ref) : astore :=
  fun a' => if aref_eqb a' a then l else m a'.

(** The private fields of the class. [_itemsRemaining] only ever holds an
    integer (an array length, decremented by one), hence [Z]. *)
Record SquarifyLayout : Type := mkEngine {
  _totalRemainingWeightSum : num;
  _itemsRemaining : Z
}.

(** Results of code that can throw; [OutOfFuel] is the bounded loop
    running out of iterations. *)
Inductive result (A : Type) : Type :=
| Ok (a : A)
| Throw (msg : string)
| OutOfFuel.
Arguments Ok {A} a.
Arguments Throw {A} msg.
Arguments OutOfFuel {A}.

(** *** [sumWeights] (lines 251-257) *)
Definition sumWeights (h : heap) (source : list ref) : num :=
  fold_left (fun sum item => nadd sum (weight (h item))) source (Fin 0).

(** *** [Array.prototype.sort] with a comparator

    A stable sort (ECMAScript 2019): an element moves in front of those
    the comparator puts it strictly before. A [NaN] comparator result
    counts as [0]. *)
Fixpoint sort_insert (cmp : ref -> ref -> num) (a : ref) (l : list ref)
  : list ref :=
  match l with
  | [] => [a]
  | b :: l' =>
      if ngt (cmp a b) (Fin 0) then b :: sort_insert cmp a l'
      else a :: l
  end.

Definition array_sort (cmp : ref -> ref -> num) (l : list ref) : list ref :=
  fold_right (sort_insert cmp) [] l.

(** *** [calculateWorstAspectRatioInRow] (lines 116-168) *)
(** The message of the template literal, line break included. *)
Definition row_error : string :=
  "Row must contain at least one item. If you see this message,
        please file a bug report."%string.

Definition calculateWorstAspectRatioInRow
  (this : SquarifyLayout) (h : heap) (row : list ref)
  (lengthOfShorterEdge : num) (bounds : SquarifyLayoutRect) : result num :=
  match row with
  | [] => Throw row_error
  | firstItem :: rest =>
      if neq lengthOfShorterEdge (Fin 0) then Ok MAX_VALUE
      else
        let totalArea := nmul (width bounds) (height bounds) in
        let lengthSquared := nmul lengthOfShorterEdge lengthOfShorterEdge in
        if neq (_totalRemainingWeightSum this) (Fin 0) then
          let oneItemArea :=
            nmul totalArea (ndiv (Fin 1) (of_Z (_itemsRemaining this))) in
          let rowArea := nmul oneItemArea (of_nat (length row)) in
          let rowAreaSquared := nmul rowArea rowArea in
          Ok (nmax
                (ndiv (nmul lengthSquared oneItemArea) rowAreaSquared)
                (ndiv rowAreaSquared (nmul lengthSquared oneItemArea)))
        else
          let areaOf item :=
            nmul totalArea
              (ndiv (weight (h item)) (_totalRemainingWeightSum this)) in
          let firstItemArea := areaOf firstItem in
          let '(minArea, maxArea, sumOfAreas) :=
            fold_left
              (fun '(minArea, maxArea, sumOfAreas) item =>
                 let area := areaOf item in
                 (nmin area minArea, nmax area maxArea, nadd sumOfAreas area))
              rest (firstItemArea, firstItemArea, firstItemArea) in
          let sumSquared := nmul sumOfAreas sumOfAreas in
          Ok (nmax
                (ndiv (nmul lengthSquared maxArea) sumSquared)
                (ndiv sumSquared (nmul lengthSquared minArea)))
  end.

(** *** [updateBoundsForNextRow] (lines 234-249) *)
Definition updateBoundsForNextRow
  (bounds : SquarifyLayoutRect) (modifier : num) : SquarifyLayoutRect :=
  if ngt (width bounds) (height bounds) then
    let newWidth := nmax (Fin 0) (nsub (width bounds) modifier) in
    mkRect (nsub (x bounds) (nsub newWidth (width bounds)))
           (y bounds) newWidth (height bounds)
  else
    let newHeight := nmax (Fin 0) (nsub (height bounds) modifier) in
    mkRect (x bounds)
           (nsub (y bounds) (nsub newHeight (height bounds)))
           (width bounds) newHeight.

(** *** [layoutRow] (lines 170-232)

    The [for] loop over the row is a fold whose accumulator is what the
    loop mutates: the object store, [position] and [_itemsRemaining]. *)
Definition layoutItem
  (horizontal : bool) (bounds : SquarifyLayoutRect)
  (lengthOfShorterEdge lengthOfCommonItemEdge sumOfRowWeights : num)
  (rowLength : nat)
  (acc : heap * num * Z) (item : ref) : heap * num * Z :=
  let '(h, position, itemsRemaining) := acc in
  let weight := weight (h item) in
  let ratio0 := ndiv weight sumOfRowWeights in
  let ratio :=
    if isNaN ratio0 then
      if neq sumOfRowWeights (Fin 0) || isNaN sumOfRowWeights
      then ndiv (Fin 1) (of_nat rowLength)
      else Fin 0
    else ratio0 in
  let lengthOfItemEdge := nmul lengthOfShorterEdge ratio in
  let g :=
    if horizontal then
      mkRect (nadd (x bounds) position) (y bounds)
             lengthOfItemEdge lengthOfCommonItemEdge
    else
      mkRect (x bounds) (nadd (y bounds) position)
             (nmax (Fin 0) lengthOfCommonItemEdge)
             (nmax (Fin 0) lengthOfItemEdge) in
  (assign h item (mkItem weight (Some g)),
   nadd position lengthOfItemEdge,
   (itemsRemaining - 1)%Z).

Definition commonItemEdge
  (this : SquarifyLayout) (lengthOfLongerEdge sumOfRowWeights : num)
  (rowLength : nat) : num :=
  let lengthOfCommonItemEdge :=
    nmul lengthOfLongerEdge
         (ndiv sumOfRowWeights (_totalRemainingWeightSum this)) in
  if isNaN lengthOfCommonItemEdge then
    if neq (_totalRemainingWeightSum this) (Fin 0) then
      ndiv (nmul lengthOfLongerEdge (of_nat rowLength))
           (of_Z (_itemsRemaining this))
    else Fin 0
  else lengthOfCommonItemEdge.

Definition layoutRow
  (this : SquarifyLayout) (h : heap) (row : list ref)
  (lengthOfShorterEdge : num) (bounds : SquarifyLayoutRect)
  : SquarifyLayout * heap * SquarifyLayoutRect :=
  let horizontal := neq lengthOfShorterEdge (width bounds) in
  let lengthOfLongerEdge :=
    if horizontal then height bounds else width bounds in
  let sumOfRowWeights := sumWeights h row in
  let lengthOfCommonItemEdge :=
    commonItemEdge this lengthOfLongerEdge sumOfRowWeights (length row) in
  let '(h', _, itemsRemaining) :=
    fold_left
      (layoutItem horizontal bounds lengthOfShorterEdge
                  lengthOfCommonItemEdge sumOfRowWeights (length row))
      row (h, Fin 0, _itemsRemaining this) in
  (mkEngine (nsub (_totalRemainingWeightSum this) sumOfRowWeights)
            itemsRemaining,
   h',
   updateBoundsForNextRow bounds lengthOfCommonItemEdge).

(** *** [squarify] (lines 62-114) *)

(** Everything the loop of [squarify] can read or write.  [committed] is
    not a program variable: it records, in order, the rows handed to
    [layoutRow], and no step reads it. *)
Record State : Type := mkState {
  objs : heap;
  arrays : astore;
  fresh : nat;
  this : SquarifyLayout;
  sorted : aref;
  rootbounds : SquarifyLayoutRect;
  lastAspectRatio : num;
  lengthOfShorterEdge : num;
  row : aref;
  committed : list (list ref)
}.

Definition set_arrays (m : astore) (s : State) : State :=
  mkState (objs s) m (fresh s) (this s) (sorted s) (rootbounds s)
          (lastAspectRatio s) (lengthOfShorterEdge s) (row s) (committed s).

Definition set_lastAspectRatio (a : num) (s : State) : State :=
  mkState (objs s) (arrays s) (fresh s) (this s) (sorted s) (rootbounds s)
          a (lengthOfShorterEdge s) (row s) (committed s).

(** Array methods, acting on the array a reference denotes. *)
Definition array_push (a : aref) (v : ref) (s : State) : State :=
  set_arrays (aset (arrays s) a (arrays s a ++ [v])) s.

Definition array_unshift (a : aref) (v : ref) (s : State) : State :=
  set_arrays (aset (arrays s) a (v :: arrays s a)) s.

(** [a.pop()] on a non-empty array; [d] stands for [undefined]. *)
Definition array_pop (a : aref) (d : ref) (s : State) : ref * State :=
  (last (arrays s a) d,
   set_arrays (aset (arrays s) a (removelast (arrays s a))) s).

(** [row = []]: a new empty array. *)
Definition array_new (s : State) : aref * astore * nat :=
  (Local (fresh s), aset (arrays s) (Local (fresh s)) [], S (fresh s)).

(** Lines 97-112: commit the current row and reset for the next pass. *)
Definition drawRow (s : State) : State :=
  let r := arrays s (row s) in
  let '(this', objs', bounds') :=
    layoutRow (this s) (objs s) r (lengthOfShorterEdge s) (rootbounds s) in
  let '(row', arrays', fresh') := array_new s in
  mkState objs' arrays' fresh' this' (sorted s) bounds'
          PInf (nmin (width bounds') (height bounds'))
          row' (committed s ++ [r]).

(** One iteration of the [while] loop (lines 78-112), entered after
    [nextItem = sorted.shift()] has been taken off the working array. *)
Definition loop_body (nextItem : ref) (s : State) : result State :=
  let s := array_push (row s) nextItem s in
  match calculateWorstAspectRatioInRow
          (this s) (objs s) (arrays s (row s))
          (lengthOfShorterEdge s) (rootbounds s) with
  | Throw msg => Throw msg
  | OutOfFuel => OutOfFuel
  | Ok aspectRatio =>
      let '(draw, s) :=
        if nge (lastAspectRatio s) aspectRatio || isNaN aspectRatio then
          (Nat.eqb (length (arrays s (sorted s))) 0,
           set_lastAspectRatio aspectRatio s)
        else
          let '(popped, s) := array_pop (row s) nextItem s in
          (true, array_unshift (sorted s) popped s) in
      Ok (if draw then drawRow s else s)
  end.

(** The [while (sorted.length > 0)] loop, bounded by [fuel] iterations. *)
Fixpoint loop (fuel : nat) (s : State) : result State :=
  match arrays s (sorted s) with
  | [] => Ok s
  | nextItem :: rest =>
      match fuel with
      | O => OutOfFuel
      | S fuel' =>
          match loop_body nextItem
                  (set_arrays (aset (arrays s) (sorted s) rest) s) with
          | Ok s' => loop fuel' s'
          | Throw msg => Throw msg
          | OutOfFuel => OutOfFuel
          end
      end
  end.

(** The state at the loop head (lines 66-75).  The caller's array is
    [ItemsArr]; [[...items]] is the fresh array [Local 0], sorted in place;
    [row] is the fresh array [Local 1]. *)
Definition compareFn (h : heap) (a b : ref) : num :=
  nsub (weight (h b)) (weight (h a)).

Definition init (h : heap) (items : list ref) (bounds : SquarifyLayoutRect)
  : State :=
  let arrays0 : astore :=
    fun a => match a with ItemsArr => items | Local _ => [] end in
  let sorted := Local 0 in
  let arrays1 := aset arrays0 sorted (arrays0 ItemsArr) in
  let arrays2 :=
    aset arrays1 sorted (array_sort (compareFn h) (arrays1 sorted)) in
  let row := Local 1 in
  let arrays3 := aset arrays2 row [] in
  mkState h arrays3 2
          (mkEngine (sumWeights h (arrays3 sorted))
                    (Z.of_nat (length (arrays3 sorted))))
          sorted bounds PInf (nmin (width bounds) (height bounds))
          row [].

(** [squarify(items, bounds)] on the object store [h]: each of the [n]
    items costs at most two iterations. *)
Definition squarify (h : heap) (items : list ref)
  (bounds : SquarifyLayoutRect) : result State :=
  let s := init h items bounds in
  loop (2 * length (arrays s (sorted s))) s.

(** *** Divisions

    The divisors of the divisions a call evaluates, in program order, read
    off the same lines: what a division by zero is a statement about. *)
Definition divisors_calculateWorstAspectRatioInRow
  (this : SquarifyLayout) (h : heap) (row : list ref)
  (lengthOfShorterEdge : num) (bounds : SquarifyLayoutRect) : list num :=
  match row with
  | [] => []
  | firstItem :: rest =>
      if neq lengthOfShorterEdge (Fin 0) then []
      else
        let totalArea := nmul (width bounds) (height bounds) in
        let lengthSquared := nmul lengthOfShorterEdge lengthOfShorterEdge in
        if neq (_totalRemainingWeightSum this) (Fin 0) then
          let oneItemArea :=
            nmul totalArea (ndiv (Fin 1) (of_Z (_itemsRemaining this))) in
          let rowArea := nmul oneItemArea (of_nat (length row)) in
          let rowAreaSquared := nmul rowArea rowArea in
          [of_Z (_itemsRemaining this);
           rowAreaSquared;
           nmul lengthSquared oneItemArea]
        else
          let areaOf item :=
            nmul totalArea
              (ndiv (weight (h item)) (_totalRemainingWeightSum this)) in
          let firstItemArea := areaOf firstItem in
          let '(minArea, maxArea, sumOfAreas) :=
            fold_left
              (fun '(minArea, maxArea, sumOfAreas) item =>
                 let area := areaOf item in
                 (nmin area minArea, nmax area maxArea, nadd sumOfAreas area))
              rest (firstItemArea, firstItemArea, firstItemArea) in
          let sumSquared := nmul sumOfAreas sumOfAreas in
          map (fun _ => _totalRemainingWeightSum this) row
          ++ [sumSquared; nmul lengthSquared minArea]
  end.

(** Line 197, and line 202 when the fallback is taken. *)
Definition divisors_layoutItem
  (sumOfRowWeights : num) (rowLength : nat) (weight : num) : list num :=
  sumOfRowWeights ::
  if isNaN (ndiv weight sumOfRowWeights)
     && (neq sumOfRowWeights (Fin 0) || isNaN sumOfRowWeights)
  then [of_nat rowLength] else [].

(** Line 183, line 187 when the fallback is taken, then the items. *)
Definition divisors_layoutRow
  (this : SquarifyLayout) (h : heap) (row : list ref)
  (lengthOfShorterEdge : num) (bounds : SquarifyLayoutRect) : list num :=
  let horizontal := neq lengthOfShorterEdge (width bounds) in
  let lengthOfLongerEdge :=
    if horizontal then height bounds else width bounds in
  let sumOfRowWeights := sumWeights h row in
  _totalRemainingWeightSum this ::
  (if isNaN (nmul lengthOfLongerEdge
                  (ndiv sumOfRowWeights (_totalRemainingWeightSum this)))
      && neq (_totalRemainingWeightSum this) (Fin 0)
   then [of_Z (_itemsRemaining this)] else [])
  ++ flat_map
       (fun item =>
          divisors_layoutItem sumOfRowWeights (length row) (weight (h item)))
       row.

(** *** The worked example of the repository: weights 3, 2, 1 in 100 x 100 *)
Definition demo_heap : heap :=
  fun r =>
    mkItem (match r with O => Fin 3 | 1%nat => Fin 2 | _ => Fin 1 end) None.
Definition demo_bounds : SquarifyLayoutRect :=
  mkRect (Fin 0) (Fin 0) (Fin 100) (Fin 100).

(* ================================================================== *)
(** ** The same program on binary64 numbers

    The definitions above, read off the source once more with a
    TypeScript [number] as what it is at run time: an IEEE-754 binary64
    value (the kernel's primitive [float], rounding to nearest, ties to
    even).  Objects, arrays and the loop are as above.  This second
    reading is used to run the program where rounding decides. *)
Module B64.
Import PrimFloat.

Definition num := PrimFloat.float.

Definition nadd : num -> num -> num := PrimFloat.add.
Definition nsub : num -> num -> num := PrimFloat.sub.
Definition nmul : num -> num -> num := PrimFloat.mul.
Definition ndiv : num -> num -> num := PrimFloat.div.

Definition zero : num := PrimFloat.zero.
Definition one : num := PrimFloat.one.
Definition PInf : num := PrimFloat.infinity.

(** [a <= b], [a == b], [a >= b], [a > b]; false as soon as an operand is
    [NaN]; [0 == -0]. *)
Definition nle (a b : num) : bool := PrimFloat.leb a b.
Definition neq (a b : num) : bool := PrimFloat.eqb a b.
Definition nge (a b : num) : bool := PrimFloat.leb b a.
Definition ngt (a b : num) : bool := PrimFloat.ltb b a.

Definition isNaN (a : num) : bool := PrimFloat.is_nan a.

(** [Math.max] and [Math.min]: [NaN] as soon as an argument is [NaN];
    [+0] counts as larger than [-0]. *)
Definition nmax (a b : num) : num :=
  if isNaN a || isNaN b then PrimFloat.nan
  else if PrimFloat.ltb a b then b
  else if PrimFloat.ltb b a then a
  else if PrimFloat.get_sign a then b else a.

Definition nmin (a b : num) : num :=
  if isNaN a || isNaN b then PrimFloat.nan
  else if PrimFloat.ltb a b then a
  else if PrimFloat.ltb b a then b
  else if PrimFloat.get_sign a then a else b.

(** An integer as a number (exact below 2^53). *)
Definition of_Z (z : Z) : num :=
  if (z <? 0)%Z
  then PrimFloat.opp (PrimFloat.of_uint63 (Uint63.of_Z (- z)))
  else PrimFloat.of_uint63 (Uint63.of_Z z).
Definition of_nat (n : nat) : num := of_Z (Z.of_nat n).

(** [Number.MAX_VALUE] = 2^1024 - 2^971. *)
Definition MAX_VALUE : num := 0x1.fffffffffffffp+1023%float.

Record SquarifyLayoutRect : Type := mkRect {
  x : num;
  y : num;
  width : num;
  height : num
}.

Record Item : Type := mkItem {
  weight : num;
  geom : option SquarifyLayoutRect
}.

Definition heap := ref -> Item.

Definition assign (h : heap) (r : ref) (o : Item) : heap :=
  fun r' => if Nat.eqb r' r then o else h r'.

Record SquarifyLayout : Type := mkEngine {
  _totalRemainingWeightSum : num;
  _itemsRemaining : Z
}.

(** [sumWeights] (lines 251-257) *)
Definition sumWeights (h : heap) (source : list ref) : num :=
  fold_left (fun sum item => nadd sum (weight (h item))) source zero.

(** [Array.prototype.sort] with a comparator, stable. *)
Fixpoint sort_insert (cmp : ref -> ref -> num) (a : ref) (l : list ref)
  : list ref :=
  match l with
  | [] => [a]
  | b :: l' =>
      if ngt (cmp a b) zero then b :: sort_insert cmp a l'
      else a :: l
  end.

Definition array_sort (cmp : ref -> ref -> num) (l : list ref) : list ref :=
  fold_right (sort_insert cmp) [] l.

(** [calculateWorstAspectRatioInRow] (lines 116-168); [Math.pow(v, 2)] is
    taken as [v * v]. *)
Definition calculateWorstAspectRatioInRow
  (this : SquarifyLayout) (h : heap) (row : list ref)
  (lengthOfShorterEdge : num) (bounds : SquarifyLayoutRect) : result num :=
  match row with
  | [] => Throw row_error
  | firstItem :: rest =>
      if neq lengthOfShorterEdge zero then Ok MAX_VALUE
      else
        let totalArea := nmul (width bounds) (height bounds) in
        let lengthSquared := nmul lengthOfShorterEdge lengthOfShorterEdge in
        if neq (_totalRemainingWeightSum this) zero then
          let oneItemArea :=
            nmul totalArea (ndiv one (of_Z (_itemsRemaining this))) in
          let rowArea := nmul oneItemArea (of_nat (length row)) in
          let rowAreaSquared := nmul rowArea rowArea in
          Ok (nmax
                (ndiv (nmul lengthSquared oneItemArea) rowAreaSquared)
                (ndiv rowAreaSquared (nmul lengthSquared oneItemArea)))
        else
          let areaOf item :=
            nmul totalArea
              (ndiv (weight (h item)) (_totalRemainingWeightSum this)) in
          let firstItemArea := areaOf firstItem in
          let '(minArea, maxArea, sumOfAreas) :=
            fold_left
              (fun '(minArea, maxArea, sumOfAreas) item =>
                 let area := areaOf item in
                 (nmin area minArea, nmax area maxArea, nadd sumOfAreas area))
              rest (firstItemArea, firstItemArea, firstItemArea) in
          let sumSquared := nmul sumOfAreas sumOfAreas in
          Ok (nmax
                (ndiv (nmul lengthSquared maxArea) sumSquared)
                (ndiv sumSquared (nmul lengthSquared minArea)))
  end.

(** [updateBoundsForNextRow] (lines 234-249) *)
Definition updateBoundsForNextRow
  (bounds : SquarifyLayoutRect) (modifier : num) : SquarifyLayoutRect :=
  if ngt (width bounds) (height bounds) then
    let newWidth := nmax zero (nsub (width bounds) modifier) in
    mkRect (nsub (x bounds) (nsub newWidth (width bounds)))
           (y bounds) newWidth (height bounds)
  else
    let newHeight := nmax zero (nsub (height bounds) modifier) in
    mkRect (x bounds)
           (nsub (y bounds) (nsub newHeight (height bounds)))
           (width bounds) newHeight.

(** [layoutRow] (lines 170-232) *)
Definition layoutItem
  (horizontal : bool) (bounds : SquarifyLayoutRect)
  (lengthOfShorterEdge lengthOfCommonItemEdge sumOfRowWeights : num)
  (rowLength : nat)
  (acc : heap * num * Z) (item : ref) : heap * num * Z :=
  let '(h, position, itemsRemaining) := acc in
  let weight := weight (h item) in
  let ratio0 := ndiv weight sumOfRowWeights in
  let ratio :=
    if isNaN ratio0 then
      if neq sumOfRowWeights zero || isNaN sumOfRowWeights
      then ndiv one (of_nat rowLength)
      else zero
    else ratio0 in
  let lengthOfItemEdge := nmul lengthOfShorterEdge ratio in
  let g :=
    if horizontal then
      mkRect (nadd (x bounds) position) (y bounds)
             lengthOfItemEdge lengthOfCommonItemEdge
    else
      mkRect (x bounds) (nadd (y bounds) position)
             (nmax zero lengthOfCommonItemEdge)
             (nmax zero lengthOfItemEdge) in
  (assign h item (mkItem weight (Some g)),
   nadd position lengthOfItemEdge,
   (itemsRemaining - 1)%Z).

Definition commonItemEdge
  (this : SquarifyLayout) (lengthOfLongerEdge sumOfRowWeights : num)
  (rowLength : nat) : num :=
  let lengthOfCommonItemEdge :=
    nmul lengthOfLongerEdge
         (ndiv sumOfRowWeights (_totalRemainingWeightSum this)) in
  if isNaN lengthOfCommonItemEdge then
    if neq (_totalRemainingWeightSum this) zero then
      ndiv (nmul lengthOfLongerEdge (of_nat rowLength))
           (of_Z (_itemsRemaining this))
    else zero
  else lengthOfCommonItemEdge.

Definition layoutRow
  (this : SquarifyLayout) (h : heap) (row : list ref)
  (lengthOfShorterEdge : num) (bounds : SquarifyLayoutRect)
  : SquarifyLayout * heap * SquarifyLayoutRect :=
  let horizontal := neq lengthOfShorterEdge (width bounds) in
  let lengthOfLongerEdge :=
    if horizontal then height bounds else width bounds in
  let sumOfRowWeights := sumWeights h row in
  let lengthOfCommonItemEdge :=
    commonItemEdge this lengthOfLongerEdge sumOfRowWeights (length row) in
  let '(h', _, itemsRemaining) :=
    fold_left
      (layoutItem horizontal bounds lengthOfShorterEdge
                  lengthOfCommonItemEdge sumOfRowWeights (length row))
      row (h, zero, _itemsRemaining this) in
  (mkEngine (nsub (_totalRemainingWeightSum this) sumOfRowWeights)
            itemsRemaining,
   h',
   updateBoundsForNextRow bounds lengthOfCommonItemEdge).

(** [squarify] (lines 62-114) *)
Record State : Type := mkState {
  objs : heap;
  arrays : astore;
  fresh : nat;
  this : SquarifyLayout;
  sorted : aref;
  rootbounds : SquarifyLayoutRect;
  lastAspectRatio : num;
  lengthOfShorterEdge : num;
  row : aref;
  committed : list (list ref)
}.

Definition set_arrays (m : astore) (s : State) : State :=
  mkState (objs s) m (fresh s) (this s) (sorted s) (rootbounds s)
          (lastAspectRatio s) (lengthOfShorterEdge s) (row s) (committed s).

Definition set_lastAspectRatio (a : num) (s : State) : State :=
  mkState (objs s) (arrays s) (fresh s) (this s) (sorted s) (rootbounds s)
          a (lengthOfShorterEdge s) (row s) (committed s).

Definition array_push (a : aref) (v : ref) (s : State) : State :=
  set_arrays (aset (arrays s) a (arrays s a ++ [v])) s.

Definition array_unshift (a : aref) (v : ref) (s : State) : State :=
  set_arrays (aset (arrays s) a (v :: arrays s a)) s.

Definition array_pop (a : aref) (d : ref) (s : State) : ref * State :=
  (last (arrays s a) d,
   set_arrays (aset (arrays s) a (removelast (arrays s a))) s).

Definition array_new (s : State) : aref * astore * nat :=
  (Local (fresh s), aset (arrays s) (Local (fresh s)) [], S (fresh s)).

Definition drawRow (s : State) : State :=
  let r := arrays s (row s) in
  let '(this', objs', bounds') :=
    layoutRow (this s) (objs s) r (lengthOfShorterEdge s) (rootbounds s) in
  let '(row', arrays', fresh') := array_new s in
  mkState objs' arrays' fresh' this' (sorted s) bounds'
          PInf (nmin (width bounds') (height bounds'))
          row' (committed s ++ [r]).

Definition loop_body (nextItem : ref) (s : State) : result State :=
  let s := array_push (row s) nextItem s in
  match calculateWorstAspectRatioInRow
          (this s) (objs s) (arrays s (row s))
          (lengthOfShorterEdge s) (rootbounds s) with
  | Throw msg => Throw msg
  | OutOfFuel => OutOfFuel
  | Ok aspectRatio =>
      let '(draw, s) :=
        if nge (lastAspectRatio s) aspectRatio || isNaN aspectRatio then
          (Nat.eqb (length (arrays s (sorted s))) 0,
           set_lastAspectRatio aspectRatio s)
        else
          let '(popped, s) := array_pop (row s) nextItem s in
          (true, array_unshift (sorted s) popped s) in
      Ok (if draw then drawRow s else s)
  end.

Fixpoint loop (fuel : nat) (s : State) : result State :=
  match arrays s (sorted s) with
  | [] => Ok s
  | nextItem :: rest =>
      match fuel with
      | O => OutOfFuel
      | S fuel' =>
          match loop_body nextItem
                  (set_arrays (aset (arrays s) (sorted s) rest) s) with
          | Ok s' => loop fuel' s'
          | Throw msg => Throw msg
          | OutOfFuel => OutOfFuel
          end
      end
  end.

Definition compareFn (h : heap) (a b : ref) : num :=
  nsub (weight (h b)) (weight (h a)).

Definition init (h : heap) (items : list ref) (bounds : SquarifyLayoutRect)
  : State :=
  let arrays0 : astore :=
    fun a => match a with ItemsArr => items | Local _ => [] end in
  let sorted := Local 0 in
  let arrays1 := aset arrays0 sorted (arrays0 ItemsArr) in
  let arrays2 :=
    aset arrays1 sorted (array_sort (compareFn h) (arrays1 sorted)) in
  let row := Local 1 in
  let arrays3 := aset arrays2 row [] in
  mkState h arrays3 2
          (mkEngine (sumWeights h (arrays3 sorted))
                    (Z.of_nat (length (arrays3 sorted))))
          sorted bounds PInf (nmin (width bounds) (height bounds))
          row [].

Definition squarify (h : heap) (items : list ref)
  (bounds : SquarifyLayoutRect) : result State :=
  let s := init h items bounds in
  loop (2 * length (arrays s (sorted s))) s.

(** Items of the given weights, without geometry. *)
Definition items_of (ws : list num) : heap :=
  fun r => mkItem (nth r ws zero) None.

End B64.

(* ================================================================== *)
(** ** Runs, invariants and the vocabulary of the properties *)

(** The contents of the two working arrays. *)
Definition sortedL (s : State) : list ref := arrays s (sorted s).
Definition rowL (s : State) : list ref := arrays s (row s).

(** One iteration of the loop, guard included. *)
Definition step (s s' : State) : Prop :=
  exists nextItem rest,
    arrays s (sorted s) = nextItem :: rest /\
    loop_body nextItem (set_arrays (aset (arrays s) (sorted s) rest) s) = Ok s'.

(** The loop-head states of a run that starts in [s0]. *)
Inductive reach (s0 : State) : State -> Prop :=
| reach_start : reach s0 s0
| reach_step s s' : reach s0 s -> step s s' -> reach s0 s'.

(** Allocation discipline: [sorted] is the first local array, [row] the
    most recent one. *)
Definition wf (s : State) : Prop :=
  sorted s = Local 0 /\
  exists k, row s = Local (S k) /\ fresh s = S (S k).

(** The two ways an iteration ends: the row is kept open with the new
    item in it, or a row [r] is laid out and [rem] stays in [sorted]. *)
Definition kept (s : State) (aspectRatio : num) (r rem : list ref)
  (s' : State) : Prop :=
  objs s' = objs s /\ this s' = this s /\
  rootbounds s' = rootbounds s /\
  lengthOfShorterEdge s' = lengthOfShorterEdge s /\
  committed s' = committed s /\
  lastAspectRatio s' = aspectRatio /\
  rowL s' = r /\ sortedL s' = rem.

(** [s'] is [s] after [layoutRow] on [r] and the reset of lines 104-111. *)
Definition drawn (s : State) (r rem : list ref) (s' : State) : Prop :=
  (this s', objs s', rootbounds s') =
    layoutRow (this s) (objs s) r (lengthOfShorterEdge s) (rootbounds s) /\
  lengthOfShorterEdge s' =
    nmin (width (rootbounds s')) (height (rootbounds s')) /\
  lastAspectRatio s' = PInf /\
  committed s' = committed s ++ [r] /\
  rowL s' = [] /\ sortedL s' = rem.

(** The test of line 86. *)
Definition accepts (lastAspectRatio aspectRatio : num) : bool :=
  nge lastAspectRatio aspectRatio || isNaN aspectRatio.

(** Iterations still needed: two per item left in [sorted], one less when
    the next item is sure to be accepted. *)
Definition budget (s : State) : nat :=
  2 * length (sortedL s) -
  match lastAspectRatio s with PInf => 1 | _ => 0 end.

(** Bookkeeping at a loop head, for a call on store [h0] and array
    [items]: the caller's array is intact; the committed rows, the open row
    and [sorted] together hold the items; an empty row means the next item
    is compared with [+Infinity]; committed rows are not empty; weights are
    those of [h0] and objects outside [items] are untouched;
    [_itemsRemaining] counts the open row and [sorted]; committed items
    carry a rectangle. *)
Definition Struct (h0 : heap) (items : list ref) (s : State) : Prop :=
  wf s /\
  arrays s ItemsArr = items /\
  Permutation (concat (committed s) ++ rowL s ++ sortedL s) items /\
  (rowL s = [] -> lastAspectRatio s = PInf) /\
  (sortedL s = [] -> rowL s = []) /\
  Forall (fun r => r <> []) (committed s) /\
  (forall l, weight (objs s l) = weight (h0 l)) /\
  (forall l, ~ In l items -> objs s l = h0 l) /\
  _itemsRemaining (this s) =
    Z.of_nat (length (rowL s) + length (sortedL s)) /\
  (forall l, In l (concat (committed s)) -> geom (objs s l) <> None).

(** The weight of an object as a rational (zero when it is not finite). *)
Definition wq (h : heap) (r : ref) : Q :=
  match weight (h r) with Fin q => q | _ => 0 end.

(** The exact sum of the weights of a list of items. *)
Definition sumQ (h : heap) (l : list ref) : Q :=
  fold_right (fun r acc => wq h r + acc) 0 l.

Definition nonneg_weights (h : heap) (l : list ref) : Prop :=
  Forall (fun r => fin_nonneg (weight (h r)) = true) l.

(** The share of the shorter edge an item of weight [w] gets in a row of
    [k] items of total weight [sw] (lines 199-208). *)
Definition ratioQ (sw : Q) (k : nat) (w : Q) : Q :=
  if Qeq_bool sw 0 then 1 / inject_Z (Z.of_nat k) else w / sw.

(** An object laid out in a row with shorter edge [s], common edge [c]. *)
Definition Shaped (hz : bool) (s c sw : Q) (k : nat) (o : Item) : Prop :=
  exists w g,
    weight o = Fin w /\ 0 <= w <= sw /\ geom o = Some g /\
    width g = Fin (if hz then s * ratioQ sw k w else c) /\
    height g = Fin (if hz then c else s * ratioQ sw k w).

(** An object carrying a finite, non-negative [gw] x [gh] rectangle. *)
Definition Placed (o : Item) (gw gh : Q) : Prop :=
  exists g, geom o = Some g /\ width g = Fin gw /\ height g = Fin gh /\
            0 <= gw /\ 0 <= gh.

(** Area is handed out per unit: a unit is a unit of weight when the total
    weight is positive, and an item when it is zero. *)
Definition zero_mode (h0 : heap) (items : list ref) : bool :=
  Qeq_bool (sumQ h0 items) 0.

Definition units (h0 : heap) (items : list ref) (l : ref) : Q :=
  if zero_mode h0 items then 1 else wq h0 l.

Definition total_units (h0 : heap) (items : list ref) : Q :=
  if zero_mode h0 items then inject_Z (Z.of_nat (length items))
  else sumQ h0 items.

Definition remaining_units (h0 : heap) (items : list ref) (s : State) : Q :=
  if zero_mode h0 items then inject_Z (_itemsRemaining (this s))
  else sumQ h0 (rowL s ++ sortedL s).

(** The numeric invariant of the loop for bounds [BW] x [BH]. *)
Definition Numeric (h0 : heap) (items : list ref) (BW BH : Q) (s : State)
  : Prop :=
  exists t bw bh,
    _totalRemainingWeightSum (this s) = Fin t /\
    t == sumQ h0 (rowL s ++ sortedL s) /\
    width (rootbounds s) = Fin bw /\ height (rootbounds s) = Fin bh /\
    0 <= bw /\ 0 <= bh /\
    lengthOfShorterEdge s =
      nmin (width (rootbounds s)) (height (rootbounds s)) /\
    bw * bh * total_units h0 items
      == BW * BH * remaining_units h0 items s /\
    forall l, In l (concat (committed s)) ->
      exists gw gh, Placed (objs s l) gw gh /\
                    gw * gh * total_units h0 items
                      == BW * BH * units h0 items l.

(** The items not yet handed to [layoutRow]. *)
Definition unplaced (s : State) : list ref := rowL s ++ sortedL s.

(** [_totalRemainingWeightSum] is the weight of the unplaced items. *)
Definition Tracks (h0 : heap) (s : State) : Prop :=
  exists t, _totalRemainingWeightSum (this s) = Fin t /\
            t == sumQ h0 (unplaced s).

(** [item.width * item.height]; [NaN] while the fields are undefined. *)
Definition item_area (o : Item) : num :=
  match geom o with
  | Some g => nmul (width g) (height g)
  | None => NaN
  end.

Definition sum_areas (h : heap) (items : list ref) : num :=
  fold_right (fun l acc => nadd (item_area (h l)) acc) (Fin 0) items.

Definition zero_weights (h : heap) (items : list ref) : Prop :=
  Forall (fun r => neq (weight (h r)) (Fin 0) = true) items.

(** Concrete inputs. *)
Definition demo_items : list ref := [0; 1; 2]%nat.

(** Rectangles with their rationals in lowest terms, to display a run. *)
Definition nred (a : num) : num :=
  match a with Fin q => Fin (Qred q) | _ => a end.

Definition rect_red (g : SquarifyLayoutRect) : SquarifyLayoutRect :=
  mkRect (nred (x g)) (nred (y g)) (nred (width g)) (nred (height g)).

Definition layout_of (r : result State) (items : list ref)
  : list (option SquarifyLayoutRect) :=
  match r with
  | Ok s => map (fun l => option_map rect_red (geom (objs s l))) items
  | _ => []
  end.

Definition rows_of (r : result State) : list (list ref) :=
  match r with Ok s => committed s | _ => [] end.

(** The degenerate bounds of the specification: width 0, height 10. *)
Definition flat_bounds : SquarifyLayoutRect :=
  mkRect (Fin 0) (Fin 0) (Fin 0) (Fin 10).

(** Five items of weight zero. *)
Definition zero_heap : heap := fun _ => mkItem (Fin 0) None.
Definition zero_items : list ref := [0; 1; 2; 3; 4]%nat.

(* ================================================================== *)
(** ** Stores *)

Lemma aref_eqb_refl a : aref_eqb a a = true.
Proof. destruct a; simpl; auto using Nat.eqb_refl. Qed.

(** Reading an array store after writes to local arrays. *)
Ltac store_simpl :=
  repeat (progress (unfold aset, sortedL, rowL; simpl; rewrite ?Nat.eqb_refl)).

Lemma aset_same m a l : aset m a l a = l.
Proof. unfold aset. now rewrite aref_eqb_refl. Qed.

Lemma assign_same h r o : assign h r o r = o.
Proof. unfold assign. now rewrite Nat.eqb_refl. Qed.

Lemma assign_other h r o r' : r' <> r -> assign h r o r' = h r'.
Proof.
  intros Hne. unfold assign.
  destruct (Nat.eqb_spec r' r); congruence.
Qed.

Lemma assign_weight h r g r' :
  weight (assign h r (mkItem (weight (h r)) g) r') = weight (h r').
Proof.
  unfold assign. destruct (Nat.eqb_spec r' r); subst; reflexivity.
Qed.

(* ================================================================== *)
(** ** What one iteration does *)

Lemma calculateWorstAspectRatioInRow_nonempty this h r a shorter b :
  exists v,
    calculateWorstAspectRatioInRow this h (r ++ [a]) shorter b = Ok v.
Proof.
  unfold calculateWorstAspectRatioInRow.
  destruct (r ++ [a]) as [|f rest] eqn:E.
  - destruct r; discriminate.
  - destruct (neq shorter (Fin 0)); [eauto|].
    destruct (neq (_totalRemainingWeightSum this) (Fin 0)); [eauto|].
    destruct (fold_left _ rest _) as [[mn mx] sm]. eauto.
Qed.

Lemma step_cases s nextItem rest :
  wf s -> sortedL s = nextItem :: rest ->
  exists aspectRatio s',
    calculateWorstAspectRatioInRow (this s) (objs s) (rowL s ++ [nextItem])
      (lengthOfShorterEdge s) (rootbounds s) = Ok aspectRatio /\
    loop_body nextItem (set_arrays (aset (arrays s) (sorted s) rest) s)
      = Ok s' /\
    wf s' /\ arrays s' ItemsArr = arrays s ItemsArr /\
    if accepts (lastAspectRatio s) aspectRatio then
      match rest with
      | [] => drawn s (rowL s ++ [nextItem]) [] s'
      | _ :: _ => kept s aspectRatio (rowL s ++ [nextItem]) rest s'
      end
    else drawn s (rowL s) (nextItem :: rest) s'.
Proof.
  intros (Hs & k & Hr & Hf) Hsorted.
  destruct s as [h m f t so b la sh ro cm]; unfold sortedL, rowL in *;
    simpl in *; subst so ro f.
  destruct (calculateWorstAspectRatioInRow_nonempty t h (m (Local (S k)))
              nextItem sh b) as (ar & Har).
  exists ar.
  unfold loop_body, array_push, set_arrays; store_simpl.
  rewrite Har.
  unfold accepts. destruct (nge la ar || isNaN ar).
  - destruct rest as [|c rest]; simpl.
    + unfold drawRow; store_simpl.
      destruct (layoutRow t h (m (Local (S k)) ++ [nextItem]) sh b)
        as [[t' h'] b'] eqn:El.
      eexists; split; [reflexivity|]. split; [reflexivity|].
      repeat split; store_simpl; eauto.
    + eexists; split; [reflexivity|]. split; [reflexivity|].
      repeat split; store_simpl; eauto.
  - unfold array_pop, array_unshift, set_arrays, drawRow; store_simpl.
    rewrite last_last, removelast_last.
    destruct (layoutRow t h (m (Local (S k))) sh b) as [[t' h'] b'] eqn:El.
    eexists; split; [reflexivity|]. split; [reflexivity|].
    repeat split; store_simpl; eauto.
Qed.

(* ================================================================== *)
(** ** Runs *)

Lemma reach_front s0 s1 s : step s0 s1 -> reach s1 s -> reach s0 s.
Proof.
  intros H01 H; induction H.
  - eapply reach_step; [apply reach_start | exact H01].
  - eapply reach_step; eauto.
Qed.

Lemma reach_invariant (P : State -> Prop) :
  (forall s s', P s -> step s s' -> P s') ->
  forall s0 s, P s0 -> reach s0 s -> P s.
Proof.
  intros Hstep s0 s H0 H; induction H; eauto.
Qed.

(** A finished loop ends in a reachable state with [sorted] empty. *)
Lemma loop_reach fuel : forall s s',
  loop fuel s = Ok s' -> reach s s' /\ sortedL s' = [].
Proof.
  induction fuel as [|fuel IH]; intros s s' H; simpl in H.
  - destruct (arrays s (sorted s)) eqn:E; [|discriminate].
    injection H as <-. split; [apply reach_start | exact E].
  - destruct (arrays s (sorted s)) as [|a rest] eqn:E.
    + injection H as <-. split; [apply reach_start | exact E].
    + destruct (loop_body a _) as [s1| |] eqn:Eb; try discriminate.
      destruct (IH _ _ H) as (Hr & He). split; [|exact He].
      eapply reach_front; [|exact Hr]. exists a, rest. auto.
Qed.

Lemma loop_fuel_mono fuel : forall s s' fuel',
  loop fuel s = Ok s' -> (fuel <= fuel')%nat -> loop fuel' s = Ok s'.
Proof.
  induction fuel as [|fuel IH]; intros s s' fuel' H Hle.
  - simpl in H. destruct (arrays s (sorted s)) eqn:E; [|discriminate].
    destruct fuel'; simpl; rewrite E; exact H.
  - destruct fuel' as [|fuel']; [lia|]. simpl in *.
    destruct (arrays s (sorted s)) as [|a rest]; [exact H|].
    destruct (loop_body a _) as [s1| |]; try discriminate.
    apply IH; [exact H | lia].
Qed.

Lemma accepts_PInf a : accepts PInf a = true.
Proof. destruct a; reflexivity. Qed.

Lemma loop_total fuel : forall s,
  wf s -> (budget s <= fuel)%nat -> exists s', loop fuel s = Ok s'.
Proof.
  induction fuel as [|fuel IH]; intros s Hwf Hb.
  - destruct (sortedL s) as [|a rest] eqn:E.
    + exists s. unfold sortedL in E. simpl. now rewrite E.
    + exfalso. unfold budget in Hb. rewrite E in Hb. simpl length in Hb.
      destruct (lastAspectRatio s); lia.
  - destruct (sortedL s) as [|a rest] eqn:E.
    + exists s. unfold sortedL in E. simpl. now rewrite E.
    + destruct (step_cases s a rest Hwf E)
        as (ar & s1 & _ & Hbody & Hwf1 & _ & Hc).
      assert (Hb1 : (budget s1 <= fuel)%nat).
      { unfold budget in *. rewrite E in Hb. simpl length in Hb.
        destruct (accepts (lastAspectRatio s) ar) eqn:Ea.
        - destruct rest as [|c rest].
          + destruct Hc as (_ & _ & _ & _ & _ & ->). simpl length. lia.
          + destruct Hc as (_ & _ & _ & _ & _ & _ & _ & ->).
            simpl length in *.
            destruct (lastAspectRatio s), (lastAspectRatio s1); lia.
        - destruct Hc as (_ & _ & -> & _ & _ & ->). simpl length.
          destruct (lastAspectRatio s); try lia.
          rewrite accepts_PInf in Ea. discriminate. }
      destruct (IH s1 Hwf1 Hb1) as (s' & Hs'). exists s'.
      simpl. unfold sortedL in E. rewrite E, Hbody. exact Hs'.
Qed.

(* ================================================================== *)
(** ** What [layoutRow] leaves alone *)

Lemma layoutItem_fold_frame hz bd sh ce sw k r : forall h p n h' p' n',
  fold_left (layoutItem hz bd sh ce sw k) r (h, p, n) = (h', p', n') ->
  (forall l, weight (h' l) = weight (h l)) /\
  (forall l, ~ In l r -> h' l = h l) /\
  n' = (n - Z.of_nat (length r))%Z.
Proof.
  induction r as [|a r IH]; intros h p n h' p' n' H; simpl in H.
  - injection H as <- <- <-. repeat split; auto. simpl; lia.
  - apply IH in H. destruct H as (Hw & Hfr & Hn). repeat split.
    + intros l. rewrite Hw. apply assign_weight.
    + intros l Hl. rewrite Hfr by (intros Hin; apply Hl; now right).
      apply assign_other. intros ->. apply Hl. now left.
    + rewrite Hn. simpl length. lia.
Qed.

Lemma layoutRow_frame this h r sh b this' h' b' :
  layoutRow this h r sh b = (this', h', b') ->
  (forall l, weight (h' l) = weight (h l)) /\
  (forall l, ~ In l r -> h' l = h l) /\
  _itemsRemaining this' = (_itemsRemaining this - Z.of_nat (length r))%Z.
Proof.
  unfold layoutRow. intros H.
  destruct (fold_left _ r _) as [[h1 p1] n1] eqn:E.
  injection H as <- <- <-. simpl.
  eapply layoutItem_fold_frame; eauto.
Qed.

Lemma layoutItem_fold_written hz bd sh ce sw k r : forall h p n h' p' n',
  fold_left (layoutItem hz bd sh ce sw k) r (h, p, n) = (h', p', n') ->
  forall l, In l r \/ geom (h l) <> None -> geom (h' l) <> None.
Proof.
  induction r as [|a r IH]; intros h p n h' p' n' H l Hl; simpl in H.
  - injection H as <- <- <-. destruct Hl as [[]|Hl]. exact Hl.
  - refine (IH _ _ _ _ _ _ H l _).
    destruct (Nat.eq_dec l a) as [->|Hne].
    + right. rewrite assign_same. discriminate.
    + destruct Hl as [[Heq|Hin]|Hg]; [congruence|now left|].
      right. now rewrite assign_other.
Qed.

Lemma layoutRow_written this h r sh b this' h' b' :
  layoutRow this h r sh b = (this', h', b') ->
  forall l, In l r \/ geom (h l) <> None -> geom (h' l) <> None.
Proof.
  unfold layoutRow. intros H.
  destruct (fold_left _ r _) as [[h1 p1] n1] eqn:E.
  injection H as <- <- <-.
  eapply layoutItem_fold_written; eauto.
Qed.

Lemma layoutRow_total this h r sh b this' h' b' :
  layoutRow this h r sh b = (this', h', b') ->
  _totalRemainingWeightSum this' =
    nsub (_totalRemainingWeightSum this) (sumWeights h r).
Proof.
  unfold layoutRow. intros H.
  destruct (fold_left _ r _) as [[h1 p1] n1] eqn:E.
  now injection H as <- <- <-.
Qed.

Lemma sumWeights_ext h h' l :
  (forall r, weight (h' r) = weight (h r)) ->
  sumWeights h' l = sumWeights h l.
Proof.
  intros Hw. unfold sumWeights. generalize (Fin 0).
  induction l as [|a l IH]; intros acc; simpl; [reflexivity|].
  now rewrite Hw, IH.
Qed.

(* ================================================================== *)
(** ** Sorting permutes *)

Lemma sort_insert_perm cmp a l : Permutation (sort_insert cmp a l) (a :: l).
Proof.
  induction l as [|b l IH]; simpl; [reflexivity|].
  destruct (ngt (cmp a b) (Fin 0)); [|reflexivity].
  rewrite IH. apply perm_swap.
Qed.

Lemma array_sort_perm cmp l : Permutation (array_sort cmp l) l.
Proof.
  induction l as [|a l IH]; simpl; [reflexivity|].
  rewrite sort_insert_perm. now constructor.
Qed.

(* ================================================================== *)
(** ** Bookkeeping invariant (any weights, any bounds) *)

Lemma init_wf h items bounds : wf (init h items bounds).
Proof. split; [reflexivity|]. exists 0%nat. split; reflexivity. Qed.

Lemma init_Struct h items bounds : Struct h items (init h items bounds).
Proof.
  split; [apply init_wf|]. split; [reflexivity|].
  split; [simpl; apply array_sort_perm|].
  split; [reflexivity|]. split; [reflexivity|].
  split; [constructor|]. split; [reflexivity|]. split; [reflexivity|].
  split; [reflexivity|]. intros l [].
Qed.

Lemma step_Struct h0 items s s' :
  Struct h0 items s -> step s s' -> Struct h0 items s'.
Proof.
  intros (Hwf & Hit & Hperm & HJ & HK & Hne & Hw & Hfr & Hn & Hwr)
         (a & rest & Hsorted & Hbody).
  destruct (step_cases s a rest Hwf Hsorted)
    as (ar & s1 & _ & Hbody1 & Hwf1 & Hit1 & Hc).
  rewrite Hbody in Hbody1. injection Hbody1 as <-.
  fold (sortedL s) in Hsorted. rewrite Hsorted in *.
  assert (Hdrawn : forall r rem,
    r <> [] -> Permutation (r ++ rem) (rowL s ++ a :: rest) ->
    drawn s r rem s' ->
    (length r + length rem = length (rowL s) + S (length rest))%nat ->
    Struct h0 items s').
  { intros r rem Hr Hp (Hl & _ & Hla & Hcm & Hrow & Hso) Hlen.
    symmetry in Hl. pose proof (layoutRow_written _ _ _ _ _ _ _ _ Hl) as Hwr'.
    apply layoutRow_frame in Hl.
    destruct Hl as (Hw' & Hfr' & Hn').
    split; [exact Hwf1|]. split; [congruence|].
    split.
    { rewrite Hcm, Hrow, Hso, concat_app. simpl.
      rewrite app_nil_r, <- app_assoc, Hp. exact Hperm. }
    split; [auto|]. split; [auto|].
    split; [rewrite Hcm; apply Forall_app; split; auto|].
    split; [intros l; rewrite Hw'; apply Hw|].
    split.
    { intros l Hl. rewrite Hfr'; [apply Hfr; exact Hl|].
      intros Hin. apply Hl. rewrite <- Hperm.
      apply in_or_app. right. rewrite <- Hp.
      apply in_or_app. now left. }
    split; [rewrite Hn', Hn, Hrow, Hso; simpl in *; lia|].
    intros l Hl. apply Hwr'. rewrite Hcm, concat_app in Hl. simpl in Hl.
    rewrite app_nil_r in Hl. apply in_app_or in Hl.
    destruct Hl as [Hl|Hl]; [right; now apply Hwr | now left]. }
  destruct (accepts (lastAspectRatio s) ar) eqn:Ea.
  - destruct rest as [|c rest].
    + apply (Hdrawn (rowL s ++ [a]) []); [| |exact Hc|].
      * destruct (rowL s); discriminate.
      * now rewrite app_nil_r.
      * rewrite length_app. simpl. lia.
    + destruct Hc as (Ho & Ht & _ & _ & Hcm & Hla & Hrow & Hso).
      split; [exact Hwf1|]. split; [congruence|].
      split; [rewrite Hcm, Hrow, Hso, <- app_assoc; exact Hperm|].
      split; [rewrite Hrow; now destruct (rowL s)|].
      split; [rewrite Hso; discriminate|].
      split; [now rewrite Hcm|].
      split; [now rewrite Ho|]. split; [now rewrite Ho|].
      split; [rewrite Ht, Hn, Hrow, Hso, length_app; simpl; lia|].
      now rewrite Ho, Hcm.
  - assert (Hrne : rowL s <> []).
    { intros He. rewrite (HJ He), accepts_PInf in Ea. discriminate. }
    apply (Hdrawn (rowL s) (a :: rest)); auto.
Qed.

Lemma reach_Struct h items bounds s :
  reach (init h items bounds) s -> Struct h items s.
Proof.
  apply (reach_invariant (Struct h items)).
  - intros; eapply step_Struct; eauto.
  - apply init_Struct.
Qed.

(** [squarify] returns: the loop never throws and the fuel suffices. *)
Lemma squarify_returns h items bounds :
  exists s, squarify h items bounds = Ok s /\
            reach (init h items bounds) s /\ sortedL s = [].
Proof.
  unfold squarify.
  destruct (loop_total (2 * length (arrays (init h items bounds)
                                      (sorted (init h items bounds))))
              (init h items bounds) (init_wf _ _ _)) as (s & Hs).
  { unfold budget. simpl. lia. }
  exists s. split; [exact Hs|]. now apply loop_reach in Hs.
Qed.

(* ================================================================== *)
(** ** Exact arithmetic on finite numbers *)

Lemma Qeq_bool_true q : q == 0 -> Qeq_bool q 0 = true.
Proof. intros H. now apply Qeq_bool_iff. Qed.

Lemma Qeq_bool_false q : ~ q == 0 -> Qeq_bool q 0 = false.
Proof.
  intros H. destruct (Qeq_bool q 0) eqn:E; [|reflexivity].
  apply Qeq_bool_iff in E. contradiction.
Qed.

Lemma Qle_bool_true p q : p <= q -> Qle_bool p q = true.
Proof. intros H. now apply Qle_bool_iff. Qed.

Lemma Qle_bool_false p q : q < p -> Qle_bool p q = false.
Proof.
  intros H. destruct (Qle_bool p q) eqn:E; [|reflexivity].
  apply Qle_bool_iff in E. lra.
Qed.

Lemma Qcompare_zero q : q == 0 -> (q ?= 0) = Eq.
Proof. intros H. now apply Qeq_alt. Qed.

Lemma fin_nonneg_inv a :
  fin_nonneg a = true -> exists q, a = Fin q /\ 0 <= q.
Proof.
  destruct a as [q| | |]; try discriminate. simpl. intros H.
  exists q. split; [reflexivity|]. now apply Qle_bool_iff.
Qed.

Lemma fin_pos_inv a :
  fin_pos a = true -> exists q, a = Fin q /\ 0 < q.
Proof.
  destruct a as [q| | |]; try discriminate. simpl. intros H.
  apply andb_true_iff in H. destruct H as (H1 & H2).
  apply Qle_bool_iff in H1. apply negb_true_iff in H2.
  exists q. split; [reflexivity|].
  destruct (Qeq_dec q 0) as [E|E].
  - apply Qeq_bool_true in E. congruence.
  - lra.
Qed.

Lemma ndiv_fin p q : ~ q == 0 -> ndiv (Fin p) (Fin q) = Fin (p / q).
Proof. intros H. simpl. now rewrite Qeq_bool_false. Qed.

Lemma ndiv_zero_zero p q : p == 0 -> q == 0 -> ndiv (Fin p) (Fin q) = NaN.
Proof.
  intros Hp Hq. simpl. now rewrite Qeq_bool_true, Qcompare_zero.
Qed.

Lemma nmax_zero_fin q : 0 <= q -> nmax (Fin 0) (Fin q) = Fin q.
Proof. intros H. simpl. now rewrite Qle_bool_true. Qed.

Lemma inject_Z_pos z : (0 < z)%Z -> 0 < inject_Z z.
Proof. intros H. change 0 with (inject_Z 0). now rewrite <- Zlt_Qlt. Qed.

Lemma inject_Z_le a b : (a <= b)%Z -> inject_Z a <= inject_Z b.
Proof. intros H. now rewrite <- Zle_Qle. Qed.

Lemma Qmult_le_mono_nonneg a b c : 0 <= a -> b <= c -> a * b <= a * c.
Proof. intros Ha Hbc. nra. Qed.

Lemma nonneg_weight_wq h r :
  fin_nonneg (weight (h r)) = true ->
  weight (h r) = Fin (wq h r) /\ 0 <= wq h r.
Proof.
  intros H. apply fin_nonneg_inv in H. destruct H as (q & Hq & Hpos).
  unfold wq. rewrite Hq. auto.
Qed.

Lemma sumQ_app h l1 l2 : sumQ h (l1 ++ l2) == sumQ h l1 + sumQ h l2.
Proof.
  induction l1 as [|a l1 IH]; simpl; [lra|]. rewrite IH. lra.
Qed.

Lemma sumQ_perm h l1 l2 : Permutation l1 l2 -> sumQ h l1 == sumQ h l2.
Proof.
  induction 1; simpl; try lra.
Qed.

Lemma sumQ_nonneg h l : nonneg_weights h l -> 0 <= sumQ h l.
Proof.
  induction 1 as [|a l Ha _ IH]; simpl; [lra|].
  apply nonneg_weight_wq in Ha. lra.
Qed.

Lemma sumQ_member h l r :
  nonneg_weights h l -> In r l -> wq h r <= sumQ h l.
Proof.
  induction 1 as [|a l Ha Hl IH]; simpl; [tauto|].
  apply nonneg_weight_wq in Ha. pose proof (sumQ_nonneg h l Hl).
  intros [->|Hin]; [lra|]. specialize (IH Hin). lra.
Qed.

Lemma sumQ_ext h h' l :
  (forall r, weight (h' r) = weight (h r)) -> sumQ h' l = sumQ h l.
Proof.
  intros Hw. induction l as [|a l IH]; simpl; [reflexivity|].
  rewrite IH. unfold wq. now rewrite Hw.
Qed.

Lemma nonneg_weights_ext h h' l :
  (forall r, weight (h' r) = weight (h r)) ->
  nonneg_weights h l -> nonneg_weights h' l.
Proof.
  intros Hw. unfold nonneg_weights. apply Forall_impl.
  intros r. now rewrite Hw.
Qed.

Lemma sumWeights_acc h l : forall a,
  nonneg_weights h l ->
  exists t, fold_left (fun sum item => nadd sum (weight (h item))) l (Fin a)
            = Fin t /\ t == a + sumQ h l.
Proof.
  induction l as [|r l IH]; intros a Hl; simpl.
  - exists a. split; [reflexivity|lra].
  - inversion Hl as [|? ? Hr Hl']; subst.
    apply nonneg_weight_wq in Hr. destruct Hr as (Hr & _). rewrite Hr.
    destruct (IH (a + wq h r) Hl') as (t & Ht & Heq).
    exists t. split; [exact Ht|]. rewrite Heq. lra.
Qed.

Lemma sumWeights_fin h l :
  nonneg_weights h l ->
  exists t, sumWeights h l = Fin t /\ t == sumQ h l.
Proof.
  intros Hl. destruct (sumWeights_acc h l 0 Hl) as (t & Ht & Heq).
  exists t. split; [exact Ht|]. rewrite Heq. lra.
Qed.

(* ================================================================== *)
(** ** The geometry [layoutRow] writes *)

Lemma ratioQ_nonneg sw k w :
  (0 < k)%nat -> 0 <= w <= sw -> 0 <= ratioQ sw k w.
Proof.
  intros Hk Hw. unfold ratioQ.
  assert (0 < inject_Z (Z.of_nat k)) by (apply inject_Z_pos; lia).
  destruct (Qeq_bool sw 0) eqn:E.
  - apply Qle_shift_div_l; lra.
  - apply Qeq_bool_neq in E. apply Qle_shift_div_l; lra.
Qed.

Lemma layoutItem_shape hz bd s c sw k h p n a w :
  0 <= s -> 0 <= c -> (0 < k)%nat ->
  weight (h a) = Fin w -> 0 <= w <= sw ->
  exists g p',
    layoutItem hz bd (Fin s) (Fin c) (Fin sw) k (h, p, n) a =
      (assign h a (mkItem (weight (h a)) (Some g)), p', (n - 1)%Z) /\
    width g = Fin (if hz then s * ratioQ sw k w else c) /\
    height g = Fin (if hz then c else s * ratioQ sw k w).
Proof.
  intros Hs Hc Hk Hw Hrange.
  pose proof (ratioQ_nonneg sw k w Hk Hrange) as Hrho.
  assert (Hk' : ~ inject_Z (Z.of_nat k) == 0).
  { assert (0 < inject_Z (Z.of_nat k)) by (apply inject_Z_pos; lia). lra. }
  assert (Hratio :
    (let ratio0 := ndiv (Fin w) (Fin sw) in
     if isNaN ratio0 then
       if neq (Fin sw) (Fin 0) || isNaN (Fin sw)
       then ndiv (Fin 1) (of_nat k) else Fin 0
     else ratio0) = Fin (ratioQ sw k w)).
  { unfold ratioQ. simpl. destruct (Qeq_bool sw 0) eqn:E.
    - apply Qeq_bool_iff in E.
      rewrite Qcompare_zero by lra. simpl.
      now rewrite Qeq_bool_false.
    - reflexivity. }
  unfold layoutItem. rewrite Hw. cbv zeta in Hratio. rewrite Hratio.
  destruct hz; simpl nmul.
  - eexists _, _. split; [reflexivity|]. split; reflexivity.
  - rewrite !nmax_zero_fin by (try apply Qmult_le_0_compat; assumption).
    eexists _, _. split; [reflexivity|]. split; reflexivity.
Qed.

Lemma layoutItem_fold_shape hz bd s c sw k r :
  0 <= s -> 0 <= c -> (0 < k)%nat ->
  forall h p n h' p' n',
    (forall l, In l r -> exists w, weight (h l) = Fin w /\ 0 <= w <= sw) ->
    fold_left (layoutItem hz bd (Fin s) (Fin c) (Fin sw) k) r (h, p, n)
      = (h', p', n') ->
    forall l, In l r \/ Shaped hz s c sw k (h l) ->
              Shaped hz s c sw k (h' l).
Proof.
  intros Hs Hc Hk.
  induction r as [|a r IH]; intros h p n h' p' n' Hr H l Hl.
  - simpl in H. injection H as <- <- <-. destruct Hl as [[]|Hl]. exact Hl.
  - destruct (Hr a (or_introl eq_refl)) as (w & Hw & Hrange).
    destruct (layoutItem_shape hz bd s c sw k h p n a w Hs Hc Hk Hw Hrange)
      as (g & p1 & Hstep & Hgw & Hgh).
    cbn [fold_left] in H. rewrite Hstep in H.
    refine (IH _ _ _ _ _ _ _ H l _).
    + intros l' Hl'. rewrite assign_weight. apply Hr. now right.
    + destruct (Nat.eq_dec l a) as [->|Hne].
      * right. rewrite assign_same. exists w, g. simpl. auto.
      * destruct Hl as [[Heq|Hin]|Hsh]; [congruence|now left|].
        right. now rewrite assign_other.
Qed.

Lemma ratioQ_spec sw k w :
  (0 < k)%nat ->
  (sw == 0 -> ratioQ sw k w * inject_Z (Z.of_nat k) == 1) /\
  (~ sw == 0 -> ratioQ sw k w * sw == w).
Proof.
  intros Hk. unfold ratioQ.
  assert (0 < inject_Z (Z.of_nat k)) by (apply inject_Z_pos; lia).
  split; intros E.
  - rewrite Qeq_bool_true by exact E. field. lra.
  - rewrite Qeq_bool_false by exact E. field. exact E.
Qed.

Lemma commonItemEdge_fin this L sw k t :
  _totalRemainingWeightSum this = Fin t ->
  0 <= L -> 0 <= sw <= t ->
  (0 < k)%nat -> (Z.of_nat k <= _itemsRemaining this)%Z ->
  exists c,
    commonItemEdge this (Fin L) (Fin sw) k = Fin c /\
    0 <= c <= L /\
    (0 < t -> c * t == L * sw) /\
    (t == 0 -> c * inject_Z (_itemsRemaining this)
               == L * inject_Z (Z.of_nat k)).
Proof.
  intros Ht HL Hsw Hk Hn. unfold commonItemEdge. rewrite Ht.
  assert (Hkq : 0 < inject_Z (Z.of_nat k)) by (apply inject_Z_pos; lia).
  assert (Hnq : inject_Z (Z.of_nat k) <= inject_Z (_itemsRemaining this))
    by now apply inject_Z_le.
  set (n := inject_Z (_itemsRemaining this)) in *.
  set (kq := inject_Z (Z.of_nat k)) in *.
  destruct (Qeq_dec t 0) as [E|E].
  - rewrite ndiv_zero_zero by lra. simpl nmul. simpl isNaN.
    unfold neq. rewrite Qeq_bool_true by exact E.
    simpl nmul. unfold of_nat, of_Z. fold kq. fold n.
    rewrite ndiv_fin by lra.
    exists (L * kq / n). split; [reflexivity|].
    assert (Hc : L * kq / n * n == L * kq) by (field; lra).
    split; [|split; [lra|auto]].
    split.
    + apply Qle_shift_div_l; [lra|]. rewrite Qmult_0_l.
      apply Qmult_le_0_compat; lra.
    + apply Qle_shift_div_r; [lra|]. apply Qmult_le_mono_nonneg; lra.
  - rewrite ndiv_fin by exact E. simpl nmul. simpl isNaN.
    exists (L * (sw / t)). split; [reflexivity|].
    assert (Hc : L * (sw / t) * t == L * sw) by (field; lra).
    split; [|split; [auto|lra]].
    assert (0 <= sw / t) by (apply Qle_shift_div_l; lra).
    assert (sw / t <= 1) by (apply Qle_shift_div_r; lra).
    split.
    + apply Qmult_le_0_compat; lra.
    + rewrite <- (Qmult_1_r L) at 2. apply Qmult_le_mono_nonneg; lra.
Qed.

(** Orientation: the strip is horizontal exactly when the width is the
    shorter edge, and then it is the height that shrinks. *)
Lemma ngt_fin p q : ngt (Fin p) (Fin q) = negb (Qle_bool p q).
Proof.
  unfold ngt. simpl.
  destruct (Qlt_le_dec q p) as [H|H].
  - rewrite (Qle_bool_true q p) by lra.
    rewrite (Qle_bool_false p q) by lra.
    destruct (Qeq_bool p q) eqn:E; [|reflexivity].
    apply Qeq_bool_iff in E. lra.
  - rewrite (Qle_bool_true p q) by lra.
    destruct (Qle_bool q p) eqn:E; [|reflexivity].
    apply Qle_bool_iff in E.
    assert (E2 : Qeq_bool p q = true) by (apply Qeq_bool_iff; lra).
    now rewrite E2.
Qed.

Lemma updateBounds_fin b bw bh c :
  width b = Fin bw -> height b = Fin bh -> 0 <= bw -> 0 <= bh ->
  c <= (if Qle_bool bw bh then bh else bw) ->
  exists bw' bh',
    width (updateBoundsForNextRow b (Fin c)) = Fin bw' /\
    height (updateBoundsForNextRow b (Fin c)) = Fin bh' /\
    0 <= bw' /\ 0 <= bh' /\
    bw' * bh' == bw * bh - (if Qle_bool bw bh then bw else bh) * c.
Proof.
  intros Hw Hh Hbw Hbh Hc. unfold updateBoundsForNextRow.
  rewrite Hw, Hh, ngt_fin.
  destruct (Qle_bool bw bh); simpl negb; cbv iota; unfold nsub; simpl nneg;
    simpl nadd; rewrite nmax_zero_fin by lra; simpl.
  - exists bw, (bh + - c). repeat split; lra.
  - exists (bw + - c), bh. repeat split; lra.
Qed.

(** The area an item of weight [w] gets, from the facts about its row. *)
Lemma row_area_law s L c rho sw w t n k A :
  s * L == A ->
  0 <= w <= sw -> sw <= t -> 0 < k ->
  (sw == 0 -> rho * k == 1) -> (~ sw == 0 -> rho * sw == w) ->
  (0 < t -> c * t == L * sw) -> (t == 0 -> c * n == L * k) ->
  (0 < t -> s * rho * c * t == A * w) /\
  (t == 0 -> s * rho * c * n == A).
Proof.
  intros HA Hw Hsw Hk Hr0 Hr1 Hc1 Hc0. split.
  - intros Ht. specialize (Hc1 Ht).
    assert (E : s * rho * c * t == s * rho * (c * t)) by ring.
    rewrite E, Hc1. clear E.
    destruct (Qeq_dec sw 0) as [Z|NZ].
    + assert (w == 0) as -> by lra. rewrite Z. ring.
    + assert (E : s * rho * (L * sw) == s * L * (rho * sw)) by ring.
      rewrite E, (Hr1 NZ), HA. reflexivity.
  - intros Ht. specialize (Hc0 Ht).
    assert (Z : sw == 0) by lra. specialize (Hr0 Z).
    assert (E : s * rho * c * n == s * rho * (c * n)) by ring.
    rewrite E, Hc0. clear E.
    assert (E : s * rho * (L * k) == s * L * (rho * k)) by ring.
    rewrite E, Hr0, HA. ring.
Qed.

(** Areas: what the rest of the bounds is after the strip is cut off. *)
Lemma rest_area_law s L c sw t n k A :
  s * L == A ->
  (0 < t -> c * t == L * sw) -> (t == 0 -> c * n == L * k) ->
  (0 < t -> (A - s * c) * t == A * (t - sw)) /\
  (t == 0 -> (A - s * c) * n == A * (n - k)).
Proof.
  intros HA Hc1 Hc0. split; intros Ht.
  - specialize (Hc1 Ht).
    assert (E : (A - s * c) * t == A * t - s * (c * t)) by ring.
    rewrite E, Hc1. rewrite <- HA. ring.
  - specialize (Hc0 Ht).
    assert (E : (A - s * c) * n == A * n - s * (c * n)) by ring.
    rewrite E, Hc0. rewrite <- HA. ring.
Qed.

Lemma nmin_fin bw bh :
  nmin (Fin bw) (Fin bh) = Fin (if Qle_bool bw bh then bw else bh).
Proof. simpl. now destruct (Qle_bool bw bh). Qed.

Lemma horizontal_fin bw bh :
  neq (Fin (if Qle_bool bw bh then bw else bh)) (Fin bw) = Qle_bool bw bh.
Proof.
  simpl. destruct (Qle_bool bw bh) eqn:E.
  - apply Qeq_bool_iff. reflexivity.
  - destruct (Qeq_bool bh bw) eqn:E2; [|reflexivity].
    apply Qeq_bool_iff in E2.
    rewrite (Qle_bool_true bw bh) in E by lra. discriminate.
Qed.

Lemma layoutRow_geometry this h r b t bw bh :
  r <> [] -> nonneg_weights h r ->
  _totalRemainingWeightSum this = Fin t -> sumQ h r <= t ->
  (Z.of_nat (length r) <= _itemsRemaining this)%Z ->
  width b = Fin bw -> height b = Fin bh -> 0 <= bw -> 0 <= bh ->
  let n := inject_Z (_itemsRemaining this) in
  let k := inject_Z (Z.of_nat (length r)) in
  exists this' h' b' t' bw' bh',
    layoutRow this h r (nmin (width b) (height b)) b = (this', h', b') /\
    _totalRemainingWeightSum this' = Fin t' /\ t' == t - sumQ h r /\
    width b' = Fin bw' /\ height b' = Fin bh' /\ 0 <= bw' /\ 0 <= bh' /\
    (0 < t -> bw' * bh' * t == bw * bh * (t - sumQ h r)) /\
    (t == 0 -> bw' * bh' * n == bw * bh * (n - k)) /\
    forall l, In l r ->
      exists gw gh, Placed (h' l) gw gh /\
        (0 < t -> gw * gh * t == bw * bh * wq h l) /\
        (t == 0 -> gw * gh * n == bw * bh).
Proof.
  intros Hne Hnn Ht Hsum Hlen Hw Hh Hbw Hbh n k.
  destruct (sumWeights_fin h r Hnn) as (sw & Hsw & Hsweq).
  pose proof (sumQ_nonneg h r Hnn) as Hsw0.
  assert (Hk : (0 < length r)%nat) by (destruct r; [congruence|simpl; lia]).
  assert (Hkq : 0 < k) by (apply inject_Z_pos; lia).
  unfold layoutRow. rewrite Hw, Hh, nmin_fin, horizontal_fin, Hsw.
  set (hz := Qle_bool bw bh).
  set (s := if hz then bw else bh).
  set (L := if hz then bh else bw).
  assert (HL : (if hz then Fin bh else Fin bw) = Fin L)
    by (unfold L; now destruct hz).
  rewrite HL.
  assert (Hs0 : 0 <= s) by (unfold s; now destruct hz).
  assert (HL0 : 0 <= L) by (unfold L; now destruct hz).
  assert (HA : s * L == bw * bh) by (unfold s, L; destruct hz; ring).
  destruct (commonItemEdge_fin this L sw (length r) t Ht HL0
              ltac:(lra) Hk Hlen) as (c & Hc & Hcr & Hc1 & Hc0).
  rewrite Hc.
  destruct (fold_left _ r _) as [[h1 p1] n1] eqn:Ef.
  destruct (updateBounds_fin b bw bh c Hw Hh Hbw Hbh)
    as (bw' & bh' & Hw' & Hh' & Hbw' & Hbh' & HA').
  { fold hz. fold L. lra. }
  fold hz in HA'. fold s in HA'.
  exists (mkEngine (nsub (Fin t) (Fin sw)) n1), h1,
    (updateBoundsForNextRow b (Fin c)), (t + - sw), bw', bh'.
  split; [now rewrite Ht|]. split; [reflexivity|]. split; [lra|].
  split; [exact Hw'|]. split; [exact Hh'|].
  split; [exact Hbw'|]. split; [exact Hbh'|].
  destruct (rest_area_law s L c sw t n k (bw * bh) HA Hc1 Hc0) as (R1 & R0).
  split; [intros Hpos; rewrite HA', <- Hsweq; auto|].
  split; [intros Hz; rewrite HA'; auto|].
  intros l Hl.
  assert (Hrange : forall l', In l' r ->
            exists w, weight (h l') = Fin w /\ 0 <= w <= sw).
  { intros l' Hl'. exists (wq h l').
    pose proof (sumQ_member h r l' Hnn Hl').
    unfold nonneg_weights in Hnn. rewrite Forall_forall in Hnn.
    destruct (nonneg_weight_wq h l' (Hnn l' Hl')). split; [auto|lra]. }
  destruct (layoutItem_fold_shape hz b s c sw (length r) r Hs0
              ltac:(lra) Hk _ _ _ _ _ _ Hrange Ef l (or_introl Hl))
    as (w & g & Hgw & Hgr & Hgg & Hgwd & Hght).
  destruct (layoutItem_fold_frame _ _ _ _ _ _ _ _ _ _ _ _ _ Ef) as (Hwt & _).
  assert (Hwl : w = wq h l) by (unfold wq; now rewrite <- Hwt, Hgw).
  pose proof (ratioQ_nonneg sw (length r) w Hk Hgr) as Hrho.
  destruct (ratioQ_spec sw (length r) w Hk) as (Hr0 & Hr1).
  destruct (row_area_law s L c (ratioQ sw (length r) w) sw w t n k (bw * bh)
              HA Hgr ltac:(lra) Hkq Hr0 Hr1 Hc1 Hc0) as (P1 & P0).
  assert (Hsr : 0 <= s * ratioQ sw (length r) w)
    by (apply Qmult_le_0_compat; assumption).
  subst w.
  destruct hz.
  - exists (s * ratioQ sw (length r) (wq h l)), c.
    split; [exists g; repeat split; auto; lra|]. split; auto.
  - exists c, (s * ratioQ sw (length r) (wq h l)).
    split; [exists g; repeat split; auto; lra|].
    split; intros Hx.
    + rewrite <- (P1 Hx). ring.
    + rewrite <- (P0 Hx). ring.
Qed.

Lemma rescale A U A0 d X Y :
  A * U == A0 * d -> 0 < d -> X * d == A * Y -> X * U == A0 * Y.
Proof.
  intros HA Hd HX.
  apply (Qmult_inj_r _ _ d); [lra|].
  assert (E1 : X * U * d == X * d * U) by ring.
  assert (E2 : A0 * Y * d == A0 * d * Y) by ring.
  rewrite E1, E2, HX, <- HA. ring.
Qed.

(* ================================================================== *)
(** ** The area invariant (finite non-negative weights and bounds) *)

Section AreaInvariant.

Variables (h0 : heap) (items : list ref) (bounds : SquarifyLayoutRect).
Variables (BW BH : Q).
Hypothesis weights_nonneg : nonneg_weights h0 items.
Hypothesis bounds_width : width bounds = Fin BW.
Hypothesis bounds_height : height bounds = Fin BH.
Hypothesis width_nonneg : 0 <= BW.
Hypothesis height_nonneg : 0 <= BH.

Lemma in_run_nonneg s l :
  Struct h0 items s -> (forall r, In r l -> In r (rowL s ++ sortedL s)) ->
  nonneg_weights h0 l.
Proof.
  intros (_ & _ & Hperm & _) Hin.
  unfold nonneg_weights in *. rewrite Forall_forall in *.
  intros r Hr. apply weights_nonneg. rewrite <- Hperm.
  apply in_or_app. right. auto.
Qed.

Lemma zero_mode_weights l :
  zero_mode h0 items = true -> (forall r, In r l -> In r items) ->
  sumQ h0 l == 0.
Proof.
  unfold zero_mode. intros Hz Hin. apply Qeq_bool_iff in Hz.
  induction l as [|a l IH]; simpl; [reflexivity|].
  rewrite IH by (intros r Hr; apply Hin; now right).
  pose proof (Hin a (or_introl eq_refl)) as Ha.
  pose proof (sumQ_member h0 items a weights_nonneg Ha).
  unfold nonneg_weights in weights_nonneg.
  rewrite Forall_forall in weights_nonneg.
  destruct (nonneg_weight_wq h0 a (weights_nonneg a Ha)).
  lra.
Qed.

Lemma init_Numeric : Numeric h0 items BW BH (init h0 items bounds).
Proof.
  pose proof (array_sort_perm (compareFn h0) items) as Hp.
  assert (Hnn : nonneg_weights h0 (array_sort (compareFn h0) items)).
  { unfold nonneg_weights in *. rewrite Forall_forall in *.
    intros r Hr. apply weights_nonneg.
    eapply Permutation_in; eauto. }
  destruct (sumWeights_fin h0 _ Hnn) as (t & Ht & Hteq).
  exists t, BW, BH.
  split; [exact Ht|]. split; [exact Hteq|].
  split; [exact bounds_width|]. split; [exact bounds_height|].
  split; [exact width_nonneg|]. split; [exact height_nonneg|].
  split; [reflexivity|].
  split; [|intros l []].
  unfold total_units, remaining_units.
  change (rowL (init h0 items bounds) ++ sortedL (init h0 items bounds))
    with (array_sort (compareFn h0) items).
  change (_itemsRemaining (this (init h0 items bounds)))
    with (Z.of_nat (length (array_sort (compareFn h0) items))).
  destruct (zero_mode h0 items).
  - now rewrite (Permutation_length Hp).
  - now rewrite (sumQ_perm h0 _ _ Hp).
Qed.

Lemma total_units_pos : items <> [] -> 0 < total_units h0 items.
Proof.
  intros Hne. unfold total_units, zero_mode.
  destruct (Qeq_bool (sumQ h0 items) 0) eqn:E.
  - apply inject_Z_pos. destruct items; [congruence|simpl; lia].
  - apply Qeq_bool_neq in E. pose proof (sumQ_nonneg h0 items weights_nonneg).
    lra.
Qed.

Lemma drawn_Numeric s r rem s' :
  Struct h0 items s -> Numeric h0 items BW BH s -> r <> [] ->
  rowL s ++ sortedL s = r ++ rem -> drawn s r rem s' ->
  Numeric h0 items BW BH s'.
Proof.
  intros HS (t & bw & bh & Ht & Hteq & Hw & Hh & Hbw & Hbh & Hsh & HA & Hpl)
         Hne Hsplit (Hl & Hsh' & _ & Hcm & Hrow & Hso).
  pose proof HS as (_ & _ & Hperm & _ & _ & _ & Hw0 & _ & Hn & _).
  assert (Hin : forall l, In l (r ++ rem) -> In l items).
  { intros l Hl'. rewrite <- Hperm, <- Hsplit in *.
    apply in_or_app. now right. }
  assert (Hnr : nonneg_weights h0 r).
  { apply (in_run_nonneg s); [exact HS|]. intros l Hl'.
    rewrite Hsplit. apply in_or_app. now left. }
  assert (Hnrem : nonneg_weights h0 rem).
  { apply (in_run_nonneg s); [exact HS|]. intros l Hl'.
    rewrite Hsplit. apply in_or_app. now right. }
  pose proof (sumQ_nonneg h0 r Hnr) as Hr0.
  pose proof (sumQ_nonneg h0 rem Hnrem) as Hrem0.
  rewrite Hsplit, sumQ_app in Hteq.
  assert (Hk : (0 < length r)%nat) by (destruct r; [congruence|simpl; lia]).
  assert (Hlen : _itemsRemaining (this s) =
                 (Z.of_nat (length r) + Z.of_nat (length rem))%Z).
  { rewrite Hn, <- length_app, Hsplit, length_app. lia. }
  destruct (layoutRow_geometry (this s) (objs s) r (rootbounds s) t bw bh)
    as (this' & h' & b' & t' & bw' & bh' & Hlay & Ht' & Ht'eq & Hw' & Hh' &
        Hbw' & Hbh' & HA1 & HA0 & Hitems); auto.
  { now apply (nonneg_weights_ext h0). }
  { rewrite (sumQ_ext h0) by exact Hw0. lra. }
  { lia. }
  rewrite (sumQ_ext h0) in * by exact Hw0.
  rewrite Hsh, Hlay in Hl. injection Hl as Ethis Eobjs Eb.
  destruct (layoutRow_frame _ _ _ _ _ _ _ _ Hlay) as (_ & Hframe & Hn').
  set (n := inject_Z (_itemsRemaining (this s))) in *.
  set (k := inject_Z (Z.of_nat (length r))) in *.
  assert (Hkq : 0 < k) by (apply inject_Z_pos; lia).
  assert (Hnk : k <= n).
  { apply inject_Z_le. lia. }
  assert (Hn'q : inject_Z (_itemsRemaining this') == n - k).
  { rewrite Hn'. unfold Zminus. rewrite inject_Z_plus, inject_Z_opp.
    unfold n, k. ring. }
  assert (Hwq : forall l, wq (objs s) l = wq h0 l)
    by (intros l; unfold wq; now rewrite Hw0).
  (* the laws of this row, per unit *)
  assert (Hlaw :
    bw' * bh' * total_units h0 items == BW * BH * remaining_units h0 items s' /\
    forall l, In l r ->
      exists gw gh, Placed (h' l) gw gh /\
                    gw * gh * total_units h0 items
                      == BW * BH * units h0 items l).
  { unfold remaining_units, units in *. rewrite Hrow, Hso, Ethis. simpl app.
    unfold total_units in *.
    destruct (zero_mode h0 items) eqn:Z.
    - assert (Hz : t == 0).
      { rewrite Hteq, <- sumQ_app. apply zero_mode_weights; auto. }
      fold n in HA. split.
      + rewrite Hn'q. apply (rescale (bw * bh) _ _ n); auto; lra.
      + intros l Hl'. destruct (Hitems l Hl') as (gw & gh & Hp & _ & H0).
        exists gw, gh. split; [exact Hp|].
        apply (rescale (bw * bh) _ _ n); auto; [lra|].
        rewrite (H0 Hz). ring.
    - rewrite Hsplit, sumQ_app, <- Hteq in HA.
      destruct (Qlt_le_dec 0 t) as [Hpos|Hle].
      + split.
        * apply (rescale (bw * bh) _ _ t); auto.
          rewrite (HA1 Hpos). rewrite Hteq. ring.
        * intros l Hl'. destruct (Hitems l Hl') as (gw & gh & Hp & H1 & _).
          exists gw, gh. split; [exact Hp|].
          apply (rescale (bw * bh) _ _ t); auto.
          rewrite <- Hwq. auto.
      + assert (Hz : t == 0) by lra.
        assert (Hu : 0 < sumQ h0 items).
        { unfold zero_mode in Z. apply Qeq_bool_neq in Z.
          pose proof (sumQ_nonneg h0 items weights_nonneg). lra. }
        assert (HAz : bw * bh == 0).
        { rewrite Hz, Qmult_0_r in HA.
          apply Qmult_integral in HA. destruct HA; [auto|lra]. }
        specialize (HA0 Hz). rewrite HAz, Qmult_0_l in HA0.
        assert (HA'z : bw' * bh' == 0).
        { apply Qmult_integral in HA0. destruct HA0; [auto|lra]. }
        split.
        * rewrite HA'z. assert (sumQ h0 rem == 0) as -> by lra. ring.
        * intros l Hl'. destruct (Hitems l Hl') as (gw & gh & Hp & _ & H0).
          exists gw, gh. split; [exact Hp|].
          specialize (H0 Hz). rewrite HAz in H0.
          apply Qmult_integral in H0.
          assert (Hg : gw * gh == 0) by (destruct H0; [auto|lra]).
          pose proof (sumQ_member h0 r l Hnr Hl').
          unfold nonneg_weights in Hnr. rewrite Forall_forall in Hnr.
          destruct (nonneg_weight_wq h0 l (Hnr l Hl')).
          rewrite Hg. assert (wq h0 l == 0) as -> by lra. ring. }
  destruct Hlaw as (Hrest & Hrow').
  exists t', bw', bh'.
  rewrite Ethis, Eb, Eobjs, Hrow, Hso, Hcm. simpl app.
  split; [exact Ht'|]. split; [lra|].
  split; [exact Hw'|]. split; [exact Hh'|].
  split; [exact Hbw'|]. split; [exact Hbh'|].
  split; [rewrite Hsh', Eb; reflexivity|].
  split; [exact Hrest|].
  intros l Hl'. rewrite concat_app in Hl'. simpl in Hl'.
  rewrite app_nil_r in Hl'.
  destruct (in_dec Nat.eq_dec l r) as [Hlr|Hlr]; [now apply Hrow'|].
  apply in_app_or in Hl'. destruct Hl' as [Hold|Hnew]; [|contradiction].
  rewrite Hframe by exact Hlr. now apply Hpl.
Qed.

Lemma step_Numeric s s' :
  Struct h0 items s -> Numeric h0 items BW BH s -> step s s' ->
  Numeric h0 items BW BH s'.
Proof.
  intros HS HN (a & rest & Hsorted & Hbody).
  pose proof HS as (Hwf & _ & _ & HJ & _).
  destruct (step_cases s a rest Hwf Hsorted)
    as (ar & s1 & _ & Hbody1 & _ & _ & Hc).
  rewrite Hbody in Hbody1. injection Hbody1 as <-.
  fold (sortedL s) in Hsorted.
  destruct (accepts (lastAspectRatio s) ar) eqn:Ea.
  - destruct rest as [|c rest].
    + apply (drawn_Numeric s (rowL s ++ [a]) [] s'); auto.
      * destruct (rowL s); discriminate.
      * now rewrite Hsorted, app_nil_r.
    + destruct HN as (t & bw & bh & Ht & Hteq & Hw & Hh & Hbw & Hbh & Hsh &
                      HA & Hpl).
      destruct Hc as (Ho & Hth & Hb & Hsh' & Hcm & _ & Hrow & Hso).
      exists t, bw, bh. unfold remaining_units in *.
      rewrite Ho, Hth, Hb, Hsh', Hcm, Hrow, Hso, <- app_assoc.
      rewrite Hsorted in *. simpl app. repeat split; auto.
  - apply (drawn_Numeric s (rowL s) (a :: rest) s'); auto.
    + intros He. rewrite (HJ He), accepts_PInf in Ea. discriminate.
    + now rewrite Hsorted.
Qed.

Lemma reach_Numeric s :
  reach (init h0 items bounds) s ->
  Struct h0 items s /\ Numeric h0 items BW BH s.
Proof.
  apply (reach_invariant
           (fun s => Struct h0 items s /\ Numeric h0 items BW BH s)).
  - intros s1 s2 (HS & HN) Hstep. split.
    + eapply step_Struct; eauto.
    + eapply step_Numeric; eauto.
  - split; [apply init_Struct | apply init_Numeric].
Qed.

(** After the call every item carries a finite, non-negative rectangle
    whose area is its share of the bounds. *)
Lemma squarify_area_law :
  exists s, squarify h0 items bounds = Ok s /\
    forall l, In l items ->
      exists gw gh, Placed (objs s l) gw gh /\
                    gw * gh * total_units h0 items
                      == BW * BH * units h0 items l.
Proof.
  destruct (squarify_returns h0 items bounds) as (s & Hs & Hreach & Hend).
  exists s. split; [exact Hs|].
  destruct (reach_Numeric s Hreach) as (HS & HN).
  destruct HS as (_ & _ & Hperm & _ & HK & _).
  destruct HN as (t & bw & bh & _ & _ & _ & _ & _ & _ & _ & _ & Hpl).
  intros l Hl. apply Hpl.
  rewrite (HK Hend), Hend, app_nil_r in Hperm.
  eapply Permutation_in; [symmetry; exact Hperm | exact Hl].
Qed.

End AreaInvariant.

(* ================================================================== *)
(** ** Termination, errors and frame properties *)

Lemma concat_length_nonempty (ll : list (list ref)) :
  Forall (fun r => r <> []) ll -> (length ll <= length (concat ll))%nat.
Proof.
  induction 1 as [|r ll Hr _ IH]; simpl; [lia|].
  rewrite length_app. destruct r; [congruence|simpl; lia].
Qed.

Lemma loop_body_no_throw nextItem s msg : loop_body nextItem s <> Throw msg.
Proof.
  unfold loop_body, array_push, set_arrays. cbn [arrays row this objs
    lengthOfShorterEdge rootbounds]. rewrite aset_same.
  destruct (calculateWorstAspectRatioInRow_nonempty (this s) (objs s)
              (arrays s (row s)) nextItem (lengthOfShorterEdge s)
              (rootbounds s)) as (v & ->).
  unfold array_pop. destruct (nge _ v || isNaN v); discriminate.
Qed.

Lemma squarify_final h items bounds :
  exists s, squarify h items bounds = Ok s /\
            Struct h items s /\ sortedL s = [] /\ rowL s = [] /\
            Permutation (concat (committed s)) items.
Proof.
  destruct (squarify_returns h items bounds) as (s & Hs & Hreach & Hend).
  exists s. pose proof (reach_Struct h items bounds s Hreach) as HS.
  pose proof HS as (_ & _ & Hperm & _ & HK & _).
  rewrite (HK Hend), Hend, app_nil_r in Hperm.
  repeat split; auto; apply HS.
Qed.

(** C6. For every finite list of items [squarify] terminates: a freshly
    started row always accepts its first item (the comparison with
    [+Infinity] succeeds for every aspect ratio), the loop needs at most
    two iterations per item, and the run makes at most [n] row commits
    and exactly [n] item placements for [n] items.  Placements are
    counted by the program's own counter: [_itemsRemaining] starts at [n],
    every [layoutRow] takes one off per item of its row, at every loop
    head it is [n] minus the number of items in the rows laid out so far,
    and it is 0 at return, when every item carries a rectangle. *)
Theorem squarify_terminates h items bounds :
  (forall aspectRatio, accepts PInf aspectRatio = true) /\
  (forall s, reach (init h items bounds) s ->
             rowL s = [] -> lastAspectRatio s = PInf) /\
  (forall this h' r sh b,
     _itemsRemaining (fst (fst (layoutRow this h' r sh b))) =
     (_itemsRemaining this - Z.of_nat (length r))%Z) /\
  _itemsRemaining (this (init h items bounds)) = Z.of_nat (length items) /\
  (forall s, reach (init h items bounds) s ->
     _itemsRemaining (this s) =
       (Z.of_nat (length items)
        - Z.of_nat (length (concat (committed s))))%Z /\
     forall l, In l (concat (committed s)) -> geom (objs s l) <> None) /\
  exists s,
    squarify h items bounds = Ok s /\
    (forall fuel, (2 * length items <= fuel)%nat ->
                  loop fuel (init h items bounds) = Ok s) /\
    (length (committed s) <= length items)%nat /\
    length (concat (committed s)) = length items /\
    _itemsRemaining (this s) = 0%Z /\
    (forall l, In l items -> geom (objs s l) <> None).
Proof.
  split; [apply accepts_PInf|]. split.
  { intros s Hr.
    now destruct (reach_Struct h items bounds s Hr) as (_ & _ & _ & H & _). }
  split.
  { intros this0 h' r sh b.
    destruct (layoutRow this0 h' r sh b) as [[this' h''] b'] eqn:E.
    now destruct (layoutRow_frame _ _ _ _ _ _ _ _ E) as (_ & _ & Hn). }
  split.
  { simpl. f_equal.
    apply (Permutation_length (array_sort_perm (compareFn h) items)). }
  split.
  { intros s Hr.
    destruct (reach_Struct h items bounds s Hr)
      as (_ & _ & Hperm & _ & _ & _ & _ & _ & Hn & Hwr).
    split; [|exact Hwr].
    apply Permutation_length in Hperm. rewrite !length_app in Hperm.
    rewrite Hn. lia. }
  destruct (squarify_final h items bounds) as (s & Hs & HS & Hso & Hro & Hp).
  exists s. split; [exact Hs|].
  destruct HS as (_ & _ & _ & _ & _ & Hne & _ & _ & Hn & Hwr).
  pose proof (Permutation_length Hp) as Hlen.
  split; [|split; [|split; [exact Hlen|split]]].
  - intros fuel Hfuel. apply (loop_fuel_mono _ _ _ _ Hs).
    change (arrays (init h items bounds) (sorted (init h items bounds)))
      with (array_sort (compareFn h) items).
    rewrite (Permutation_length (array_sort_perm (compareFn h) items)).
    exact Hfuel.
  - rewrite <- Hlen. now apply concat_length_nonempty.
  - rewrite Hn, Hso, Hro. reflexivity.
  - intros l Hl. apply Hwr.
    now apply (Permutation_in _ (Permutation_sym Hp)).
Qed.

(** C7. [calculateWorstAspectRatioInRow] throws exactly when the row is
    empty, and then with the internal error message; inside [squarify] the
    call always sees the row an item was just pushed to, so no iteration
    throws and [squarify] returns normally for every input. *)
Theorem empty_row_error_unreachable :
  (forall this h row sh b,
     (exists msg, calculateWorstAspectRatioInRow this h row sh b = Throw msg)
     <-> row = []) /\
  (forall this h sh b,
     calculateWorstAspectRatioInRow this h [] sh b = Throw row_error) /\
  (forall nextItem s msg, loop_body nextItem s <> Throw msg) /\
  (forall h items bounds, exists s, squarify h items bounds = Ok s).
Proof.
  split; [|split; [reflexivity|split]].
  - intros this h row sh b. split.
    + intros (msg & H). destruct row as [|a row]; [reflexivity|].
      exfalso. revert H.
      destruct (@exists_last _ (a :: row)) as (r & z & ->); [discriminate|].
      destruct (calculateWorstAspectRatioInRow_nonempty this h r z sh b)
        as (v & ->). discriminate.
    + intros ->. exists row_error. reflexivity.
  - apply loop_body_no_throw.
  - intros h items bounds.
    destruct (squarify_returns h items bounds) as (s & Hs & _). eauto.
Qed.

(** C8. The caller's [items] array is never written: at every loop head
    and after the call it holds the same references at the same indices;
    the array that is sorted is a different one, the copy. *)
Theorem caller_array_preserved h items bounds :
  sorted (init h items bounds) <> ItemsArr /\
  (forall s, reach (init h items bounds) s -> arrays s ItemsArr = items) /\
  exists s, squarify h items bounds = Ok s /\ arrays s ItemsArr = items.
Proof.
  split; [simpl; discriminate|]. split.
  - intros s Hr. now destruct (reach_Struct h items bounds s Hr) as (_ & H & _).
  - destruct (squarify_final h items bounds) as (s & Hs & HS & _).
    exists s. split; [exact Hs|]. now destruct HS as (_ & H & _).
Qed.

(** C10. [squarify] never modifies a weight: every object has after the
    call the weight it had before, and objects that are not items are not
    touched at all. *)
Theorem weights_unchanged h items bounds :
  exists s, squarify h items bounds = Ok s /\
    (forall l, weight (objs s l) = weight (h l)) /\
    (forall l, ~ In l items -> objs s l = h l).
Proof.
  destruct (squarify_final h items bounds) as (s & Hs & HS & _).
  exists s. split; [exact Hs|].
  destruct HS as (_ & _ & _ & _ & _ & _ & Hw & Hfr & _). auto.
Qed.

(* ================================================================== *)
(** ** The remaining-weight and remaining-count fields *)

Lemma init_Tracks h items bounds :
  nonneg_weights h items -> Tracks h (init h items bounds).
Proof.
  intros Hnn.
  pose proof (array_sort_perm (compareFn h) items) as Hp.
  assert (Hnn' : nonneg_weights h (array_sort (compareFn h) items)).
  { unfold nonneg_weights in *. rewrite Forall_forall in *.
    intros r Hr. apply Hnn. eapply Permutation_in; eauto. }
  destruct (sumWeights_fin h _ Hnn') as (t & Ht & Hteq).
  exists t. split; [exact Ht | exact Hteq].
Qed.

Lemma step_Tracks h0 items s s' :
  nonneg_weights h0 items ->
  Struct h0 items s -> Tracks h0 s -> step s s' -> Tracks h0 s'.
Proof.
  intros Hnn HS (t & Ht & Hteq) (a & rest & Hsorted & Hbody).
  pose proof HS as (Hwf & _ & Hperm & _ & _ & _ & Hw0 & _).
  destruct (step_cases s a rest Hwf Hsorted)
    as (ar & s1 & _ & Hbody1 & _ & _ & Hc).
  rewrite Hbody in Hbody1. injection Hbody1 as <-.
  fold (sortedL s) in Hsorted. unfold unplaced in *.
  rewrite Hsorted in *.
  assert (Hdrawn : forall r rem,
    rowL s ++ a :: rest = r ++ rem -> drawn s r rem s' -> Tracks h0 s').
  { intros r rem Hsplit (Hl & _ & _ & _ & Hrow & Hso).
    symmetry in Hl. apply layoutRow_total in Hl.
    assert (Hnr : nonneg_weights h0 r).
    { unfold nonneg_weights in *. rewrite Forall_forall in *.
      intros l Hin. apply Hnn. rewrite <- Hperm.
      apply in_or_app. right. rewrite Hsplit. apply in_or_app. now left. }
    destruct (sumWeights_fin h0 r Hnr) as (sw & Hsw & Hsweq).
    rewrite (sumWeights_ext h0) in Hl by exact Hw0.
    rewrite Ht, Hsw in Hl. exists (t + - sw). split; [exact Hl|].
    unfold unplaced. rewrite Hrow, Hso. simpl app.
    rewrite Hsplit, sumQ_app in Hteq. lra. }
  destruct (accepts (lastAspectRatio s) ar).
  - destruct rest as [|c rest].
    + apply (Hdrawn (rowL s ++ [a]) []); [now rewrite app_nil_r | exact Hc].
    + destruct Hc as (_ & Hth & _ & _ & _ & _ & Hrow & Hso).
      exists t. unfold unplaced. rewrite Hth, Hrow, Hso, <- app_assoc. auto.
  - apply (Hdrawn (rowL s) (a :: rest)); [reflexivity | exact Hc].
Qed.

Lemma reach_Tracks h items bounds s :
  nonneg_weights h items ->
  reach (init h items bounds) s -> Struct h items s /\ Tracks h s.
Proof.
  intros Hnn.
  apply (reach_invariant (fun s => Struct h items s /\ Tracks h s)).
  - intros s1 s2 (HS & HT) Hstep. split.
    + eapply step_Struct; eauto.
    + eapply step_Tracks; eauto.
  - split; [apply init_Struct | now apply init_Tracks].
Qed.

(** C5. With non-negative weights, at every loop head
    [_totalRemainingWeightSum] is the sum of the weights of the items not
    yet placed (the sum [sumQ] of the weights the items had at the call,
    taken without the program's [sumWeights]) and [_itemsRemaining] is
    their number; the placed and the unplaced items together are the input
    items, each once.  When the call returns, [_itemsRemaining] is 0,
    [_totalRemainingWeightSum] is 0, and the rows handed to [layoutRow]
    contain every input item exactly once, each with its geometry
    written. *)
Theorem remaining_counters_track h items bounds :
  nonneg_weights h items ->
  (forall s, reach (init h items bounds) s ->
     (exists t, _totalRemainingWeightSum (this s) = Fin t /\
                t == sumQ h (unplaced s)) /\
     _itemsRemaining (this s) = Z.of_nat (length (unplaced s)) /\
     Permutation (concat (committed s) ++ unplaced s) items /\
     (forall l, In l (concat (committed s)) -> geom (objs s l) <> None)) /\
  exists s,
    squarify h items bounds = Ok s /\
    unplaced s = [] /\
    _itemsRemaining (this s) = 0%Z /\
    (exists t, _totalRemainingWeightSum (this s) = Fin t /\ t == 0) /\
    Permutation (concat (committed s)) items /\
    (NoDup items -> NoDup (concat (committed s))) /\
    (forall l, In l items -> geom (objs s l) <> None).
Proof.
  intros Hnn. split.
  - intros s Hr. destruct (reach_Tracks h items bounds s Hnn Hr) as (HS & HT).
    split; [exact HT|].
    destruct HS as (_ & _ & Hperm & _ & _ & _ & _ & _ & Hn & Hwr).
    unfold unplaced. rewrite length_app. auto.
  - destruct (squarify_returns h items bounds) as (s & Hs & Hreach & Hend).
    destruct (reach_Tracks h items bounds s Hnn Hreach) as (HS & HT).
    destruct HS as (_ & _ & Hperm & _ & HK & _ & _ & _ & Hn & Hwr).
    assert (Hu : unplaced s = [])
      by (unfold unplaced; now rewrite (HK Hend), Hend).
    destruct HT as (t & Ht & Hteq). rewrite Hu in Hteq. simpl in Hteq.
    fold (unplaced s) in Hperm. rewrite Hu, app_nil_r in Hperm.
    exists s. split; [exact Hs|]. split; [exact Hu|].
    split; [rewrite Hn, (HK Hend), Hend; reflexivity|].
    split; [exists t; auto|]. split; [exact Hperm|].
    split; [apply Permutation_NoDup; now symmetry|].
    intros l Hl. apply Hwr.
    eapply Permutation_in; [symmetry; exact Hperm | exact Hl].
Qed.

(* ================================================================== *)
(** ** Areas *)

Lemma Placed_area o gw gh :
  Placed o gw gh -> item_area o = Fin (gw * gh) /\ 0 <= gw * gh.
Proof.
  intros (g & Hg & Hw & Hh & Hgw & Hgh). unfold item_area.
  rewrite Hg, Hw, Hh. split; [reflexivity|].
  now apply Qmult_le_0_compat.
Qed.

(** The area law of [squarify_area_law], from checks on the inputs. *)
Lemma squarify_areas h items bounds :
  nonneg_weights h items ->
  fin_nonneg (width bounds) = true -> fin_nonneg (height bounds) = true ->
  exists BW BH s,
    width bounds = Fin BW /\ height bounds = Fin BH /\
    0 <= BW /\ 0 <= BH /\
    squarify h items bounds = Ok s /\
    forall l, In l items ->
      exists gw gh, Placed (objs s l) gw gh /\
        gw * gh * total_units h items == BW * BH * units h items l.
Proof.
  intros Hnn Hw Hh.
  apply fin_nonneg_inv in Hw, Hh.
  destruct Hw as (BW & Hw & Hbw), Hh as (BH & Hh & Hbh).
  destruct (squarify_area_law h items bounds BW BH Hnn Hw Hh Hbw Hbh)
    as (s & Hs & Hlaw).
  exists BW, BH, s. auto 10.
Qed.

Lemma positive_total h items :
  nonneg_weights h items -> fin_pos (sumWeights h items) = true ->
  0 < sumQ h items /\ zero_mode h items = false.
Proof.
  intros Hnn Hpos. apply fin_pos_inv in Hpos.
  destruct Hpos as (t & Ht & Htpos).
  destruct (sumWeights_fin h items Hnn) as (t' & Ht' & Heq).
  rewrite Ht in Ht'. injection Ht' as <-.
  split; [lra|]. unfold zero_mode. apply Qeq_bool_false. lra.
Qed.

Lemma sum_areas_fin h h0 l A U :
  (forall r, In r l ->
     exists gw gh, Placed (h r) gw gh /\ gw * gh * U == A * wq h0 r) ->
  exists a, sum_areas h l = Fin a /\ a * U == A * sumQ h0 l.
Proof.
  induction l as [|r l IH]; intros H; simpl.
  - exists 0. split; [reflexivity|ring].
  - destruct IH as (a & Ha & Hau); [intros r' Hr'; apply H; now right|].
    destruct (H r (or_introl eq_refl)) as (gw & gh & Hp & Hg).
    apply Placed_area in Hp. destruct Hp as (Hp & _).
    rewrite Ha, Hp. exists (gw * gh + a). split; [reflexivity|].
    assert (E : (gw * gh + a) * U == gw * gh * U + a * U) by ring.
    rewrite E, Hg, Hau. ring.
Qed.

(** C1. Area conservation: with finite non-negative weights and bounds
    and a positive total weight, the areas [width * height] assigned to
    the items sum to [bounds.width * bounds.height], exactly. *)
Theorem area_conservation h items bounds :
  nonneg_weights h items ->
  fin_nonneg (width bounds) = true -> fin_nonneg (height bounds) = true ->
  fin_pos (sumWeights h items) = true ->
  exists s,
    squarify h items bounds = Ok s /\
    neq (sum_areas (objs s) items) (nmul (width bounds) (height bounds))
      = true.
Proof.
  intros Hnn Hw Hh Hpos.
  destruct (squarify_areas h items bounds Hnn Hw Hh)
    as (BW & BH & s & Ew & Eh & _ & _ & Hs & Hlaw).
  destruct (positive_total h items Hnn Hpos) as (HT & Hmode).
  unfold units, total_units in Hlaw. rewrite Hmode in Hlaw.
  destruct (sum_areas_fin (objs s) h items (BW * BH) (sumQ h items) Hlaw)
    as (a & Ha & Hau).
  exists s. split; [exact Hs|].
  rewrite Ha, Ew, Eh. simpl. apply Qeq_bool_iff.
  apply (Qmult_inj_r _ _ (sumQ h items)); [lra | exact Hau].
Qed.

(** X18. In exact arithmetic, with finite non-negative weights and
    bounds, every rectangle assigned to an item has a finite width >= 0
    and height >= 0: the branch of lines 213-216, which does not clamp,
    is then never given a negative edge.  (On binary64 it is: see the
    run of the weights 1e17, 0.001, 1000 below.) *)
Theorem rectangles_nonneg h items bounds :
  nonneg_weights h items ->
  fin_nonneg (width bounds) = true -> fin_nonneg (height bounds) = true ->
  exists s,
    squarify h items bounds = Ok s /\
    forall l, In l items ->
      exists g, geom (objs s l) = Some g /\
                fin_nonneg (width g) = true /\
                fin_nonneg (height g) = true.
Proof.
  intros Hnn Hw Hh.
  destruct (squarify_areas h items bounds Hnn Hw Hh)
    as (BW & BH & s & _ & _ & _ & _ & Hs & Hlaw).
  exists s. split; [exact Hs|]. intros l Hl.
  destruct (Hlaw l Hl) as (gw & gh & (g & Hg & Egw & Egh & Hgw & Hgh) & _).
  exists g. rewrite Egw, Egh. simpl.
  repeat split; auto using Qle_bool_true.
Qed.

Lemma zero_weights_mode h items :
  zero_weights h items ->
  nonneg_weights h items /\ zero_mode h items = true.
Proof.
  intros Hz.
  assert (Hq : forall r, In r items ->
                 fin_nonneg (weight (h r)) = true /\ wq h r == 0).
  { unfold zero_weights in Hz. rewrite Forall_forall in Hz.
    intros r Hr. specialize (Hz r Hr). unfold wq.
    destruct (weight (h r)) as [q| | |]; try discriminate.
    simpl in *. apply Qeq_bool_iff in Hz. split; [|exact Hz].
    apply Qle_bool_true. lra. }
  split.
  - unfold nonneg_weights. rewrite Forall_forall. intros r Hr.
    now apply Hq.
  - unfold zero_mode. apply Qeq_bool_true.
    clear Hz. induction items as [|a l IH]; simpl; [reflexivity|].
    rewrite IH by (intros r Hr; apply Hq; now right).
    destruct (Hq a (or_introl eq_refl)) as (_ & ->). ring.
Qed.

(** C4. Zero-weight fallback: when the list of items is not empty, every
    weight is 0 and the bounds are finite and non-negative, every item is
    assigned the area [bounds.width * bounds.height / items.length]. *)
Theorem zero_weight_equal_areas h items bounds :
  items <> [] -> zero_weights h items ->
  fin_nonneg (width bounds) = true -> fin_nonneg (height bounds) = true ->
  exists s,
    squarify h items bounds = Ok s /\
    forall l, In l items ->
      neq (item_area (objs s l))
          (ndiv (nmul (width bounds) (height bounds))
                (of_nat (length items))) = true.
Proof.
  intros Hne Hz Hw Hh.
  destruct (zero_weights_mode h items Hz) as (Hnn & Hmode).
  destruct (squarify_areas h items bounds Hnn Hw Hh)
    as (BW & BH & s & Ew & Eh & _ & _ & Hs & Hlaw).
  unfold units, total_units in Hlaw. rewrite Hmode in Hlaw.
  exists s. split; [exact Hs|]. intros l Hl.
  destruct (Hlaw l Hl) as (gw & gh & Hp & Hg).
  apply Placed_area in Hp. destruct Hp as (-> & _).
  assert (Hn : 0 < inject_Z (Z.of_nat (length items))).
  { apply inject_Z_pos. destruct items; [congruence|simpl; lia]. }
  rewrite Ew, Eh. unfold of_nat, of_Z. simpl nmul.
  rewrite ndiv_fin by lra. simpl. apply Qeq_bool_iff.
  apply (Qmult_inj_r _ _ (inject_Z (Z.of_nat (length items)))); [lra|].
  rewrite Hg. field. lra.
Qed.

Lemma fin_pos_weight h l :
  fin_pos (weight (h l)) = true -> weight (h l) = Fin (wq h l) /\ 0 < wq h l.
Proof.
  intros H. apply fin_pos_inv in H. destruct H as (q & Hq & Hpos).
  unfold wq. rewrite Hq. auto.
Qed.

(** C2 (amended). Proportionality: with finite non-negative weights and
    bounds and a positive total weight, the areas of two items of positive
    weights [w1], [w2] satisfy [area1 * w2 = area2 * w1]; when both bounds
    dimensions are positive, the ratio [area1 / area2] is [w1 / w2]. *)
Theorem areas_proportional h items bounds :
  nonneg_weights h items ->
  fin_nonneg (width bounds) = true -> fin_nonneg (height bounds) = true ->
  fin_pos (sumWeights h items) = true ->
  exists s,
    squarify h items bounds = Ok s /\
    forall l1 l2, In l1 items -> In l2 items ->
      fin_pos (weight (h l1)) = true -> fin_pos (weight (h l2)) = true ->
      neq (nmul (item_area (objs s l1)) (weight (h l2)))
          (nmul (item_area (objs s l2)) (weight (h l1))) = true /\
      (fin_pos (width bounds) = true -> fin_pos (height bounds) = true ->
       neq (ndiv (item_area (objs s l1)) (item_area (objs s l2)))
           (ndiv (weight (h l1)) (weight (h l2))) = true).
Proof.
  intros Hnn Hw Hh Hpos.
  destruct (squarify_areas h items bounds Hnn Hw Hh)
    as (BW & BH & s & Ew & Eh & Hbw & Hbh & Hs & Hlaw).
  destruct (positive_total h items Hnn Hpos) as (HT & Hmode).
  unfold units, total_units in Hlaw. rewrite Hmode in Hlaw.
  exists s. split; [exact Hs|]. intros l1 l2 Hl1 Hl2 Hp1 Hp2.
  destruct (Hlaw l1 Hl1) as (gw1 & gh1 & P1 & G1).
  destruct (Hlaw l2 Hl2) as (gw2 & gh2 & P2 & G2).
  apply Placed_area in P1, P2.
  destruct P1 as (-> & Ha1), P2 as (-> & Ha2).
  apply fin_pos_weight in Hp1, Hp2.
  destruct Hp1 as (-> & Hw1), Hp2 as (-> & Hw2).
  set (a1 := gw1 * gh1) in *. set (a2 := gw2 * gh2) in *.
  set (w1 := wq h l1) in *. set (w2 := wq h l2) in *.
  set (T := sumQ h items) in *.
  assert (Hcross : a1 * w2 == a2 * w1).
  { apply (Qmult_inj_r _ _ T); [lra|].
    assert (E1 : a1 * w2 * T == a1 * T * w2) by ring.
    assert (E2 : a2 * w1 * T == a2 * T * w1) by ring.
    rewrite E1, E2, G1, G2. ring. }
  split.
  - simpl. now apply Qeq_bool_iff.
  - intros Hpw Hph. rewrite Ew in Hpw. rewrite Eh in Hph.
    apply fin_pos_inv in Hpw, Hph.
    destruct Hpw as (? & [= <-] & Hbw'), Hph as (? & [= <-] & Hbh').
    assert (Hpos2 : 0 < a2 * T).
    { rewrite G2. apply Qmult_lt_0_compat; [|exact Hw2].
      now apply Qmult_lt_0_compat. }
    assert (Ha2' : 0 < a2).
    { destruct (Qlt_le_dec 0 a2) as [H|H]; [exact H|].
      assert (a2 == 0) as E by lra. rewrite E in Hpos2. lra. }
    rewrite !ndiv_fin by lra. simpl. apply Qeq_bool_iff.
    apply (Qmult_inj_r _ _ (a2 * w2)).
    { intros E. apply Qmult_integral in E. lra. }
    assert (E1 : a1 / a2 * (a2 * w2) == a1 * w2) by (field; lra).
    assert (E2 : w1 / w2 * (a2 * w2) == a2 * w1) by (field; lra).
    now rewrite E1, E2.
Qed.

(* ================================================================== *)
(** ** Degenerate bounds: a shorter edge of length zero *)

Lemma calculateWorstAspectRatioInRow_zero_edge this h row sh b :
  row <> [] -> neq sh (Fin 0) = true ->
  calculateWorstAspectRatioInRow this h row sh b = Ok MAX_VALUE.
Proof.
  intros Hne Hz. unfold calculateWorstAspectRatioInRow.
  destruct row; [congruence|]. now rewrite Hz.
Qed.

Lemma accepts_MAX_VALUE : accepts MAX_VALUE MAX_VALUE = true.
Proof.
  unfold accepts, nge, MAX_VALUE, nle. apply orb_true_iff. left.
  apply Qle_bool_iff. apply Qle_refl.
Qed.

(** A loop whose probe always answers [v], with [v] accepted after
    [+Infinity] and after itself, takes every item into the open row and
    lays out once. *)
Lemma loop_constant_ratio v l : forall s fuel,
  wf s ->
  (forall row, row <> [] ->
     calculateWorstAspectRatioInRow (this s) (objs s) row
       (lengthOfShorterEdge s) (rootbounds s) = Ok v) ->
  accepts v v = true ->
  lastAspectRatio s = PInf \/ lastAspectRatio s = v ->
  sortedL s = l -> l <> [] -> (length l <= fuel)%nat ->
  exists s', loop fuel s = Ok s' /\ drawn s (rowL s ++ l) [] s'.
Proof.
  induction l as [|a rest IH];
    intros s fuel Hwf Hv Hvv Hla Hsorted Hne Hfuel; [congruence|].
  destruct fuel as [|fuel]; [simpl in Hfuel; lia|].
  destruct (step_cases s a rest Hwf Hsorted)
    as (ar & s1 & Hcalc & Hbody & Hwf1 & _ & Hc).
  rewrite Hv in Hcalc by (destruct (rowL s); discriminate).
  injection Hcalc as <-.
  assert (Hacc : accepts (lastAspectRatio s) v = true)
    by (destruct Hla as [-> | ->]; [apply accepts_PInf | exact Hvv]).
  rewrite Hacc in Hc.
  simpl loop. unfold sortedL in Hsorted. rewrite Hsorted, Hbody.
  destruct rest as [|c rest].
  - exists s1. split; [|exact Hc].
    destruct Hc as (_ & _ & _ & _ & _ & Hso).
    unfold sortedL in Hso. destruct fuel; simpl; now rewrite Hso.
  - destruct Hc as (Ho & Hth & Hb & Hsh & Hcm & Hla1 & Hrow & Hso).
    destruct (IH s1 fuel) as (s' & Hs' & Hd); auto.
    + intros row Hrow'. rewrite Ho, Hth, Hb, Hsh. now apply Hv.
    + discriminate.
    + simpl in Hfuel. simpl. lia.
    + exists s'. split; [exact Hs'|].
      unfold drawn in *.
      rewrite Ho, Hth, Hb, Hsh, Hcm, Hrow, <- app_assoc in Hd. exact Hd.
Qed.

(** The divisions of [layoutRow] on a row that holds the whole remaining
    weight, when that weight is positive: no divisor is zero. *)
Lemma divisors_layoutRow_nonzero h r n sh b :
  nonneg_weights h r -> 0 < sumQ h r ->
  Forall (fun d => neq d (Fin 0) = false)
         (divisors_layoutRow (mkEngine (sumWeights h r) n) h r sh b).
Proof.
  intros Hnn Hpos.
  destruct (sumWeights_fin h r Hnn) as (t & Ht & Hteq).
  assert (Hz : neq (Fin t) (Fin 0) = false)
    by (simpl; apply Qeq_bool_false; lra).
  unfold divisors_layoutRow. cbn [_totalRemainingWeightSum _itemsRemaining].
  rewrite Ht, Hz, andb_false_r. cbn [app].
  constructor; [exact Hz|].
  apply Forall_flat_map.
  unfold nonneg_weights in Hnn. rewrite Forall_forall in Hnn.
  apply Forall_forall. intros l Hl.
  destruct (nonneg_weight_wq h l (Hnn l Hl)) as (Ew & _).
  unfold divisors_layoutItem. rewrite Ew, ndiv_fin by lra. cbn [isNaN andb].
  constructor; [exact Hz | constructor].
Qed.

(** C3 (amended). When the shorter edge of the bounds is zero,
    [calculateWorstAspectRatioInRow] returns [Number.MAX_VALUE] for every
    row, before any division; as [MAX_VALUE >= MAX_VALUE] holds, every item
    is accepted into the row under construction, so all items are
    committed together, as one row, by a single call of [layoutRow]; the
    call returns without throwing; with non-negative weights of positive
    sum no division of that [layoutRow] call has a zero divisor; and with
    non-negative weights and bounds each item gets, in exact arithmetic,
    a rectangle of area zero. *)
Theorem zero_edge_single_row h items bounds :
  neq (nmin (width bounds) (height bounds)) (Fin 0) = true ->
  (forall this h' row b, row <> [] ->
     calculateWorstAspectRatioInRow this h' row
       (nmin (width bounds) (height bounds)) b = Ok MAX_VALUE /\
     divisors_calculateWorstAspectRatioInRow this h' row
       (nmin (width bounds) (height bounds)) b = []) /\
  accepts MAX_VALUE MAX_VALUE = true /\
  exists s,
    squarify h items bounds = Ok s /\
    (items <> [] ->
       committed s = [array_sort (compareFn h) items] /\
       (this s, objs s, rootbounds s) =
         layoutRow (this (init h items bounds)) h
           (array_sort (compareFn h) items)
           (nmin (width bounds) (height bounds)) bounds) /\
    (nonneg_weights h items -> fin_pos (sumWeights h items) = true ->
       Forall (fun d => neq d (Fin 0) = false)
         (divisors_layoutRow (this (init h items bounds)) h
            (array_sort (compareFn h) items)
            (nmin (width bounds) (height bounds)) bounds)) /\
    (nonneg_weights h items ->
     fin_nonneg (width bounds) = true -> fin_nonneg (height bounds) = true ->
     forall l, In l items ->
       exists g, geom (objs s l) = Some g /\
                 neq (nmul (width g) (height g)) (Fin 0) = true).
Proof.
  intros Hz.
  pose proof (array_sort_perm (compareFn h) items) as Hp.
  split.
  { intros this0 h' row b Hrow.
    split; [now apply calculateWorstAspectRatioInRow_zero_edge|].
    unfold divisors_calculateWorstAspectRatioInRow.
    destruct row; [congruence|]. now rewrite Hz. }
  split; [apply accepts_MAX_VALUE|].
  destruct (squarify_returns h items bounds) as (s & Hs & _).
  exists s. split; [exact Hs|]. split; [|split].
  - intros Hne.
    destruct (loop_constant_ratio MAX_VALUE (array_sort (compareFn h) items)
                (init h items bounds)
                (2 * length (array_sort (compareFn h) items)))
      as (s' & Hs' & Hl & _ & _ & Hcm & _);
      [apply init_wf | | apply accepts_MAX_VALUE | now left | reflexivity
       | | lia |].
    + intros row Hrow. now apply calculateWorstAspectRatioInRow_zero_edge.
    + intros E. rewrite E in Hp. apply Permutation_nil in Hp. congruence.
    + unfold squarify in Hs.
      change (arrays (init h items bounds) (sorted (init h items bounds)))
        with (array_sort (compareFn h) items) in Hs.
      rewrite Hs in Hs'. injection Hs' as <-.
      split; [exact Hcm | exact Hl].
  - intros Hnn Hpos.
    destruct (positive_total h items Hnn Hpos) as (HT & _).
    change (this (init h items bounds))
      with (mkEngine (sumWeights h (array_sort (compareFn h) items))
                     (Z.of_nat (length (array_sort (compareFn h) items)))).
    apply divisors_layoutRow_nonzero.
    + unfold nonneg_weights in *. rewrite Forall_forall in *.
      intros l Hl. apply Hnn. now apply (Permutation_in _ Hp).
    + now rewrite (sumQ_perm h _ _ Hp).
  - intros Hnn Hw Hh l Hl.
    destruct (squarify_areas h items bounds Hnn Hw Hh)
      as (BW & BH & s' & Ew & Eh & Hbw & Hbh & Hs' & Hlaw).
    rewrite Hs in Hs'. injection Hs' as <-.
    destruct (Hlaw l Hl) as (gw & gh & (g & Eg & Egw & Egh & Hgw & Hgh) & Hg).
    exists g. rewrite Egw, Egh. split; [exact Eg|].
    simpl. apply Qeq_bool_iff.
    assert (HA : BW * BH == 0).
    { rewrite Ew, Eh, nmin_fin in Hz. simpl in Hz.
      apply Qeq_bool_iff in Hz.
      destruct (Qle_bool BW BH); rewrite Hz; ring. }
    rewrite HA, Qmult_0_l in Hg.
    assert (HU : 0 < total_units h items).
    { apply total_units_pos; [exact Hnn|]. intros E. now rewrite E in Hl. }
    apply Qmult_integral in Hg. destruct Hg; [auto|lra].
Qed.

(* ================================================================== *)
(** ** Concrete runs *)

(** The worked example: the item of weight 3 takes the upper half, the
    items of weight 2 and 1 share the lower half in ratio 2 : 1. *)
Example demo_layout :
  layout_of (squarify demo_heap demo_items demo_bounds) demo_items =
  [ Some (mkRect (Fin 0) (Fin 0) (Fin 100) (Fin 50));
    Some (mkRect (Fin 0) (Fin 50) (Fin (200 # 3)) (Fin 50));
    Some (mkRect (Fin (200 # 3)) (Fin 50) (Fin (100 # 3)) (Fin 50)) ] /\
  rows_of (squarify demo_heap demo_items demo_bounds)
  = [[0]; [1]; [2]]%nat.
Proof. split; vm_compute; reflexivity. Qed.

(** Degenerate bounds: one row of three slivers of width 0. *)
Example flat_layout :
  layout_of (squarify demo_heap demo_items flat_bounds) demo_items =
  [ Some (mkRect (Fin 0) (Fin 0) (Fin 0) (Fin 10));
    Some (mkRect (Fin 0) (Fin 0) (Fin 0) (Fin 10));
    Some (mkRect (Fin 0) (Fin 0) (Fin 0) (Fin 10)) ] /\
  rows_of (squarify demo_heap demo_items flat_bounds) = [[0; 1; 2]]%nat.
Proof. split; vm_compute; reflexivity. Qed.

(** Five items of weight zero in 100 x 100: 2000 units of area each. *)
Example zero_layout :
  layout_of (squarify zero_heap zero_items demo_bounds) zero_items =
  [ Some (mkRect (Fin 0) (Fin 0) (Fin 50) (Fin 40));
    Some (mkRect (Fin 50) (Fin 0) (Fin 50) (Fin 40));
    Some (mkRect (Fin 0) (Fin 40) (Fin (100 # 3)) (Fin 60));
    Some (mkRect (Fin (100 # 3)) (Fin 40) (Fin (100 # 3)) (Fin 60));
    Some (mkRect (Fin (200 # 3)) (Fin 40) (Fin (100 # 3)) (Fin 60)) ] /\
  rows_of (squarify zero_heap zero_items demo_bounds)
  = [[0; 1]; [2]; [3]; [4]]%nat.
Proof. split; vm_compute; reflexivity. Qed.

Lemma area_conservation_witness :
  exists s,
    squarify demo_heap demo_items demo_bounds = Ok s /\
    neq (sum_areas (objs s) demo_items)
        (nmul (width demo_bounds) (height demo_bounds)) = true.
Proof.
  apply area_conservation; [repeat constructor | reflexivity ..].
Defined.

Lemma areas_proportional_witness :
  exists s,
    squarify demo_heap demo_items demo_bounds = Ok s /\
    forall l1 l2, In l1 demo_items -> In l2 demo_items ->
      fin_pos (weight (demo_heap l1)) = true ->
      fin_pos (weight (demo_heap l2)) = true ->
      neq (nmul (item_area (objs s l1)) (weight (demo_heap l2)))
          (nmul (item_area (objs s l2)) (weight (demo_heap l1))) = true /\
      (fin_pos (width demo_bounds) = true ->
       fin_pos (height demo_bounds) = true ->
       neq (ndiv (item_area (objs s l1)) (item_area (objs s l2)))
           (ndiv (weight (demo_heap l1)) (weight (demo_heap l2))) = true).
Proof.
  apply areas_proportional; [repeat constructor | reflexivity ..].
Defined.

(** C2 as stated fails on bounds of width zero: both areas
    are 0 and their ratio is [NaN], not [3/2]. *)
Lemma proportionality_fails_on_flat_bounds :
  nonneg_weights demo_heap demo_items /\
  fin_nonneg (width flat_bounds) = true /\
  fin_nonneg (height flat_bounds) = true /\
  fin_pos (sumWeights demo_heap demo_items) = true /\
  fin_pos (weight (demo_heap 0%nat)) = true /\
  fin_pos (weight (demo_heap 1%nat)) = true /\
  exists s,
    squarify demo_heap demo_items flat_bounds = Ok s /\
    isNaN (ndiv (item_area (objs s 0%nat)) (item_area (objs s 1%nat)))
      = true /\
    neq (ndiv (item_area (objs s 0%nat)) (item_area (objs s 1%nat)))
        (ndiv (weight (demo_heap 0%nat)) (weight (demo_heap 1%nat)))
      = false.
Proof.
  split; [repeat constructor|]. do 5 (split; [reflexivity|]).
  destruct (squarify_returns demo_heap demo_items flat_bounds)
    as (s & Hs & _).
  exists s. split; [exact Hs|].
  assert (E : match squarify demo_heap demo_items flat_bounds with
              | Ok s =>
                  isNaN (ndiv (item_area (objs s 0%nat))
                              (item_area (objs s 1%nat)))
              | _ => false
              end = true) by (vm_compute; reflexivity).
  rewrite Hs in E.
  split; [exact E|].
  destruct (ndiv (item_area (objs s 0%nat)) (item_area (objs s 1%nat)));
    try discriminate E. reflexivity.
Qed.

Lemma zero_edge_single_row_witness :
  (forall this h' row b, row <> [] ->
     calculateWorstAspectRatioInRow this h' row
       (nmin (width flat_bounds) (height flat_bounds)) b = Ok MAX_VALUE /\
     divisors_calculateWorstAspectRatioInRow this h' row
       (nmin (width flat_bounds) (height flat_bounds)) b = []) /\
  accepts MAX_VALUE MAX_VALUE = true /\
  exists s,
    squarify demo_heap demo_items flat_bounds = Ok s /\
    (demo_items <> [] ->
       committed s = [array_sort (compareFn demo_heap) demo_items] /\
       (this s, objs s, rootbounds s) =
         layoutRow (this (init demo_heap demo_items flat_bounds)) demo_heap
           (array_sort (compareFn demo_heap) demo_items)
           (nmin (width flat_bounds) (height flat_bounds)) flat_bounds) /\
    (nonneg_weights demo_heap demo_items ->
     fin_pos (sumWeights demo_heap demo_items) = true ->
       Forall (fun d => neq d (Fin 0) = false)
         (divisors_layoutRow (this (init demo_heap demo_items flat_bounds))
            demo_heap (array_sort (compareFn demo_heap) demo_items)
            (nmin (width flat_bounds) (height flat_bounds)) flat_bounds)) /\
    (nonneg_weights demo_heap demo_items ->
     fin_nonneg (width flat_bounds) = true ->
     fin_nonneg (height flat_bounds) = true ->
     forall l, In l demo_items ->
       exists g, geom (objs s l) = Some g /\
                 neq (nmul (width g) (height g)) (Fin 0) = true).
Proof.
  apply zero_edge_single_row. reflexivity.
Defined.

Section Binary64Runs.
Import PrimFloat.

(** Two items of weight 0 in bounds of width 0 and height 2^1023. *)
Definition tall_bounds : B64.SquarifyLayoutRect :=
  B64.mkRect 0%float 0%float 0%float 0x1p+1023%float.

(** C3 as stated fails in three places.  On bounds of width zero the
    three items of weights 3, 2, 1 are committed as one row of three, not
    as three rows of one.  With five items of weight zero in the same
    bounds the one call of [layoutRow] divides by zero: the divisor of
    line 183 is 0 (the quotient 0 / 0 is [NaN], which the fallback of
    lines 184-191 replaces), and so is the divisor of line 197.  And on
    binary64 a rectangle need not have area zero: with two items of weight
    0 and a height of 2^1023 the product of line 187 overflows, the items
    get height [Infinity], and 0 * [Infinity] is [NaN]. *)
Lemma zero_edge_rows_not_single :
  neq (nmin (width flat_bounds) (height flat_bounds)) (Fin 0) = true /\
  (exists s,
     squarify demo_heap demo_items flat_bounds = Ok s /\
     committed s = [[0; 1; 2]%nat] /\
     ~ Forall (fun r => length r = 1%nat) (committed s)) /\
  (exists s,
     squarify zero_heap zero_items flat_bounds = Ok s /\
     committed s = [zero_items] /\
     ndiv (sumWeights zero_heap zero_items)
          (_totalRemainingWeightSum
             (this (init zero_heap zero_items flat_bounds))) = NaN /\
     In (Fin 0)
        (divisors_layoutRow (this (init zero_heap zero_items flat_bounds))
           zero_heap zero_items
           (nmin (width flat_bounds) (height flat_bounds)) flat_bounds)) /\
  (exists s g,
     B64.squarify (B64.items_of [0; 0]%float) [0; 1]%nat tall_bounds
       = Ok s /\
     B64.committed s = [[0; 1]%nat] /\
     B64.geom (B64.objs s 0%nat) = Some g /\
     B64.width g = 0%float /\ B64.height g = infinity /\
     B64.isNaN (B64.nmul (B64.width g) (B64.height g)) = true).
Proof.
  split; [reflexivity|]. split; [|split].
  - destruct (squarify_returns demo_heap demo_items flat_bounds)
      as (s & Hs & _).
    exists s. split; [exact Hs|].
    assert (E : match squarify demo_heap demo_items flat_bounds with
                | Ok s => committed s
                | _ => []
                end = [[0; 1; 2]%nat]) by (vm_compute; reflexivity).
    rewrite Hs in E. split; [exact E|].
    rewrite E. intros H. inversion H as [|? ? Hlen _]. discriminate Hlen.
  - destruct (squarify_returns zero_heap zero_items flat_bounds)
      as (s & Hs & _).
    exists s. split; [exact Hs|].
    assert (E : match squarify zero_heap zero_items flat_bounds with
                | Ok s => committed s
                | _ => []
                end = [zero_items]) by (vm_compute; reflexivity).
    rewrite Hs in E. split; [exact E|].
    split; [reflexivity | left; reflexivity].
  - destruct (B64.squarify (B64.items_of [0; 0]%float) [0; 1]%nat
                tall_bounds) as [s| |] eqn:Hs.
    2, 3: vm_compute in Hs; discriminate Hs.
    assert (E : match B64.squarify (B64.items_of [0; 0]%float) [0; 1]%nat
                        tall_bounds with
                | Ok s => (B64.committed s, B64.geom (B64.objs s 0%nat))
                | _ => ([], None)
                end
                = ([[0; 1]%nat],
                   Some (B64.mkRect 0%float 0%float 0%float infinity)))
      by (vm_compute; reflexivity).
    rewrite Hs in E. injection E as Ec Eg.
    exists s, (B64.mkRect 0%float 0%float 0%float infinity).
    repeat split; auto.
Qed.

(** Weights 1e17, 0.001 and 1000 in the unit square. *)
Definition drift_weights : list B64.num :=
  [1e17; 0x1.0624dd2f1a9fcp-10; 1000]%float.
Definition unit_bounds : B64.SquarifyLayoutRect :=
  B64.mkRect 0%float 0%float 1%float 1%float.

(** C9 on binary64.  The weights sum to 1.0000000000000099e17 (line 68);
    after the row of the first item [_totalRemainingWeightSum] is 992,
    after the row of the item of weight 1000 it is -8, and the last row,
    laid out in bounds of width 0 by the branch of lines 213-216, gets
    [lengthOfCommonItemEdge = longer edge * (0.001 / -8)] as its height,
    unclamped: -1.2351231148954866e-18.  The other branch (lines 220-221)
    and [updateBoundsForNextRow] clamp with [Math.max(0, ...)]. *)
Lemma horizontal_branch_negative_height :
  exists s g,
    B64.squarify (B64.items_of drift_weights) [0; 1; 2]%nat unit_bounds
      = Ok s /\
    B64.committed s = [[0]; [2]; [1]]%nat /\
    B64._totalRemainingWeightSum (B64.this s)
      = (-0x1.00083126e978dp+3)%float /\
    B64.geom (B64.objs s 1%nat) = Some g /\
    B64.width g = 0%float /\
    B64.height g = (-0x1.6c8b439581062p-60)%float /\
    B64.ngt B64.zero (B64.height g) = true.
Proof.
  destruct (B64.squarify (B64.items_of drift_weights) [0; 1; 2]%nat
              unit_bounds) as [s| |] eqn:Hs.
  2, 3: vm_compute in Hs; discriminate Hs.
  assert (E : match B64.squarify (B64.items_of drift_weights) [0; 1; 2]%nat
                      unit_bounds with
              | Ok s => (B64.committed s,
                         B64._totalRemainingWeightSum (B64.this s),
                         option_map (fun g => (B64.width g, B64.height g))
                                    (B64.geom (B64.objs s 1%nat)))
              | _ => ([], B64.zero, None)
              end
              = ([[0]; [2]; [1]]%nat, (-0x1.00083126e978dp+3)%float,
                 Some (0%float, (-0x1.6c8b439581062p-60)%float)))
    by (vm_compute; reflexivity).
  rewrite Hs in E. injection E as Ec Et Eg.
  destruct (B64.geom (B64.objs s 1%nat)) as [g|] eqn:Eg0;
    [|discriminate Eg].
  injection Eg as Ew Eh.
  exists s, g.
  split; [reflexivity|]. split; [exact Ec|]. split; [exact Et|].
  split; [exact Eg0|]. rewrite Ew, Eh.
  split; [reflexivity|]. split; reflexivity.
Qed.

(** Rounding also moves edges by an ulp or so: with weights 0.1 and 5 in
    the unit square the lighter item is given a width just above 1.  The
    properties of positions and areas below are therefore stated for exact
    numbers. *)
Example binary64_rounds_edges :
  match B64.squarify (B64.items_of [0x1.999999999999ap-4; 5]%float)
          [0; 1]%nat unit_bounds with
  | Ok s => option_map B64.width (B64.geom (B64.objs s 0%nat))
  | _ => None
  end = Some 0x1.0000000000010p+0%float.
Proof. vm_compute. reflexivity. Qed.

End Binary64Runs.

Lemma zero_weight_equal_areas_witness :
  exists s,
    squarify zero_heap zero_items demo_bounds = Ok s /\
    forall l, In l zero_items ->
      neq (item_area (objs s l))
          (ndiv (nmul (width demo_bounds) (height demo_bounds))
                (of_nat (length zero_items))) = true.
Proof.
  apply zero_weight_equal_areas;
    [discriminate | repeat constructor | reflexivity ..].
Defined.

Lemma remaining_counters_track_witness :
  (forall s, reach (init demo_heap demo_items demo_bounds) s ->
     (exists t, _totalRemainingWeightSum (this s) = Fin t /\
                t == sumQ demo_heap (unplaced s)) /\
     _itemsRemaining (this s) = Z.of_nat (length (unplaced s)) /\
     Permutation (concat (committed s) ++ unplaced s) demo_items /\
     (forall l, In l (concat (committed s)) -> geom (objs s l) <> None)) /\
  exists s,
    squarify demo_heap demo_items demo_bounds = Ok s /\
    unplaced s = [] /\
    _itemsRemaining (this s) = 0%Z /\
    (exists t, _totalRemainingWeightSum (this s) = Fin t /\ t == 0) /\
    Permutation (concat (committed s)) demo_items /\
    (NoDup demo_items -> NoDup (concat (committed s))) /\
    (forall l, In l demo_items -> geom (objs s l) <> None).
Proof.
  apply remaining_counters_track. repeat constructor.
Defined.

Lemma rectangles_nonneg_witness :
  exists s,
    squarify demo_heap demo_items demo_bounds = Ok s /\
    forall l, In l demo_items ->
      exists g, geom (objs s l) = Some g /\
                fin_nonneg (width g) = true /\
                fin_nonneg (height g) = true.
Proof.
  apply rectangles_nonneg; [repeat constructor | reflexivity ..].
Defined.

(* ================================================================== *)
(** * Further properties of the engine *)

From Stdlib Require Import Sorted.

(** ** Vocabulary *)

Definition finite (a : num) : bool :=
  match a with Fin _ => true | _ => false end.

(** A rectangle whose four fields are finite and whose extents are
    non-negative. *)
Definition proper_rect (b : SquarifyLayoutRect) : bool :=
  finite (x b) && finite (y b) &&
  fin_nonneg (width b) && fin_nonneg (height b).

Definition finite_weights (h : heap) (l : list ref) : Prop :=
  Forall (fun r => finite (weight (h r)) = true) l.

(** Weights never increase along the list. *)
Definition descending (h : heap) (l : list ref) : Prop :=
  StronglySorted (fun a b => nge (weight (h a)) (weight (h b)) = true) l.

(** [a] lies inside [b]; [a] and [b] have no interior point in common.
    Both on the numbers of the program. *)
Definition rect_inside (a b : SquarifyLayoutRect) : bool :=
  nle (x b) (x a) && nle (nadd (x a) (width a)) (nadd (x b) (width b)) &&
  nle (y b) (y a) && nle (nadd (y a) (height a)) (nadd (y b) (height b)).

Definition rect_apart (a b : SquarifyLayoutRect) : bool :=
  nle (nadd (x a) (width a)) (x b) || nle (nadd (x b) (width b)) (x a) ||
  nle (nadd (y a) (height a)) (y b) || nle (nadd (y b) (height b)) (y a).

Definition rect_same (a b : SquarifyLayoutRect) : bool :=
  neq (x a) (x b) && neq (y a) (y b) &&
  neq (width a) (width b) && neq (height a) (height b).

(** The invariant that the loop only ever takes items off the front of
    the sorted copy, in order. *)
Definition InOrder (h0 : heap) (items : list ref) (s : State) : Prop :=
  concat (committed s) ++ rowL s ++ sortedL s
  = array_sort (compareFn h0) items.

(** ** [updateBoundsForNextRow]: the far corner stays where it is *)

Lemma finite_inv a : finite a = true -> exists q, a = Fin q.
Proof. destruct a; try discriminate. eauto. Qed.

(** X1. In exact arithmetic, [updateBoundsForNextRow] on a rectangle
    with finite fields and non-negative extents, for any finite modifier
    (negative, or larger than the rectangle): the far corner [x + width],
    [y + height] does not move, the extents stay finite and non-negative
    (the reduced one is clamped at 0), the origin stays finite, and at
    most one of the two extents changes.  (With rounding the far corner
    can move by an ulp.) *)
Theorem updateBounds_keeps_far_corner b modifier :
  finite (x b) = true -> finite (y b) = true ->
  fin_nonneg (width b) = true -> fin_nonneg (height b) = true ->
  finite modifier = true ->
  let b' := updateBoundsForNextRow b modifier in
  neq (nadd (x b') (width b')) (nadd (x b) (width b)) = true /\
  neq (nadd (y b') (height b')) (nadd (y b) (height b)) = true /\
  fin_nonneg (width b') = true /\ fin_nonneg (height b') = true /\
  finite (x b') = true /\ finite (y b') = true /\
  (width b' = width b \/ height b' = height b).
Proof.
  intros Hx Hy Hw Hh Hm b'. subst b'.
  apply finite_inv in Hx, Hy, Hm.
  apply fin_nonneg_inv in Hw, Hh.
  destruct Hx as (bx & Hx), Hy as (by_ & Hy), Hm as (m & ->).
  destruct Hw as (bw & Hw & Hbw), Hh as (bh & Hh & Hbh).
  unfold updateBoundsForNextRow. rewrite Hw, Hh, Hx, Hy, ngt_fin.
  destruct (Qle_bool bw bh); simpl negb; cbv iota.
  - unfold nsub; simpl nneg; simpl nadd; unfold nmax, nle.
    destruct (Qle_bool 0 (bh + - m)) eqn:E; simpl;
      rewrite ?E; repeat split; auto;
      try (apply Qeq_bool_iff; ring); try (apply Qle_bool_iff; lra).
  - unfold nsub; simpl nneg; simpl nadd; unfold nmax, nle.
    destruct (Qle_bool 0 (bw + - m)) eqn:E; simpl;
      rewrite ?E; repeat split; auto;
      try (apply Qeq_bool_iff; ring); try (apply Qle_bool_iff; lra).
Qed.

(** ** The working copy: descending weights, in a stable order *)

Lemma nge_fin p q : nge (Fin p) (Fin q) = Qle_bool q p.
Proof. reflexivity. Qed.

Lemma compareFn_after h a b wa wb :
  weight (h a) = Fin wa -> weight (h b) = Fin wb ->
  ngt (compareFn h a b) (Fin 0) = negb (Qle_bool wb wa).
Proof.
  intros Ha Hb. unfold compareFn. rewrite Ha, Hb.
  unfold nsub. simpl nneg. simpl nadd. rewrite ngt_fin.
  destruct (Qlt_le_dec wa wb) as [H|H].
  - rewrite !Qle_bool_false by lra. reflexivity.
  - rewrite !Qle_bool_true by lra. reflexivity.
Qed.

Lemma nge_keeps_front a b :
  nge a b = true -> ngt (nsub b a) (Fin 0) = false.
Proof.
  destruct a as [p| | |], b as [q| | |]; try discriminate; try reflexivity.
  rewrite nge_fin. intros H. apply Qle_bool_iff in H.
  unfold nsub. simpl nneg. simpl nadd. rewrite ngt_fin.
  rewrite Qle_bool_true by lra. reflexivity.
Qed.

Lemma sort_insert_descending h a l :
  finite_weights h (a :: l) -> descending h l ->
  descending h (sort_insert (compareFn h) a l).
Proof.
  intros Hfin. induction 1 as [|b l Hl IH Hb]; simpl.
  - repeat constructor.
  - inversion Hfin as [|? ? Ha Hbl]; subst.
    inversion Hbl as [|? ? Hfb Hfl]; subst.
    apply finite_inv in Ha, Hfb.
    destruct Ha as (wa & Ha), Hfb as (wb & Hfb).
    rewrite (compareFn_after h a b wa wb Ha Hfb).
    destruct (Qle_bool wb wa) eqn:E; simpl.
    + apply Qle_bool_iff in E. constructor.
      * now constructor.
      * constructor; [rewrite Ha, Hfb, nge_fin; now apply Qle_bool_true|].
        unfold finite_weights in Hfl. rewrite Forall_forall in *.
        intros c Hc. specialize (Hb c Hc).
        destruct (finite_inv _ (Hfl c Hc)) as (wc & Hwc).
        rewrite Ha, Hwc, nge_fin. rewrite Hfb, Hwc, nge_fin in Hb.
        apply Qle_bool_iff in Hb. apply Qle_bool_true. lra.
    + constructor.
      * apply IH. constructor; [rewrite Ha; reflexivity | exact Hfl].
      * rewrite Forall_forall. intros c Hc.
        apply (Permutation_in _ (sort_insert_perm (compareFn h) a l)) in Hc.
        destruct Hc as [<-|Hc].
        -- rewrite Ha, Hfb, nge_fin.
           destruct (Qlt_le_dec wa wb) as [H|H].
           ++ apply Qle_bool_true. lra.
           ++ rewrite Qle_bool_true in E by lra. discriminate.
        -- rewrite Forall_forall in Hb. now apply Hb.
Qed.

Lemma array_sort_descending h l :
  finite_weights h l -> descending h (array_sort (compareFn h) l).
Proof.
  induction 1 as [|a l Ha Hl IH]; simpl; [constructor|].
  apply sort_insert_descending; [|exact IH].
  constructor; [exact Ha|].
  unfold finite_weights. rewrite Forall_forall in *. intros r Hr.
  apply Hl. eapply Permutation_in; [apply array_sort_perm | exact Hr].
Qed.

Lemma array_sort_fixes_descending h l :
  descending h l -> array_sort (compareFn h) l = l.
Proof.
  induction 1 as [|a l Hl IH Ha]; simpl; [reflexivity|].
  rewrite IH. destruct l as [|b l]; [reflexivity|]. simpl.
  inversion Ha as [|? ? Hab _]; subst.
  unfold compareFn. now rewrite (nge_keeps_front _ _ Hab).
Qed.

(** X2. Line 66 with finite weights: the working copy [sorted] holds the
    items of the caller's array in an order of never increasing weight,
    and an array that already is in such an order is copied as it is,
    ties included. *)
Theorem sorted_copy_descending h items bounds :
  finite_weights h items ->
  descending h (sortedL (init h items bounds)) /\
  Permutation (sortedL (init h items bounds)) items /\
  (descending h items -> sortedL (init h items bounds) = items).
Proof.
  intros Hfin.
  change (sortedL (init h items bounds))
    with (array_sort (compareFn h) items).
  split; [now apply array_sort_descending|].
  split; [apply array_sort_perm | apply array_sort_fixes_descending].
Qed.

(** ** Rows are consecutive runs of the sorted copy *)

Lemma step_InOrder h0 items s s' :
  Struct h0 items s -> InOrder h0 items s -> step s s' ->
  InOrder h0 items s'.
Proof.
  intros HS HO (a & rest & Hsorted & Hbody).
  pose proof HS as (Hwf & _).
  destruct (step_cases s a rest Hwf Hsorted)
    as (ar & s1 & _ & Hbody1 & _ & _ & Hc).
  rewrite Hbody in Hbody1. injection Hbody1 as <-.
  fold (sortedL s) in Hsorted. unfold InOrder in *.
  rewrite Hsorted in HO. rewrite <- HO.
  destruct (accepts (lastAspectRatio s) ar).
  - destruct rest as [|c rest].
    + destruct Hc as (_ & _ & _ & -> & -> & ->).
      rewrite concat_app. simpl.
      rewrite ?app_nil_r, <- ?app_assoc. reflexivity.
    + destruct Hc as (_ & _ & _ & _ & -> & _ & -> & ->).
      rewrite <- ?app_assoc. reflexivity.
  - destruct Hc as (_ & _ & _ & -> & -> & ->).
    rewrite concat_app. simpl.
    rewrite ?app_nil_r, <- ?app_assoc. reflexivity.
Qed.

Lemma reach_InOrder h items bounds s :
  reach (init h items bounds) s -> Struct h items s /\ InOrder h items s.
Proof.
  apply (reach_invariant (fun s => Struct h items s /\ InOrder h items s)).
  - intros s1 s2 (HS & HO) Hstep. split.
    + eapply step_Struct; eauto.
    + eapply step_InOrder; eauto.
  - split; [apply init_Struct | reflexivity].
Qed.

(** X3. The rows [layoutRow] is called on are consecutive, non-empty runs
    of the sorted copy: at every loop head the committed rows, the open
    row and the rest of [sorted], put end to end, are the sorted copy, and
    when [squarify] returns the committed rows make up all of it. An item
    that was put back (line 94) is the first item of the next row. *)
Theorem rows_are_runs_of_sorted h items bounds :
  (forall s, reach (init h items bounds) s ->
     concat (committed s) ++ rowL s ++ sortedL s
     = array_sort (compareFn h) items) /\
  exists s,
    squarify h items bounds = Ok s /\
    concat (committed s) = array_sort (compareFn h) items /\
    Forall (fun r => r <> []) (committed s).
Proof.
  split.
  - intros s Hr. now destruct (reach_InOrder h items bounds s Hr).
  - destruct (squarify_returns h items bounds) as (s & Hs & Hreach & Hend).
    destruct (reach_InOrder h items bounds s Hreach) as (HS & HO).
    exists s. split; [exact Hs|].
    destruct HS as (_ & _ & _ & _ & HK & Hne & _).
    unfold InOrder in HO. rewrite (HK Hend), Hend, !app_nil_r in HO.
    auto.
Qed.

(** X4. An empty [items] array is a no-op: no object and not the bounds
    are changed and no row is laid out; and a call lays out no row only
    then. *)
Theorem squarify_empty_noop h items bounds :
  exists s,
    squarify h items bounds = Ok s /\
    (items = [] ->
       objs s = h /\ rootbounds s = bounds /\ committed s = []) /\
    (committed s = [] -> items = []).
Proof.
  destruct (squarify_final h items bounds) as (s & Hs & HS & _ & _ & Hp).
  exists s. split; [exact Hs|]. split.
  - intros ->. unfold squarify in Hs. simpl in Hs. injection Hs as <-.
    auto.
  - intros Hc. rewrite Hc in Hp. simpl in Hp.
    now apply Permutation_nil in Hp.
Qed.

(** ** Rectangles as exact rationals *)

Record QRect : Type := mkQ { qx : Q; qy : Q; qw : Q; qh : Q }.

Definition rectQ (g : SquarifyLayoutRect) : option QRect :=
  match x g, y g, width g, height g with
  | Fin a, Fin b, Fin c, Fin d => Some (mkQ a b c d)
  | _, _, _, _ => None
  end.

Definition itemQ (o : Item) : option QRect :=
  match geom o with Some g => rectQ g | None => None end.

Definition inside (a b : QRect) : Prop :=
  qx b <= qx a /\ qx a + qw a <= qx b + qw b /\
  qy b <= qy a /\ qy a + qh a <= qy b + qh b.

Definition apart (a b : QRect) : Prop :=
  qx a + qw a <= qx b \/ qx b + qw b <= qx a \/
  qy a + qh a <= qy b \/ qy b + qh b <= qy a.

Definition Apart2 (o o' : Item) : Prop :=
  exists q q', itemQ o = Some q /\ itemQ o' = Some q' /\ apart q q'.

(** The rectangle lines 212-222 write for an item at offset [p] with edge
    [e], in a strip of thickness [c] of bounds with origin [ox], [oy]. *)
Definition Slice (hz : bool) (ox oy c p e : Q) (q : QRect) : Prop :=
  if hz then qx q == ox + p /\ qy q == oy /\ qw q == e /\ qh q == c
  else qx q == ox /\ qy q == oy + p /\ qw q == c /\ qh q == e.

(** An item laid out in the row, somewhere between the offsets [lo] and
    [hi] along the shorter edge. *)
Definition LaidItem (hz : bool) (ox oy s c sw : Q) (k : nat) (lo hi : Q)
  (o : Item) : Prop :=
  exists w q p,
    weight o = Fin w /\ 0 <= w <= sw /\ itemQ o = Some q /\
    Slice hz ox oy c p (s * ratioQ sw k w) q /\
    lo <= p /\ p + s * ratioQ sw k w <= hi.

(** The sum of the shares of the items of a list. *)
Definition sum_ratio (sw : Q) (k : nat) (h : heap) (l : list ref) : Q :=
  fold_right (fun r acc => ratioQ sw k (wq h r) + acc) 0 l.

(** The invariant of the loop for the tiling: the remaining bounds [R] lie
    inside the original bounds [B0]; every placed item lies inside [B0]
    and outside [R]; placed items are apart from each other. *)
Definition Tiling (B0 : QRect) (s : State) : Prop :=
  exists R,
    rectQ (rootbounds s) = Some R /\ inside R B0 /\
    0 <= qw R /\ 0 <= qh R /\
    (forall l, In l (concat (committed s)) ->
       exists q, itemQ (objs s l) = Some q /\ inside q B0 /\ apart q R /\
                 0 <= qw q /\ 0 <= qh q) /\
    (forall l l', In l (concat (committed s)) ->
       In l' (concat (committed s)) -> l <> l' ->
       Apart2 (objs s l) (objs s l')).

Lemma inside_trans a b c : inside a b -> inside b c -> inside a c.
Proof. unfold inside. intros. repeat split; lra. Qed.

Lemma apart_sym a b : apart a b -> apart b a.
Proof. unfold apart. tauto. Qed.

(** What is apart from a rectangle is apart from everything inside it. *)
Lemma apart_inside a b c : apart a b -> inside c b -> apart a c.
Proof. unfold apart, inside. intros [H|[H|[H|H]]] Hc; lra. Qed.

Lemma Apart2_sym o o' : Apart2 o o' -> Apart2 o' o.
Proof.
  intros (q & q' & H1 & H2 & H). exists q', q. auto using apart_sym.
Qed.

Lemma rectQ_fields g q :
  rectQ g = Some q ->
  x g = Fin (qx q) /\ y g = Fin (qy q) /\
  width g = Fin (qw q) /\ height g = Fin (qh q).
Proof.
  unfold rectQ.
  destruct (x g), (y g), (width g), (height g); try discriminate.
  intros [= <-]. auto.
Qed.

Lemma rect_inside_of g b q B :
  rectQ g = Some q -> rectQ b = Some B -> inside q B ->
  rect_inside g b = true.
Proof.
  intros Hg Hb (H1 & H2 & H3 & H4).
  apply rectQ_fields in Hg, Hb. unfold rect_inside.
  destruct Hg as (-> & -> & -> & ->), Hb as (-> & -> & -> & ->).
  simpl.
  now rewrite !Qle_bool_true.
Qed.

Lemma rect_apart_of g g' q q' :
  rectQ g = Some q -> rectQ g' = Some q' -> apart q q' ->
  rect_apart g g' = true.
Proof.
  intros Hg Hg' H.
  apply rectQ_fields in Hg, Hg'. unfold rect_apart.
  destruct Hg as (-> & -> & -> & ->), Hg' as (-> & -> & -> & ->).
  simpl.
  destruct H as [H|[H|[H|H]]]; rewrite (Qle_bool_true _ _ H);
    rewrite ?orb_true_r; reflexivity.
Qed.

Lemma proper_rect_inv b :
  proper_rect b = true ->
  exists B, rectQ b = Some B /\ 0 <= qw B /\ 0 <= qh B.
Proof.
  unfold proper_rect, rectQ. intros H.
  apply andb_true_iff in H. destruct H as (H & Hh).
  apply andb_true_iff in H. destruct H as (H & Hw).
  apply andb_true_iff in H. destruct H as (Hx & Hy).
  apply finite_inv in Hx, Hy. apply fin_nonneg_inv in Hw, Hh.
  destruct Hx as (a & ->), Hy as (c & ->).
  destruct Hw as (w & -> & Hw), Hh as (d & -> & Hd).
  exists (mkQ a c w d). auto.
Qed.

(** ** Items of a row, end to end *)

Lemma layoutItem_slice hz bd ox oy s c sw k h p n a w :
  x bd = Fin ox -> y bd = Fin oy ->
  0 <= s -> 0 <= c -> (0 < k)%nat ->
  weight (h a) = Fin w -> 0 <= w <= sw ->
  exists g q,
    layoutItem hz bd (Fin s) (Fin c) (Fin sw) k (h, Fin p, n) a =
      (assign h a (mkItem (weight (h a)) (Some g)),
       Fin (p + s * ratioQ sw k w), (n - 1)%Z) /\
    rectQ g = Some q /\
    Slice hz ox oy c p (s * ratioQ sw k w) q.
Proof.
  intros Hx Hy Hs Hc Hk Hw Hrange.
  pose proof (ratioQ_nonneg sw k w Hk Hrange) as Hrho.
  assert (Hk' : ~ inject_Z (Z.of_nat k) == 0).
  { assert (0 < inject_Z (Z.of_nat k)) by (apply inject_Z_pos; lia). lra. }
  assert (Hratio :
    (if isNaN (ndiv (Fin w) (Fin sw)) then
       if neq (Fin sw) (Fin 0) || isNaN (Fin sw)
       then ndiv (Fin 1) (of_nat k) else Fin 0
     else ndiv (Fin w) (Fin sw)) = Fin (ratioQ sw k w)).
  { unfold ratioQ. simpl. destruct (Qeq_bool sw 0) eqn:E.
    - apply Qeq_bool_iff in E.
      rewrite Qcompare_zero by lra. simpl.
      now rewrite Qeq_bool_false.
    - reflexivity. }
  unfold layoutItem. rewrite Hw, Hratio, Hx, Hy.
  destruct hz; simpl nmul; simpl nadd.
  - eexists _, _. split; [reflexivity|]. split; [reflexivity|].
    simpl. repeat split; reflexivity.
  - rewrite !nmax_zero_fin by (try apply Qmult_le_0_compat; assumption).
    eexists _, _. split; [reflexivity|]. split; [reflexivity|].
    simpl. repeat split; reflexivity.
Qed.

Lemma sum_ratio_ext sw k h h' l :
  (forall r, weight (h' r) = weight (h r)) ->
  sum_ratio sw k h' l = sum_ratio sw k h l.
Proof.
  intros Hw. induction l as [|a l IH]; simpl; [reflexivity|].
  rewrite IH. unfold wq. now rewrite Hw.
Qed.

Lemma LaidItem_widen hz ox oy s c sw k lo hi hi' o :
  hi <= hi' -> LaidItem hz ox oy s c sw k lo hi o ->
  LaidItem hz ox oy s c sw k lo hi' o.
Proof.
  intros Hle (w & q & p & H1 & H2 & H3 & H4 & H5 & H6).
  exists w, q, p. repeat split; auto; lra.
Qed.

(** A slice that ends at or before offset [p] is apart from one that
    starts at [p]. *)
Lemma Slice_apart hz ox oy c p1 e1 p2 e2 q1 q2 :
  Slice hz ox oy c p1 e1 q1 -> Slice hz ox oy c p2 e2 q2 ->
  p1 + e1 <= p2 -> apart q1 q2.
Proof.
  unfold Slice, apart. destruct hz; intros (A1 & A2 & A3 & A4)
    (B1 & B2 & B3 & B4) H.
  - left. rewrite A1, A3, B1. lra.
  - right; right; left. rewrite A2, A4, B2. lra.
Qed.

Lemma layoutItem_fold_laid hz bd ox oy s c sw k :
  x bd = Fin ox -> y bd = Fin oy ->
  0 <= s -> 0 <= c -> (0 < k)%nat ->
  forall r D h p n h' pn n',
    0 <= p ->
    (forall l, In l r -> exists w, weight (h l) = Fin w /\ 0 <= w <= sw) ->
    (forall l, In l D -> LaidItem hz ox oy s c sw k 0 p (h l)) ->
    (forall l l', In l D -> In l' D -> l <> l' -> Apart2 (h l) (h l')) ->
    fold_left (layoutItem hz bd (Fin s) (Fin c) (Fin sw) k) r (h, Fin p, n)
      = (h', pn, n') ->
    exists pf,
      pn = Fin pf /\ pf == p + s * sum_ratio sw k h r /\
      (forall l, In l (D ++ r) -> LaidItem hz ox oy s c sw k 0 pf (h' l)) /\
      (forall l l', In l (D ++ r) -> In l' (D ++ r) -> l <> l' ->
                    Apart2 (h' l) (h' l')).
Proof.
  intros Hx Hy Hs Hc Hk.
  induction r as [|a r IH]; intros D h p n h' pn n' Hp Hr HD HA H.
  - simpl in H. injection H as <- <- <-. exists p.
    rewrite app_nil_r. simpl. repeat split; auto. lra.
  - destruct (Hr a (or_introl eq_refl)) as (w & Hw & Hrange).
    destruct (layoutItem_slice hz bd ox oy s c sw k h p n a w
                Hx Hy Hs Hc Hk Hw Hrange) as (g & q & Hstep & Hq & Hsl).
    cbn [fold_left] in H. rewrite Hstep in H.
    pose proof (ratioQ_nonneg sw k w Hk Hrange) as Hrho.
    assert (He : 0 <= s * ratioQ sw k w)
      by (apply Qmult_le_0_compat; assumption).
    set (h1 := assign h a (mkItem (weight (h a)) (Some g))) in *.
    assert (Ha1 : LaidItem hz ox oy s c sw k 0
                    (p + s * ratioQ sw k w) (h1 a)).
    { unfold h1. rewrite assign_same. exists w, q, p. simpl.
      repeat split; auto; lra. }
    destruct (IH (D ++ [a]) h1 (p + s * ratioQ sw k w) (n - 1)%Z h' pn n')
      as (pf & Hpf & Hpfeq & Hlaid & Hapart); auto.
    + lra.
    + intros l Hl. unfold h1. rewrite assign_weight. apply Hr. now right.
    + intros l Hl. destruct (Nat.eq_dec l a) as [->|Hne]; [exact Ha1|].
      apply in_app_or in Hl. destruct Hl as [Hl|[Hl|[]]]; [|congruence].
      unfold h1. rewrite assign_other by exact Hne.
      apply (LaidItem_widen _ _ _ _ _ _ _ _ p); [lra | now apply HD].
    + assert (Hnew : forall l, In l D -> l <> a -> Apart2 (h l) (h1 a)).
      { intros l Hl Hne.
        destruct (HD l Hl) as (w' & q' & p' & _ & _ & Hq' & Hsl' & _ & Hend).
        exists q', q. split; [exact Hq'|].
        split; [unfold h1; now rewrite assign_same|].
        eapply Slice_apart; eauto. }
      intros l l' Hl Hl' Hne.
      apply in_app_or in Hl, Hl'.
      destruct (Nat.eq_dec l a) as [->|Hla];
        destruct (Nat.eq_dec l' a) as [->|Hl'a]; [congruence| | |].
      * destruct Hl' as [Hl'|[Hl'|[]]]; [|congruence].
        apply Apart2_sym. replace (h1 l') with (h l')
          by (unfold h1; now rewrite assign_other).
        now apply Hnew.
      * destruct Hl as [Hl|[Hl|[]]]; [|congruence].
        replace (h1 l) with (h l)
          by (unfold h1; now rewrite assign_other).
        now apply Hnew.
      * destruct Hl as [Hl|[Hl|[]]]; [|congruence].
        destruct Hl' as [Hl'|[Hl'|[]]]; [|congruence].
        unfold h1. rewrite !assign_other by assumption. now apply HA.
    + exists pf. split; [exact Hpf|].
      rewrite <- app_assoc in Hlaid, Hapart. simpl in Hlaid, Hapart.
      split; [|split; assumption].
      rewrite Hpfeq. simpl.
      rewrite (sum_ratio_ext sw k h h1)
        by (intros; unfold h1; apply assign_weight).
      unfold wq at 1. rewrite Hw. ring.
Qed.

Lemma sum_ratio_value sw k h l :
  (0 < k)%nat ->
  sum_ratio sw k h l ==
    if Qeq_bool sw 0
    then inject_Z (Z.of_nat (length l)) / inject_Z (Z.of_nat k)
    else sumQ h l / sw.
Proof.
  intros Hk.
  assert (Hkq : 0 < inject_Z (Z.of_nat k)) by (apply inject_Z_pos; lia).
  induction l as [|a l IH]; simpl sum_ratio; simpl sumQ.
  - destruct (Qeq_bool sw 0) eqn:E; simpl.
    + field. lra.
    + apply Qeq_bool_neq in E. field. exact E.
  - rewrite IH. unfold ratioQ. destruct (Qeq_bool sw 0) eqn:E.
    + replace (Z.of_nat (length (a :: l)))
        with (Z.of_nat (length l) + 1)%Z by (simpl length; lia).
      rewrite inject_Z_plus. field. lra.
    + apply Qeq_bool_neq in E. field. exact E.
Qed.

Lemma sum_ratio_one sw h r :
  r <> [] -> sw == sumQ h r -> sum_ratio sw (length r) h r == 1.
Proof.
  intros Hne Hsw.
  assert (Hk : (0 < length r)%nat) by (destruct r; [congruence|simpl; lia]).
  assert (Hkq : 0 < inject_Z (Z.of_nat (length r)))
    by (apply inject_Z_pos; lia).
  rewrite sum_ratio_value by exact Hk.
  destruct (Qeq_bool sw 0) eqn:E.
  - field. lra.
  - apply Qeq_bool_neq in E. rewrite <- Hsw. field. exact E.
Qed.

(** ** The strip of a row and the bounds left over *)

Lemma nsub_fin p q : nsub (Fin p) (Fin q) = Fin (p + - q).
Proof. reflexivity. Qed.

Lemma updateBounds_rect b B c :
  rectQ b = Some B -> 0 <= qw B -> 0 <= qh B ->
  c <= (if Qle_bool (qw B) (qh B) then qh B else qw B) ->
  exists R',
    rectQ (updateBoundsForNextRow b (Fin c)) = Some R' /\
    if Qle_bool (qw B) (qh B)
    then qx R' == qx B /\ qy R' == qy B + c /\
         qw R' == qw B /\ qh R' == qh B - c
    else qx R' == qx B + c /\ qy R' == qy B /\
         qw R' == qw B - c /\ qh R' == qh B.
Proof.
  intros HB Hw Hh Hc. apply rectQ_fields in HB.
  destruct HB as (Ex & Ey & Ew & Eh).
  unfold updateBoundsForNextRow. rewrite Ew, Eh, Ex, Ey, ngt_fin.
  destruct (Qle_bool (qw B) (qh B)); simpl negb; cbv iota;
    rewrite !nsub_fin, nmax_zero_fin by lra; rewrite !nsub_fin;
    unfold rectQ; simpl; eexists; (split; [reflexivity|]); simpl;
    repeat split; ring.
Qed.

(** Everything [layoutRow] does to a row [r], under the conditions the
    loop guarantees: orientation [hz], shorter edge [s], longer edge [L],
    thickness [c] of the strip, and the items end to end in the strip. *)
Lemma layoutRow_exact this h r b B t :
  r <> [] -> nonneg_weights h r ->
  _totalRemainingWeightSum this = Fin t -> sumQ h r <= t ->
  (Z.of_nat (length r) <= _itemsRemaining this)%Z ->
  rectQ b = Some B -> 0 <= qw B -> 0 <= qh B ->
  let hz := Qle_bool (qw B) (qh B) in
  let s := if hz then qw B else qh B in
  let L := if hz then qh B else qw B in
  let n := inject_Z (_itemsRemaining this) in
  let k := inject_Z (Z.of_nat (length r)) in
  exists this' h' b' R' c,
    layoutRow this h r (nmin (width b) (height b)) b = (this', h', b') /\
    0 <= c <= L /\
    (0 < t -> c * t == L * sumQ h r) /\
    (t == 0 -> c * n == L * k) /\
    rectQ b' = Some R' /\
    (if hz
     then qx R' == qx B /\ qy R' == qy B + c /\
          qw R' == qw B /\ qh R' == qh B - c
     else qx R' == qx B + c /\ qy R' == qy B /\
          qw R' == qw B - c /\ qh R' == qh B) /\
    (forall l, In l r ->
       LaidItem hz (qx B) (qy B) s c (sumQ h r) (length r) 0 s (h' l)) /\
    (forall l l', In l r -> In l' r -> l <> l' -> Apart2 (h' l) (h' l')).
Proof.
  intros Hne Hnn Ht Hsum Hlen HB Hbw Hbh hz s L n k.
  destruct (sumWeights_fin h r Hnn) as (sw & Hsw & Hsweq).
  pose proof (sumQ_nonneg h r Hnn) as Hsw0.
  assert (Hk : (0 < length r)%nat) by (destruct r; [congruence|simpl; lia]).
  pose proof (rectQ_fields b B HB) as (Ex & Ey & Ew & Eh).
  unfold layoutRow. rewrite Ew, Eh, nmin_fin, horizontal_fin, Hsw.
  fold hz. fold s.
  assert (HL : (if hz then Fin (qh B) else Fin (qw B)) = Fin L)
    by (unfold L; now destruct hz).
  rewrite HL.
  assert (Hs0 : 0 <= s) by (unfold s; now destruct hz).
  assert (HL0 : 0 <= L) by (unfold L; now destruct hz).
  destruct (commonItemEdge_fin this L sw (length r) t Ht HL0
              ltac:(lra) Hk Hlen) as (c & Hc & Hcr & Hc1 & Hc0).
  rewrite Hc.
  destruct (fold_left _ r _) as [[h1 p1] n1] eqn:Ef.
  destruct (updateBounds_rect b B c HB Hbw Hbh) as (R' & HR' & HRel).
  { fold hz. fold L. lra. }
  fold hz in HRel.
  assert (Hrange : forall l', In l' r ->
            exists w, weight (h l') = Fin w /\ 0 <= w <= sw).
  { intros l' Hl'. exists (wq h l').
    pose proof (sumQ_member h r l' Hnn Hl').
    unfold nonneg_weights in Hnn. rewrite Forall_forall in Hnn.
    destruct (nonneg_weight_wq h l' (Hnn l' Hl')). split; [auto|lra]. }
  destruct (layoutItem_fold_laid hz b (qx B) (qy B) s c sw (length r)
              Ex Ey Hs0 ltac:(lra) Hk r [] h 0
              (_itemsRemaining this) h1 p1 n1)
    as (pf & _ & Hpf & Hlaid & Hapart); auto.
  { lra. } { intros l []. } { intros l l' []. }
  simpl app in Hlaid, Hapart.
  rewrite (sum_ratio_one sw h r Hne Hsweq) in Hpf.
  assert (Hpfs : pf == s) by (rewrite Hpf; ring).
  exists (mkEngine (nsub (_totalRemainingWeightSum this) (Fin sw)) n1),
    h1, (updateBoundsForNextRow b (Fin c)), R', c.
  split; [reflexivity|]. split; [exact Hcr|].
  split; [intros Hpos; rewrite <- Hsweq; auto|].
  split; [exact Hc0|]. split; [exact HR'|]. split; [exact HRel|].
  split; [|exact Hapart].
  intros l Hl.
  destruct (Hlaid l Hl) as (w & q & p & H1 & H2 & H3 & H4 & H5 & H6).
  exists w, q, p.
  assert (Hrq' : ratioQ sw (length r) w == ratioQ (sumQ h r) (length r) w).
  { unfold ratioQ.
    destruct (Qeq_bool sw 0) eqn:E1, (Qeq_bool (sumQ h r) 0) eqn:E2.
    - reflexivity.
    - apply Qeq_bool_iff in E1. apply Qeq_bool_neq in E2. lra.
    - apply Qeq_bool_iff in E2. apply Qeq_bool_neq in E1. lra.
    - now rewrite Hsweq. }
  split; [exact H1|]. split; [lra|]. split; [exact H3|].
  split.
  - unfold Slice in *. destruct hz; rewrite <- Hrq'; exact H4.
  - rewrite <- Hrq'. split; lra.
Qed.

Lemma strip_facts R R' c sw k :
  0 <= qw R -> 0 <= qh R -> (0 < k)%nat ->
  let hz := Qle_bool (qw R) (qh R) in
  let s := if hz then qw R else qh R in
  let L := if hz then qh R else qw R in
  0 <= c <= L ->
  (if hz
   then qx R' == qx R /\ qy R' == qy R + c /\
        qw R' == qw R /\ qh R' == qh R - c
   else qx R' == qx R + c /\ qy R' == qy R /\
        qw R' == qw R - c /\ qh R' == qh R) ->
  exists strip,
    inside strip R /\ inside R' R /\ apart strip R' /\
    0 <= qw R' /\ 0 <= qh R' /\
    forall o, LaidItem hz (qx R) (qy R) s c sw k 0 s o ->
      exists q, itemQ o = Some q /\ inside q strip /\
                0 <= qw q /\ 0 <= qh q.
Proof.
  intros Hw Hh Hk hz s L Hc HR'. subst s L.
  exists (if hz then mkQ (qx R) (qy R) (qw R) c
          else mkQ (qx R) (qy R) c (qh R)).
  destruct hz; destruct HR' as (E1 & E2 & E3 & E4);
    unfold inside, apart; simpl.
  - split; [repeat split; lra|]. split; [repeat split; lra|].
    split; [right; right; left; lra|]. split; [lra|]. split; [lra|].
    intros o (w & q & p & _ & Hr & Hq & (S1 & S2 & S3 & S4) & Hlo & Hhi).
    pose proof (ratioQ_nonneg sw k w Hk Hr) as Hrho.
    assert (0 <= qw R * ratioQ sw k w) by (apply Qmult_le_0_compat; lra).
    exists q. split; [exact Hq|]. repeat split; lra.
  - split; [repeat split; lra|]. split; [repeat split; lra|].
    split; [left; lra|]. split; [lra|]. split; [lra|].
    intros o (w & q & p & _ & Hr & Hq & (S1 & S2 & S3 & S4) & Hlo & Hhi).
    pose proof (ratioQ_nonneg sw k w Hk Hr) as Hrho.
    assert (0 <= qh R * ratioQ sw k w) by (apply Qmult_le_0_compat; lra).
    exists q. split; [exact Hq|]. repeat split; lra.
Qed.

(** ** The tiling invariant *)

Section TilingInvariant.

Variables (h0 : heap) (items : list ref) (bounds : SquarifyLayoutRect).
Variable B0 : QRect.
Hypothesis weights_nonneg : nonneg_weights h0 items.
Hypothesis bounds_rect : rectQ bounds = Some B0.
Hypothesis width_nonneg : 0 <= qw B0.
Hypothesis height_nonneg : 0 <= qh B0.

Lemma bounds_fields :
  width bounds = Fin (qw B0) /\ height bounds = Fin (qh B0).
Proof. destruct (rectQ_fields bounds B0 bounds_rect) as (_ & _ & H). auto. Qed.

(** What the loop guarantees whenever it calls [layoutRow] on [r]. *)
Lemma drawn_conditions s r rem :
  Struct h0 items s -> Numeric h0 items (qw B0) (qh B0) s ->
  r <> [] -> rowL s ++ sortedL s = r ++ rem ->
  nonneg_weights (objs s) r /\
  (Z.of_nat (length r) <= _itemsRemaining (this s))%Z /\
  lengthOfShorterEdge s =
    nmin (width (rootbounds s)) (height (rootbounds s)) /\
  exists t, _totalRemainingWeightSum (this s) = Fin t /\
            sumQ (objs s) r <= t.
Proof.
  intros HS (t & bw & bh & Ht & Hteq & _ & _ & _ & _ & Hsh & _) Hne Hsplit.
  pose proof HS as (_ & _ & Hperm & _ & _ & _ & Hw0 & _ & Hn & _).
  assert (Hnr : nonneg_weights h0 r).
  { apply (in_run_nonneg h0 items weights_nonneg s); [exact HS|].
    intros l Hl'. rewrite Hsplit. apply in_or_app. now left. }
  assert (Hnrem : nonneg_weights h0 rem).
  { apply (in_run_nonneg h0 items weights_nonneg s); [exact HS|].
    intros l Hl'. rewrite Hsplit. apply in_or_app. now right. }
  pose proof (sumQ_nonneg h0 rem Hnrem) as Hrem0.
  rewrite Hsplit, sumQ_app in Hteq.
  split; [now apply (nonneg_weights_ext h0)|].
  split; [rewrite Hn, <- length_app, Hsplit, length_app; lia|].
  split; [exact Hsh|].
  exists t. split; [exact Ht|].
  rewrite (sumQ_ext h0) by exact Hw0. lra.
Qed.

Lemma drawn_Tiling s r rem s' :
  Struct h0 items s -> Numeric h0 items (qw B0) (qh B0) s ->
  Tiling B0 s -> r <> [] ->
  rowL s ++ sortedL s = r ++ rem -> drawn s r rem s' -> Tiling B0 s'.
Proof.
  intros HS HN (R & HR & HRB & HRw & HRh & Hpl & Hpair) Hne Hsplit
         (Hl & _ & _ & Hcm & _ & _).
  destruct (drawn_conditions s r rem HS HN Hne Hsplit)
    as (Hnn & Hlen & Hsh & t & Ht & Hsum).
  assert (Hk : (0 < length r)%nat) by (destruct r; [congruence|simpl; lia]).
  destruct (layoutRow_exact (this s) (objs s) r (rootbounds s) R t
              Hne Hnn Ht Hsum Hlen HR HRw HRh)
    as (this' & h' & b' & R' & c & Hlay & Hc & _ & _ & HR' & HRel &
        Hlaid & Hapart).
  rewrite Hsh, Hlay in Hl. injection Hl as _ Eobjs Eb.
  destruct (layoutRow_frame _ _ _ _ _ _ _ _ Hlay) as (_ & Hframe & _).
  destruct (strip_facts R R' c (sumQ (objs s) r) (length r) HRw HRh Hk
              Hc HRel)
    as (strip & Hstrip & HR'R & Hsep & HR'w & HR'h & Hitems).
  assert (Hnew : forall l, In l r ->
            exists q, itemQ (h' l) = Some q /\ inside q strip /\
                      0 <= qw q /\ 0 <= qh q).
  { intros l Hin. apply Hitems. now apply Hlaid. }
  exists R'. rewrite Eb, Eobjs, Hcm.
  split; [exact HR'|]. split; [eapply inside_trans; eauto|].
  split; [exact HR'w|]. split; [exact HR'h|].
  assert (Hmem : forall l, In l (concat (committed s ++ [r])) ->
                 In l r \/ (~ In l r /\ In l (concat (committed s)))).
  { intros l Hin. rewrite concat_app in Hin. simpl in Hin.
    rewrite app_nil_r in Hin.
    destruct (in_dec Nat.eq_dec l r) as [Hlr|Hlr]; [now left|].
    apply in_app_or in Hin. destruct Hin; [right; auto|contradiction]. }
  split.
  - intros l Hin. destruct (Hmem l Hin) as [Hlr|(Hlr & Hold)].
    + destruct (Hnew l Hlr) as (q & Hq & Hqs & Hqw & Hqh).
      exists q. split; [exact Hq|].
      split; [eauto using inside_trans|].
      split; [|auto].
      apply apart_sym. eapply apart_inside; [|exact Hqs].
      now apply apart_sym.
    + rewrite Hframe by exact Hlr.
      destruct (Hpl l Hold) as (q & Hq & HqB & HqR & Hqw & Hqh).
      exists q. split; [exact Hq|]. split; [exact HqB|].
      split; [eapply apart_inside; eauto | auto].
  - intros l l' Hin Hin' Hneq.
    destruct (Hmem l Hin) as [Hlr|(Hlr & Hold)];
      destruct (Hmem l' Hin') as [Hlr'|(Hlr' & Hold')].
    + now apply Hapart.
    + destruct (Hnew l Hlr) as (q & Hq & Hqs & _).
      destruct (Hpl l' Hold') as (q' & Hq' & _ & Hq'R & _).
      apply Apart2_sym. exists q', q.
      rewrite (Hframe l') by exact Hlr'.
      split; [exact Hq'|]. split; [exact Hq|].
      eapply apart_inside; [exact Hq'R|].
      eapply inside_trans; eauto.
    + destruct (Hnew l' Hlr') as (q' & Hq' & Hq's & _).
      destruct (Hpl l Hold) as (q & Hq & _ & HqR & _).
      exists q, q'. rewrite (Hframe l) by exact Hlr.
      split; [exact Hq|]. split; [exact Hq'|].
      eapply apart_inside; [exact HqR|].
      eapply inside_trans; eauto.
    + rewrite !Hframe by assumption. now apply Hpair.
Qed.

Lemma step_Tiling s s' :
  Struct h0 items s -> Numeric h0 items (qw B0) (qh B0) s ->
  Tiling B0 s -> step s s' -> Tiling B0 s'.
Proof.
  intros HS HN HT (a & rest & Hsorted & Hbody).
  pose proof HS as (Hwf & _ & _ & HJ & _).
  destruct (step_cases s a rest Hwf Hsorted)
    as (ar & s1 & _ & Hbody1 & _ & _ & Hc).
  rewrite Hbody in Hbody1. injection Hbody1 as <-.
  fold (sortedL s) in Hsorted.
  destruct (accepts (lastAspectRatio s) ar) eqn:Ea.
  - destruct rest as [|c rest].
    + apply (drawn_Tiling s (rowL s ++ [a]) [] s'); auto.
      * destruct (rowL s); discriminate.
      * now rewrite Hsorted, app_nil_r.
    + destruct HT as (R & HT).
      destruct Hc as (Ho & _ & Hb & _ & Hcm & _).
      exists R. now rewrite Ho, Hb, Hcm.
  - apply (drawn_Tiling s (rowL s) (a :: rest) s'); auto.
    + intros He. rewrite (HJ He), accepts_PInf in Ea. discriminate.
    + now rewrite Hsorted.
Qed.

Lemma init_Tiling : Tiling B0 (init h0 items bounds).
Proof.
  exists B0. split; [exact bounds_rect|].
  split; [unfold inside; repeat split; lra|].
  split; [exact width_nonneg|]. split; [exact height_nonneg|].
  split; [intros l []|intros l l' []].
Qed.

Lemma reach_Tiling s :
  reach (init h0 items bounds) s ->
  Struct h0 items s /\ Numeric h0 items (qw B0) (qh B0) s /\ Tiling B0 s.
Proof.
  destruct bounds_fields as (Ew & Eh).
  apply (reach_invariant
           (fun s => Struct h0 items s /\
                     Numeric h0 items (qw B0) (qh B0) s /\ Tiling B0 s)).
  - intros s1 s2 (HS & HN & HT) Hstep. split; [|split].
    + eapply step_Struct; eauto.
    + eapply step_Numeric; eauto.
    + eapply step_Tiling; eauto.
  - split; [apply init_Struct|]. split; [|apply init_Tiling].
    now apply (init_Numeric h0 items bounds).
Qed.

(** The state [squarify] returns, with the three invariants. *)
Lemma squarify_tiling :
  exists s, squarify h0 items bounds = Ok s /\
    unplaced s = [] /\ Permutation (concat (committed s)) items /\
    Struct h0 items s /\
    Numeric h0 items (qw B0) (qh B0) s /\ Tiling B0 s.
Proof.
  destruct (squarify_returns h0 items bounds) as (s & Hs & Hreach & Hend).
  exists s. split; [exact Hs|].
  destruct (reach_Tiling s Hreach) as (HS & HN & HT).
  pose proof HS as (_ & _ & Hperm & _ & HK & _).
  unfold unplaced. rewrite (HK Hend), Hend in *.
  rewrite !app_nil_r in Hperm. auto 6.
Qed.

End TilingInvariant.

(** ** The layout tiles the bounds *)

Lemma itemQ_geom o q :
  itemQ o = Some q -> exists g, geom o = Some g /\ rectQ g = Some q.
Proof.
  unfold itemQ. destruct (geom o) as [g|]; [|discriminate]. eauto.
Qed.


(** X6. In exact arithmetic, with finite non-negative weights and proper
    bounds, the rectangles of two different items have no interior point
    in common: one ends, along x or along y, where the other begins or
    before. *)
Theorem items_do_not_overlap h items bounds :
  nonneg_weights h items -> proper_rect bounds = true ->
  exists s,
    squarify h items bounds = Ok s /\
    forall l l', In l items -> In l' items -> l <> l' ->
      exists g g',
        geom (objs s l) = Some g /\ geom (objs s l') = Some g' /\
        rect_apart g g' = true.
Proof.
  intros Hnn Hb. apply proper_rect_inv in Hb.
  destruct Hb as (B0 & HB & Hw & Hh).
  destruct (squarify_tiling h items bounds B0 Hnn HB Hw Hh)
    as (s & Hs & _ & Hperm & _ & _ & (R & _ & _ & _ & _ & _ & Hpair)).
  exists s. split; [exact Hs|]. intros l l' Hl Hl' Hne.
  destruct (Hpair l l') as (q & q' & Hq & Hq' & Hap); auto;
    try (eapply Permutation_in; [symmetry; exact Hperm | assumption]).
  apply itemQ_geom in Hq, Hq'.
  destruct Hq as (g & Hg & Hgq), Hq' as (g' & Hg' & Hgq').
  exists g, g'. repeat split; auto. eapply rect_apart_of; eauto.
Qed.

(** X7. The bounds object is used up. In exact arithmetic, with finite
    non-negative weights and proper bounds, the rectangle it holds at any
    loop head lies inside the rectangle passed in, and after a call with
    at least one item it has area zero; no placed item reaches into it. *)
Theorem bounds_used_up h items bounds :
  nonneg_weights h items -> proper_rect bounds = true ->
  (forall s, reach (init h items bounds) s ->
     rect_inside (rootbounds s) bounds = true /\
     proper_rect (rootbounds s) = true /\
     forall l, In l (concat (committed s)) ->
       exists g, geom (objs s l) = Some g /\
                 rect_apart g (rootbounds s) = true) /\
  exists s,
    squarify h items bounds = Ok s /\
    (items <> [] ->
     neq (nmul (width (rootbounds s)) (height (rootbounds s))) (Fin 0)
       = true).
Proof.
  intros Hnn Hb. apply proper_rect_inv in Hb.
  destruct Hb as (B0 & HB & Hw & Hh). split.
  - intros s Hr.
    destruct (reach_Tiling h items bounds B0 Hnn HB Hw Hh s Hr)
      as (_ & _ & (R & HR & HRB & HRw & HRh & Hpl & _)).
    split; [eapply rect_inside_of; eauto|]. split.
    + apply rectQ_fields in HR. destruct HR as (E1 & E2 & E3 & E4).
      unfold proper_rect. rewrite E1, E2, E3, E4. simpl.
      now rewrite !Qle_bool_true.
    + intros l Hl. destruct (Hpl l Hl) as (q & Hq & _ & Hap & _).
      apply itemQ_geom in Hq. destruct Hq as (g & Hg & Hgq).
      exists g. split; [exact Hg|]. eapply rect_apart_of; eauto.
  - destruct (squarify_tiling h items bounds B0 Hnn HB Hw Hh)
      as (s & Hs & Hu & _ & HS & HN & (R & HR & _)).
    exists s. split; [exact Hs|]. intros Hne.
    destruct HN as (t & bw & bh & _ & _ & Ew & Eh & _ & _ & _ & HA & _).
    destruct HS as (_ & _ & _ & _ & _ & _ & _ & _ & Hn & _).
    unfold unplaced in Hu.
    assert (Hrem : remaining_units h items s == 0).
    { unfold remaining_units. rewrite Hu.
      destruct (zero_mode h items); [|reflexivity].
      rewrite Hn. apply app_eq_nil in Hu. destruct Hu as (-> & ->).
      reflexivity. }
    rewrite Hrem, Qmult_0_r in HA.
    pose proof (total_units_pos h items Hnn Hne) as HU.
    rewrite Ew, Eh. simpl. apply Qeq_bool_iff.
    apply Qmult_integral in HA. destruct HA; [auto|lra].
Qed.

(** ** A single item takes the whole bounds *)

Lemma loop_unfold fuel s a rest s1 :
  arrays s (sorted s) = a :: rest ->
  loop_body a (set_arrays (aset (arrays s) (sorted s) rest) s) = Ok s1 ->
  loop (S fuel) s = loop fuel s1.
Proof. intros E Hb. simpl. now rewrite E, Hb. Qed.

Lemma loop_done fuel s : arrays s (sorted s) = [] -> loop fuel s = Ok s.
Proof. intros E. destruct fuel; simpl; now rewrite E. Qed.

Lemma squarify_single h a bounds :
  exists s, squarify h [a] bounds = Ok s /\
            drawn (init h [a] bounds) [a] [] s.
Proof.
  destruct (step_cases (init h [a] bounds) a [] (init_wf _ _ _) eq_refl)
    as (ar & s & _ & Hbody & _ & _ & Hc).
  change (lastAspectRatio (init h [a] bounds)) with PInf in Hc.
  rewrite accepts_PInf in Hc.
  change (rowL (init h [a] bounds) ++ [a]) with [a] in Hc.
  exists s. split; [|exact Hc].
  unfold squarify.
  change (2 * length (arrays (init h [a] bounds)
                        (sorted (init h [a] bounds))))%nat with 2%nat.
  rewrite (loop_unfold 1 (init h [a] bounds) a [] s eq_refl Hbody).
  apply loop_done. now destruct Hc as (_ & _ & _ & _ & _ & Hso).
Qed.

(** X8. A call with a single item of finite non-negative weight (zero
    included) and proper bounds gives that item the bounds themselves:
    the same origin, width and height. *)
Theorem single_item_fills_bounds h a bounds :
  fin_nonneg (weight (h a)) = true -> proper_rect bounds = true ->
  exists s g,
    squarify h [a] bounds = Ok s /\
    geom (objs s a) = Some g /\ rect_same g bounds = true.
Proof.
  intros Hwa Hb. apply proper_rect_inv in Hb.
  destruct Hb as (B & HB & Hbw & Hbh).
  destruct (squarify_single h a bounds) as (s & Hs & Hl & _).
  assert (Hnn : nonneg_weights h [a]) by (constructor; [exact Hwa|constructor]).
  destruct (nonneg_weight_wq h a Hwa) as (Ew & Hw0).
  set (w := wq h a) in *.
  assert (Ht : _totalRemainingWeightSum (this (init h [a] bounds))
               = Fin (0 + w)).
  { simpl. unfold sumWeights. simpl. now rewrite Ew. }
  assert (Hsum : sumQ h [a] == w) by (simpl; fold w; ring).
  destruct (layoutRow_exact (this (init h [a] bounds)) h [a] bounds B
              (0 + w)) as (this' & h' & b' & R' & c & Hlay & Hc & Hc1 &
                           Hc0 & _ & _ & Hlaid & _); auto.
  { discriminate. } { lra. } { simpl. lia. }
  change (lengthOfShorterEdge (init h [a] bounds))
    with (nmin (width bounds) (height bounds)) in Hl.
  change (objs (init h [a] bounds)) with h in Hl.
  change (rootbounds (init h [a] bounds)) with bounds in Hl.
  rewrite Hlay in Hl. injection Hl as _ Eobjs _.
  destruct (Hlaid a (or_introl eq_refl))
    as (w' & q & p & Hw' & _ & Hq & Hsl & Hp0 & Hpe).
  destruct (layoutRow_frame _ _ _ _ _ _ _ _ Hlay) as (Hwt & _).
  rewrite Hwt, Ew in Hw'. injection Hw' as <-.
  apply itemQ_geom in Hq. destruct Hq as (g & Hg & Hgq).
  exists s, g. split; [exact Hs|]. split; [now rewrite Eobjs|].
  (* the share of the only item is 1, the strip is the whole bounds *)
  assert (Hrho : ratioQ (sumQ h [a]) 1 w == 1).
  { unfold ratioQ. destruct (Qeq_bool (sumQ h [a]) 0) eqn:E.
    - reflexivity.
    - apply Qeq_bool_neq in E. rewrite Hsum in *. field. exact E. }
  simpl length in *. rewrite Hrho in *.
  assert (HcL : c == if Qle_bool (qw B) (qh B) then qh B else qw B).
  { change (inject_Z (_itemsRemaining (this (init h [a] bounds))))
      with 1 in Hc0.
    change (inject_Z (Z.of_nat 1)) with 1 in Hc0.
    destruct (Qeq_dec w 0) as [Z|NZ].
    - rewrite <- (Qmult_1_r c), Hc0 by lra. ring.
    - apply (Qmult_inj_r _ _ (0 + w)); [lra|].
      rewrite Hc1 by lra. rewrite Hsum. ring. }
  apply rectQ_fields in Hgq, HB.
  destruct Hgq as (G1 & G2 & G3 & G4), HB as (B1 & B2 & B3 & B4).
  unfold rect_same. rewrite G1, G2, G3, G4, B1, B2, B3, B4. simpl.
  unfold Slice in Hsl.
  destruct (Qle_bool (qw B) (qh B)); destruct Hsl as (S1 & S2 & S3 & S4);
    rewrite ?Hrho in S3; rewrite ?Hrho in S4;
    rewrite !andb_true_iff; repeat split; apply Qeq_bool_iff; lra.
Qed.

(** ** Where in its row an item is put *)

(** [o'] follows [o] in a row: it starts where [o] ends, along x or along
    y, and is aligned with it across. *)
Definition Follows (o o' : Item) : Prop :=
  exists q q',
    itemQ o = Some q /\ itemQ o' = Some q' /\
    ((qx q' == qx q + qw q /\ qy q' == qy q /\ qh q' == qh q) \/
     (qy q' == qy q + qh q /\ qx q' == qx q /\ qw q' == qw q)).

Definition rect_follows (g g' : SquarifyLayoutRect) : bool :=
  (neq (x g') (nadd (x g) (width g)) && neq (y g') (y g) &&
   neq (height g') (height g)) ||
  (neq (y g') (nadd (y g) (height g)) && neq (x g') (x g) &&
   neq (width g') (width g)).

(** The invariant on committed rows: neighbours in a row follow each
    other, and the very first item sits at the origin of [B0]. *)
Definition RowsLaid (B0 : QRect) (s : State) : Prop :=
  (forall row r1 a b r2,
     In row (committed s) -> row = r1 ++ a :: b :: r2 ->
     Follows (objs s a) (objs s b)) /\
  (forall a rest rows,
     committed s = (a :: rest) :: rows ->
     exists q, itemQ (objs s a) = Some q /\
               qx q == qx B0 /\ qy q == qy B0) /\
  (committed s = [] -> rectQ (rootbounds s) = Some B0).

Lemma Slice_eq hz ox oy c p e p' e' q :
  p == p' -> e == e' -> Slice hz ox oy c p e q -> Slice hz ox oy c p' e' q.
Proof.
  unfold Slice. intros Hp He.
  destruct hz; intros (H1 & H2 & H3 & H4); repeat split; lra.
Qed.

Lemma sum_ratio_app sw k h l1 l2 :
  sum_ratio sw k h (l1 ++ l2)
  == sum_ratio sw k h l1 + sum_ratio sw k h l2.
Proof.
  induction l1 as [|a l1 IH]; simpl; [lra|]. rewrite IH. lra.
Qed.

(** The item at a given place of the row (its last place, should the row
    hold it twice) starts at the sum of the edges of the items before. *)
Lemma layoutItem_fold_positions hz bd ox oy s c sw k :
  x bd = Fin ox -> y bd = Fin oy ->
  0 <= s -> 0 <= c -> (0 < k)%nat ->
  forall r h p n h' pn n',
    (forall l, In l r -> exists w, weight (h l) = Fin w /\ 0 <= w <= sw) ->
    fold_left (layoutItem hz bd (Fin s) (Fin c) (Fin sw) k) r (h, Fin p, n)
      = (h', pn, n') ->
    forall r1 a r2, r = r1 ++ a :: r2 -> ~ In a r2 ->
      exists q,
        itemQ (h' a) = Some q /\
        Slice hz ox oy c (p + s * sum_ratio sw k h r1)
              (s * ratioQ sw k (wq h a)) q.
Proof.
  intros Hx Hy Hs Hc Hk.
  induction r as [|a0 r IH]; intros h p n h' pn n' Hr H r1 a r2 Hsplit Hlast.
  - destruct r1; discriminate.
  - destruct (Hr a0 (or_introl eq_refl)) as (w & Hw & Hrange).
    destruct (layoutItem_slice hz bd ox oy s c sw k h p n a0 w
                Hx Hy Hs Hc Hk Hw Hrange) as (g & q & Hstep & Hq & Hsl).
    cbn [fold_left] in H. rewrite Hstep in H.
    set (h1 := assign h a0 (mkItem (weight (h a0)) (Some g))) in *.
    assert (Hw1 : forall l, weight (h1 l) = weight (h l))
      by (intros; unfold h1; apply assign_weight).
    destruct r1 as [|b r1]; simpl in Hsplit; injection Hsplit as <- ->.
    + exists q.
      destruct (layoutItem_fold_frame _ _ _ _ _ _ _ _ _ _ _ _ _ H)
        as (_ & Hfr & _).
      rewrite (Hfr a0 Hlast). unfold h1. rewrite assign_same.
      split; [exact Hq|].
      eapply Slice_eq; [| |exact Hsl].
      * simpl. ring.
      * unfold wq. rewrite Hw. reflexivity.
    + destruct (IH h1 (p + s * ratioQ sw k w) (n - 1)%Z h' pn n')
        with (r1 := r1) (a := a) (r2 := r2) as (q' & Hq' & Hsl'); auto.
      { intros l Hl. rewrite Hw1. apply Hr. now right. }
      exists q'. split; [exact Hq'|].
      eapply Slice_eq; [| |exact Hsl'].
      * rewrite (sum_ratio_ext sw k h h1) by exact Hw1.
        change (sum_ratio sw k h (a0 :: r1))
          with (ratioQ sw k (wq h a0) + sum_ratio sw k h r1).
        replace (wq h a0) with w by (unfold wq; now rewrite Hw). ring.
      * unfold wq. rewrite Hw1. reflexivity.
Qed.

Lemma layoutRow_positions this h r b B t :
  r <> [] -> nonneg_weights h r ->
  _totalRemainingWeightSum this = Fin t -> sumQ h r <= t ->
  (Z.of_nat (length r) <= _itemsRemaining this)%Z ->
  rectQ b = Some B -> 0 <= qw B -> 0 <= qh B ->
  let hz := Qle_bool (qw B) (qh B) in
  let s := if hz then qw B else qh B in
  exists this' h' b' c sw,
    layoutRow this h r (nmin (width b) (height b)) b = (this', h', b') /\
    forall r1 a r2, r = r1 ++ a :: r2 -> ~ In a r2 ->
      exists q,
        itemQ (h' a) = Some q /\
        Slice hz (qx B) (qy B) c (s * sum_ratio sw (length r) h r1)
              (s * ratioQ sw (length r) (wq h a)) q.
Proof.
  intros Hne Hnn Ht Hsum Hlen HB Hbw Hbh hz s.
  destruct (sumWeights_fin h r Hnn) as (sw & Hsw & Hsweq).
  pose proof (sumQ_nonneg h r Hnn) as Hsw0.
  assert (Hk : (0 < length r)%nat) by (destruct r; [congruence|simpl; lia]).
  pose proof (rectQ_fields b B HB) as (Ex & Ey & Ew & Eh).
  unfold layoutRow. rewrite Ew, Eh, nmin_fin, horizontal_fin, Hsw.
  fold hz. fold s.
  set (L := if hz then qh B else qw B).
  assert (HL : (if hz then Fin (qh B) else Fin (qw B)) = Fin L)
    by (unfold L; now destruct hz).
  rewrite HL.
  assert (Hs0 : 0 <= s) by (unfold s; now destruct hz).
  assert (HL0 : 0 <= L) by (unfold L; now destruct hz).
  destruct (commonItemEdge_fin this L sw (length r) t Ht HL0
              ltac:(lra) Hk Hlen) as (c & Hc & Hcr & _).
  rewrite Hc.
  destruct (fold_left _ r _) as [[h1 p1] n1] eqn:Ef.
  eexists _, h1, _, c, sw. split; [reflexivity|].
  intros r1 a r2 Hsplit Hlast.
  assert (Hrange : forall l', In l' r ->
            exists w, weight (h l') = Fin w /\ 0 <= w <= sw).
  { intros l' Hl'. exists (wq h l').
    pose proof (sumQ_member h r l' Hnn Hl').
    unfold nonneg_weights in Hnn. rewrite Forall_forall in Hnn.
    destruct (nonneg_weight_wq h l' (Hnn l' Hl')). split; [auto|lra]. }
  destruct (layoutItem_fold_positions hz b (qx B) (qy B) s c sw (length r)
              Ex Ey Hs0 ltac:(lra) Hk r h 0 _ h1 p1 n1 Hrange Ef
              r1 a r2 Hsplit Hlast) as (q & Hq & Hsl).
  exists q. split; [exact Hq|].
  eapply Slice_eq; [| |exact Hsl]; [ring|reflexivity].
Qed.

Section RowsInvariant.

Variables (h0 : heap) (items : list ref) (bounds : SquarifyLayoutRect).
Variable B0 : QRect.
Hypothesis weights_nonneg : nonneg_weights h0 items.
Hypothesis bounds_rect : rectQ bounds = Some B0.
Hypothesis width_nonneg : 0 <= qw B0.
Hypothesis height_nonneg : 0 <= qh B0.
Hypothesis items_distinct : NoDup items.

Lemma drawn_RowsLaid s r rem s' :
  Struct h0 items s -> Numeric h0 items (qw B0) (qh B0) s ->
  Tiling B0 s -> RowsLaid B0 s -> r <> [] ->
  rowL s ++ sortedL s = r ++ rem -> drawn s r rem s' -> RowsLaid B0 s'.
Proof.
  intros HS HN (R & HR & _ & HRw & HRh & _) (Hrows & Hfirst & Hstart)
         Hne Hsplit (Hl & _ & _ & Hcm & _ & _).
  destruct (drawn_conditions h0 items B0 weights_nonneg s r rem HS HN Hne
              Hsplit) as (Hnn & Hlen & Hsh & t & Ht & Hsum).
  pose proof HS as (_ & _ & Hperm & _).
  assert (Hnd : NoDup (concat (committed s) ++ r ++ rem)).
  { rewrite <- Hsplit. eapply Permutation_NoDup; [symmetry; exact Hperm|].
    exact items_distinct. }
  assert (Hndr : NoDup r).
  { apply NoDup_app_remove_l in Hnd. now apply NoDup_app_remove_r in Hnd. }
  assert (Hfresh : forall l, In l (concat (committed s)) -> ~ In l r).
  { intros l Hold Hin. revert Hnd Hold Hin. clear.
    induction (concat (committed s)) as [|c cs IH]; simpl; [tauto|].
    intros Hnd [->|Hold] Hin.
    - inversion Hnd as [|? ? Hnot _]; subst. apply Hnot.
      apply in_or_app. right. apply in_or_app. now left.
    - inversion Hnd; subst. eauto. }
  destruct (layoutRow_positions (this s) (objs s) r (rootbounds s) R t
              Hne Hnn Ht Hsum Hlen HR HRw HRh)
    as (this' & h' & b' & c & sw & Hlay & Hpos).
  rewrite Hsh, Hlay in Hl. injection Hl as _ Eobjs _.
  destruct (layoutRow_frame _ _ _ _ _ _ _ _ Hlay) as (_ & Hframe & _).
  assert (Hinrow : forall row l, In row (committed s) -> In l row ->
                   In l (concat (committed s))).
  { intros row l Hrow Hin. apply in_concat. eauto. }
  unfold RowsLaid. rewrite Eobjs, Hcm. split; [|split].
  - intros row r1 a b r2 Hrow Erow.
    apply in_app_or in Hrow. destruct Hrow as [Hrow|[<-|[]]].
    + assert (Ha : In a row)
        by (rewrite Erow; apply in_or_app; right; now left).
      assert (Hb : In b row)
        by (rewrite Erow; apply in_or_app; right; right; now left).
      rewrite !Hframe by eauto. eauto.
    + subst r. apply NoDup_remove_2 in Hndr as Hna.
      assert (Hlast_a : ~ In a (b :: r2)).
      { intros Hin. apply Hna. apply in_or_app. now right. }
      assert (Hlast_b : ~ In b r2).
      { apply NoDup_app_remove_l in Hndr.
        inversion Hndr as [|? ? _ Hndb]; subst.
        now inversion Hndb. }
      destruct (Hpos r1 a (b :: r2) eq_refl Hlast_a) as (qa & Hqa & Sa).
      destruct (Hpos (r1 ++ [a]) b r2) as (qb & Hqb & Sb);
        [now rewrite <- app_assoc | exact Hlast_b |].
      exists qa, qb. split; [exact Hqa|]. split; [exact Hqb|].
      eapply Slice_eq in Sb;
        [|rewrite sum_ratio_app; simpl sum_ratio; reflexivity|reflexivity].
      unfold Slice in Sa, Sb.
      destruct (Qle_bool (qw R) (qh R));
        destruct Sa as (A1 & A2 & A3 & A4), Sb as (B1 & B2 & B3 & B4).
      * left. rewrite B1, B2, B4, A1, A2, A3, A4. repeat split; ring.
      * right. rewrite B1, B2, B3, A1, A2, A3, A4. repeat split; ring.
  - intros a rest rows Hc.
    destruct (committed s) as [|c0 cs] eqn:Ecm.
    + simpl in Hc. injection Hc as -> <-.
      specialize (Hstart eq_refl). rewrite HR in Hstart.
      injection Hstart as ->.
      inversion Hndr as [|? ? Hlast _]; subst.
      destruct (Hpos [] a rest eq_refl Hlast) as (q & Hq & Sq).
      exists q. split; [exact Hq|].
      simpl sum_ratio in Sq. unfold Slice in Sq.
      destruct (Qle_bool (qw B0) (qh B0));
        destruct Sq as (A1 & A2 & _); rewrite A1, A2; split; ring.
    + simpl in Hc. injection Hc as -> _.
      destruct (Hfirst a rest cs eq_refl) as (q & Hq & Hxy).
      exists q. rewrite Hframe; [auto|].
      apply Hfresh. simpl. now left.
  - intros Hc. apply app_eq_nil in Hc. destruct Hc as (_ & Hc).
    discriminate.
Qed.

Lemma step_RowsLaid s s' :
  Struct h0 items s -> Numeric h0 items (qw B0) (qh B0) s ->
  Tiling B0 s -> RowsLaid B0 s -> step s s' -> RowsLaid B0 s'.
Proof.
  intros HS HN HT HR (a & rest & Hsorted & Hbody).
  pose proof HS as (Hwf & _ & _ & HJ & _).
  destruct (step_cases s a rest Hwf Hsorted)
    as (ar & s1 & _ & Hbody1 & _ & _ & Hc).
  rewrite Hbody in Hbody1. injection Hbody1 as <-.
  fold (sortedL s) in Hsorted.
  destruct (accepts (lastAspectRatio s) ar) eqn:Ea.
  - destruct rest as [|c rest].
    + apply (drawn_RowsLaid s (rowL s ++ [a]) [] s'); auto.
      * destruct (rowL s); discriminate.
      * now rewrite Hsorted, app_nil_r.
    + destruct Hc as (Ho & _ & Hb & _ & Hcm & _).
      unfold RowsLaid in *. now rewrite Ho, Hb, Hcm.
  - apply (drawn_RowsLaid s (rowL s) (a :: rest) s'); auto.
    + intros He. rewrite (HJ He), accepts_PInf in Ea. discriminate.
    + now rewrite Hsorted.
Qed.

Lemma squarify_rows :
  exists s, squarify h0 items bounds = Ok s /\
    InOrder h0 items s /\ unplaced s = [] /\
    Struct h0 items s /\ RowsLaid B0 s.
Proof.
  destruct (squarify_returns h0 items bounds) as (s & Hs & Hreach & Hend).
  exists s. split; [exact Hs|].
  assert (H : Struct h0 items s /\ InOrder h0 items s /\
              Numeric h0 items (qw B0) (qh B0) s /\ Tiling B0 s /\
              RowsLaid B0 s).
  { revert Hreach.
    apply (reach_invariant
             (fun s => Struct h0 items s /\ InOrder h0 items s /\
                       Numeric h0 items (qw B0) (qh B0) s /\
                       Tiling B0 s /\ RowsLaid B0 s)).
    - intros s1 s2 (HS & HO & HN & HT & HR) Hstep.
      split; [eapply step_Struct; eauto|].
      split; [eapply step_InOrder; eauto|].
      split; [eapply step_Numeric; eauto|].
      split; [eapply step_Tiling; eauto|].
      eapply step_RowsLaid; eauto.
    - destruct (rectQ_fields bounds B0 bounds_rect) as (_ & _ & Ew & Eh).
      split; [apply init_Struct|]. split; [reflexivity|].
      split; [now apply (init_Numeric h0 items bounds)|].
      split; [now apply init_Tiling|].
      split; [intros row r1 a b r2 []|].
      split; [discriminate | intros _; exact bounds_rect]. }
  destruct H as (HS & HO & _ & _ & HR).
  pose proof HS as (_ & _ & _ & _ & HK & _).
  unfold unplaced. rewrite (HK Hend), Hend. auto.
Qed.

End RowsInvariant.

Lemma rect_follows_of g g' q q' :
  rectQ g = Some q -> rectQ g' = Some q' ->
  ((qx q' == qx q + qw q /\ qy q' == qy q /\ qh q' == qh q) \/
   (qy q' == qy q + qh q /\ qx q' == qx q /\ qw q' == qw q)) ->
  rect_follows g g' = true.
Proof.
  intros Hg Hg' H.
  apply rectQ_fields in Hg, Hg'. unfold rect_follows.
  destruct Hg as (-> & -> & -> & ->), Hg' as (-> & -> & -> & ->).
  simpl. apply orb_true_iff.
  destruct H as [(H1 & H2 & H3)|(H1 & H2 & H3)]; [left|right];
    rewrite !andb_true_iff; repeat split; now apply Qeq_bool_iff.
Qed.

(** X9. In exact arithmetic, with finite non-negative weights, proper
    bounds and pairwise different items: in every row handed to
    [layoutRow], each item is followed by its neighbour, which starts
    exactly where it ends (along x with the same y and height, or along y
    with the same x and width). *)
Theorem row_neighbours_share_an_edge h items bounds :
  nonneg_weights h items -> proper_rect bounds = true -> NoDup items ->
  exists s,
    squarify h items bounds = Ok s /\
    forall row r1 a b r2,
      In row (committed s) -> row = r1 ++ a :: b :: r2 ->
      exists g g',
        geom (objs s a) = Some g /\ geom (objs s b) = Some g' /\
        rect_follows g g' = true.
Proof.
  intros Hnn Hb Hnd. apply proper_rect_inv in Hb.
  destruct Hb as (B0 & HB & Hw & Hh).
  destruct (squarify_rows h items bounds B0 Hnn HB Hw Hh Hnd)
    as (s & Hs & _ & _ & _ & (Hrows & _)).
  exists s. split; [exact Hs|]. intros row r1 a b r2 Hrow Erow.
  destruct (Hrows row r1 a b r2 Hrow Erow) as (q & q' & Hq & Hq' & H).
  apply itemQ_geom in Hq, Hq'.
  destruct Hq as (g & Hg & Hgq), Hq' as (g' & Hg' & Hgq').
  exists g, g'. repeat split; auto. eapply rect_follows_of; eauto.
Qed.

(** X10. With finite non-negative weights, proper bounds and pairwise
    different items, the first item of the sorted copy, which no item
    outweighs, is placed at the origin of the bounds passed in. *)
Theorem heaviest_item_at_origin h items bounds :
  nonneg_weights h items -> proper_rect bounds = true -> NoDup items ->
  exists s,
    squarify h items bounds = Ok s /\
    forall a rest,
      sortedL (init h items bounds) = a :: rest ->
      Forall (fun l => nge (weight (h a)) (weight (h l)) = true) items /\
      exists g, geom (objs s a) = Some g /\
                neq (x g) (x bounds) = true /\
                neq (y g) (y bounds) = true.
Proof.
  intros Hnn Hb Hnd. apply proper_rect_inv in Hb.
  destruct Hb as (B0 & HB & Hw & Hh).
  destruct (squarify_rows h items bounds B0 Hnn HB Hw Hh Hnd)
    as (s & Hs & HO & Hu & HS & (_ & Hfirst & _)).
  exists s. split; [exact Hs|]. intros a rest Hsorted.
  change (sortedL (init h items bounds))
    with (array_sort (compareFn h) items) in Hsorted.
  split.
  - assert (Hfin : finite_weights h items).
    { unfold finite_weights, nonneg_weights in *.
      eapply Forall_impl; [|exact Hnn]. intros l Hl.
      apply fin_nonneg_inv in Hl. destruct Hl as (q & -> & _).
      reflexivity. }
    pose proof (array_sort_descending h items Hfin) as Hd.
    rewrite Hsorted in Hd. inversion Hd as [|? ? _ Hall]; subst.
    unfold nonneg_weights in Hnn.
    rewrite Forall_forall in *. intros l Hl.
    assert (Hin : In l (a :: rest)).
    { rewrite <- Hsorted. eapply Permutation_in;
        [symmetry; apply array_sort_perm | exact Hl]. }
    destruct Hin as [Heq|Hin]; [|now apply Hall]. subst l.
    specialize (Hnn a Hl). apply fin_nonneg_inv in Hnn.
    destruct Hnn as (q & -> & _). rewrite nge_fin.
    apply Qle_bool_true. lra.
  - unfold InOrder, unplaced in *. rewrite Hu, app_nil_r, Hsorted in HO.
    destruct HS as (_ & _ & _ & _ & _ & Hne & _).
    destruct (committed s) as [|[|a' row] rows] eqn:Ecm;
      [discriminate| |].
    + inversion Hne as [|? ? Hbad _]; now contradiction Hbad.
    + simpl in HO. injection HO as -> _.
      destruct (Hfirst a row rows eq_refl) as (q & Hq & Hx & Hy).
      apply itemQ_geom in Hq. destruct Hq as (g & Hg & Hgq).
      exists g. split; [exact Hg|].
      apply rectQ_fields in Hgq, HB.
      destruct Hgq as (-> & -> & _), HB as (-> & -> & _). simpl.
      split; now apply Qeq_bool_iff.
Qed.

(** ** The area of an item is its share of the bounds *)


(** ** What [lastAspectRatio] holds *)

Definition RatioRecorded (s : State) : Prop :=
  match rowL s with
  | [] => lastAspectRatio s = PInf
  | _ :: _ =>
      calculateWorstAspectRatioInRow (this s) (objs s) (rowL s)
        (lengthOfShorterEdge s) (rootbounds s) = Ok (lastAspectRatio s)
  end.

Lemma step_RatioRecorded s s' :
  wf s -> RatioRecorded s -> step s s' -> RatioRecorded s'.
Proof.
  intros Hwf _ (a & rest & Hsorted & Hbody).
  destruct (step_cases s a rest Hwf Hsorted)
    as (ar & s1 & Hcalc & Hbody1 & _ & _ & Hc).
  rewrite Hbody in Hbody1. injection Hbody1 as <-.
  unfold RatioRecorded.
  destruct (accepts (lastAspectRatio s) ar).
  - destruct rest as [|c rest].
    + destruct Hc as (_ & _ & -> & _ & -> & _). reflexivity.
    + destruct Hc as (-> & -> & -> & -> & _ & -> & -> & _).
      destruct (rowL s ++ [a]) eqn:E; [destruct (rowL s); discriminate|].
      exact Hcalc.
  - destruct Hc as (_ & _ & -> & _ & -> & _). reflexivity.
Qed.

(** X12. At every loop head [lastAspectRatio] is the worst aspect ratio
    of the open row, as [calculateWorstAspectRatioInRow] computes it from
    the current bounds and remaining weight, and [+Infinity] when the row
    is empty; so the test of line 86 compares the row with and without
    the next item. *)
Theorem lastAspectRatio_is_of_open_row h items bounds :
  forall s, reach (init h items bounds) s ->
    match rowL s with
    | [] => lastAspectRatio s = PInf
    | _ :: _ =>
        calculateWorstAspectRatioInRow (this s) (objs s) (rowL s)
          (lengthOfShorterEdge s) (rootbounds s) = Ok (lastAspectRatio s)
    end.
Proof.
  intros s Hr.
  assert (H : wf s /\ RatioRecorded s); [|exact (proj2 H)].
  revert Hr. apply (reach_invariant (fun s => wf s /\ RatioRecorded s)).
  - intros s1 s2 (Hwf & HR) Hstep. split.
    + destruct Hstep as (a & rest & Hsorted & Hbody).
      destruct (step_cases s1 a rest Hwf Hsorted)
        as (ar & s3 & _ & Hbody1 & Hwf3 & _).
      rewrite Hbody in Hbody1. now injection Hbody1 as <-.
    + eapply step_RatioRecorded; eauto.
  - split; [apply init_wf | reflexivity].
Qed.

(** ** What the worst aspect ratio measures *)

(** The aspect ratio of a rectangle: the larger of width / height and
    height / width. *)
Definition aspect (g : SquarifyLayoutRect) : num :=
  nmax (ndiv (width g) (height g)) (ndiv (height g) (width g)).

Definition pos_weights (h : heap) (l : list ref) : Prop :=
  Forall (fun r => fin_pos (weight (h r)) = true) l.

(** The area line 155 foresees for an item: [A * (weight / t)]. *)
Definition areaQ (A t : Q) (h : heap) (l : ref) : Q := A * (wq h l / t).

Lemma nmin_fin_cases p q :
  exists m, nmin (Fin p) (Fin q) = Fin m /\
            m <= p /\ m <= q /\ (m = p \/ m = q).
Proof.
  simpl. destruct (Qle_bool p q) eqn:E.
  - apply Qle_bool_iff in E. exists p. repeat split; auto; lra.
  - exists q. repeat split; auto; try lra.
    destruct (Qlt_le_dec q p); [lra|].
    rewrite Qle_bool_true in E by lra. discriminate.
Qed.

Lemma nmax_fin_cases p q :
  exists m, nmax (Fin p) (Fin q) = Fin m /\
            p <= m /\ q <= m /\ (m = p \/ m = q).
Proof.
  simpl. destruct (Qle_bool p q) eqn:E.
  - apply Qle_bool_iff in E. exists q. repeat split; auto; lra.
  - exists p. repeat split; auto; try lra.
    destruct (Qlt_le_dec q p); [lra|].
    rewrite Qle_bool_true in E by lra. discriminate.
Qed.

(** The loop of lines 153-160: minimum, maximum and sum of the areas. *)
Lemma stats_fold (f : num * num * num -> ref -> num * num * num)
  (aq : ref -> Q) (rest : list ref) :
  (forall mn mx sm l, In l rest ->
     f (Fin mn, Fin mx, Fin sm) l =
     (nmin (Fin (aq l)) (Fin mn), nmax (Fin (aq l)) (Fin mx),
      nadd (Fin sm) (Fin (aq l)))) ->
  forall mn mx sm,
  exists mn' mx' sm',
    fold_left f rest (Fin mn, Fin mx, Fin sm) = (Fin mn', Fin mx', Fin sm') /\
    sm' == sm + fold_right (fun r acc => aq r + acc) 0 rest /\
    mn' <= mn /\ (forall l, In l rest -> mn' <= aq l) /\
    (mn' == mn \/ exists l, In l rest /\ mn' == aq l) /\
    mx <= mx' /\ (forall l, In l rest -> aq l <= mx') /\
    (mx' == mx \/ exists l, In l rest /\ mx' == aq l).
Proof.
  induction rest as [|a rest IH]; intros Hf mn mx sm.
  - exists mn, mx, sm. simpl.
    repeat split; try lra; try tauto; left; reflexivity.
  - cbn [fold_left]. rewrite Hf by now left.
    destruct (nmin_fin_cases (aq a) mn) as (m1 & -> & M1 & M2 & M3).
    destruct (nmax_fin_cases (aq a) mx) as (m2 & -> & X1 & X2 & X3).
    simpl nadd.
    destruct (IH (fun mn mx sm l Hl => Hf mn mx sm l (or_intror Hl))
                m1 m2 (sm + aq a))
      as (mn' & mx' & sm' & Hfold & Hsum & N1 & N2 & N3 & Y1 & Y2 & Y3).
    exists mn', mx', sm'. split; [exact Hfold|].
    split; [rewrite Hsum; simpl; ring|].
    split; [lra|]. split.
    { intros l [<-|Hl]; [lra | now apply N2]. }
    split.
    { destruct N3 as [N3|(l & Hl & N3)].
      - destruct M3 as [->| ->]; [right; exists a; split; [now left|exact N3]
                                 | now left].
      - right. exists l. split; [now right | exact N3]. }
    split; [lra|]. split.
    { intros l [<-|Hl]; [lra | now apply Y2]. }
    destruct Y3 as [Y3|(l & Hl & Y3)].
    + destruct X3 as [->| ->]; [right; exists a; split; [now left|exact Y3]
                               | now left].
    + right. exists l. split; [now right | exact Y3].
Qed.

Lemma sum_areaQ_value A t h l :
  ~ t == 0 ->
  fold_right (fun r acc => areaQ A t h r + acc) 0 l == A * (sumQ h l / t).
Proof.
  intros Ht. induction l as [|a l IH]; simpl.
  - field. exact Ht.
  - rewrite IH. unfold areaQ. field. exact Ht.
Qed.

Lemma pos_weights_nonneg h l : pos_weights h l -> nonneg_weights h l.
Proof.
  unfold pos_weights, nonneg_weights. apply Forall_impl. intros r Hr.
  apply fin_pos_inv in Hr. destruct Hr as (q & -> & Hq). simpl.
  apply Qle_bool_true. lra.
Qed.

(** The edges of an item against the areas the probe works with. *)
Lemma aspect_identity s L t sw w c e a sm :
  0 < s -> 0 < L -> 0 < t -> 0 < sw -> 0 < w ->
  c * t == L * sw -> e == s * (w / sw) ->
  a == s * L * (w / t) -> sm == s * L * (sw / t) ->
  0 < e /\ 0 < c /\ 0 < a /\ 0 < sm /\
  e / c == s * s * a / (sm * sm) /\ c / e == sm * sm / (s * s * a).
Proof.
  intros Hs HL Ht Hsw Hw Hc He Ha Hsm.
  assert (Hc' : c == L * sw / t).
  { apply (Qmult_inj_r _ _ t); [lra|]. rewrite Hc. field. lra. }
  assert (P1 : 0 < w / sw) by (apply Qlt_shift_div_l; lra).
  assert (P2 : 0 < w / t) by (apply Qlt_shift_div_l; lra).
  assert (P3 : 0 < sw / t) by (apply Qlt_shift_div_l; lra).
  assert (P4 : 0 < s * L) by now apply Qmult_lt_0_compat.
  assert (E0 : 0 < e) by (rewrite He; now apply Qmult_lt_0_compat).
  assert (C0 : 0 < c).
  { rewrite Hc'. apply Qlt_shift_div_l; [lra|]. rewrite Qmult_0_l.
    now apply Qmult_lt_0_compat. }
  assert (A0 : 0 < a) by (rewrite Ha; now apply Qmult_lt_0_compat).
  assert (S0 : 0 < sm) by (rewrite Hsm; now apply Qmult_lt_0_compat).
  repeat split; auto.
  - rewrite He, Hc', Ha, Hsm. field. repeat split; lra.
  - rewrite He, Hc', Ha, Hsm. field. repeat split; lra.
Qed.

Lemma Qdiv_le_num a b c : 0 < c -> a <= b -> a / c <= b / c.
Proof.
  intros Hc Hab. apply Qle_shift_div_l; [exact Hc|].
  assert (E : a / c * c == a) by (field; lra). lra.
Qed.

Lemma Qdiv_le_den a b c : 0 <= a -> 0 < b -> b <= c -> a / c <= a / b.
Proof.
  intros Ha Hb Hbc. apply Qle_shift_div_r; [lra|].
  assert (E : a / b * b == a) by (field; lra).
  assert (0 <= a / b) by (apply Qle_shift_div_l; lra).
  rewrite <- E at 1. now apply Qmult_le_mono_nonneg.
Qed.

Lemma aspect_fin gw gh :
  0 < gw -> 0 < gh ->
  forall g, width g = Fin gw -> height g = Fin gh ->
  exists u, aspect g = Fin u /\ gw / gh <= u /\ gh / gw <= u /\
            (u = gw / gh \/ u = gh / gw).
Proof.
  intros Hw Hh g Ew Eh. unfold aspect. rewrite Ew, Eh.
  rewrite !ndiv_fin by lra.
  destruct (nmax_fin_cases (gw / gh) (gh / gw)) as (u & -> & H1 & H2 & H3).
  exists u. auto.
Qed.

(** The rectangles [layoutRow] gives a row of positive weights, against
    the areas [calculateWorstAspectRatioInRow] works with: [E] and [C] are
    the two quotients of line 164-166 for the area of the item. *)
Lemma row_aspects this h r b B t :
  r <> [] -> pos_weights h r ->
  _totalRemainingWeightSum this = Fin t -> sumQ h r <= t ->
  (Z.of_nat (length r) <= _itemsRemaining this)%Z ->
  rectQ b = Some B -> 0 < qw B -> 0 < qh B ->
  let s := if Qle_bool (qw B) (qh B) then qw B else qh B in
  let A := qw B * qh B in
  let sm := A * (sumQ h r / t) in
  exists this' h' b',
    layoutRow this h r (nmin (width b) (height b)) b = (this', h', b') /\
    0 < sm /\ 0 < s /\ 0 < t /\
    forall l, In l r ->
      0 < areaQ A t h l /\
      exists g u,
        geom (h' l) = Some g /\ aspect g = Fin u /\
        s * s * areaQ A t h l / (sm * sm) <= u /\
        sm * sm / (s * s * areaQ A t h l) <= u /\
        (u == s * s * areaQ A t h l / (sm * sm) \/
         u == sm * sm / (s * s * areaQ A t h l)).
Proof.
  intros Hne Hpos Ht Hsum Hlen HB Hbw Hbh s A sm.
  pose proof (pos_weights_nonneg h r Hpos) as Hnn.
  assert (Hwpos : forall l, In l r -> 0 < wq h l).
  { unfold pos_weights in Hpos. rewrite Forall_forall in Hpos.
    intros l Hl. now destruct (fin_pos_weight h l (Hpos l Hl)). }
  assert (Hsw : 0 < sumQ h r).
  { destruct r as [|a r']; [congruence|].
    pose proof (sumQ_member h (a :: r') a Hnn (or_introl eq_refl)).
    pose proof (Hwpos a (or_introl eq_refl)). lra. }
  assert (Htpos : 0 < t) by lra.
  destruct (layoutRow_exact this h r b B t Hne Hnn Ht Hsum Hlen HB
              ltac:(lra) ltac:(lra))
    as (this' & h' & b' & R' & c & Hlay & Hc & Hc1 & _ & _ & _ & Hlaid & _).
  destruct (layoutRow_frame _ _ _ _ _ _ _ _ Hlay) as (Hwt & _).
  exists this', h', b'. split; [exact Hlay|].
  set (L := if Qle_bool (qw B) (qh B) then qh B else qw B) in *.
  assert (Hs : 0 < s) by (unfold s; destruct (Qle_bool _ _); lra).
  assert (HL : 0 < L) by (unfold L; destruct (Qle_bool _ _); lra).
  assert (HA : A == s * L)
    by (unfold A, s, L; destruct (Qle_bool _ _); ring).
  assert (Hsm : sm == s * L * (sumQ h r / t)) by (unfold sm; now rewrite HA).
  assert (Hsm0 : 0 < sm).
  { rewrite Hsm. apply Qmult_lt_0_compat.
    - now apply Qmult_lt_0_compat.
    - apply Qlt_shift_div_l; lra. }
  split; [exact Hsm0|]. split; [exact Hs|]. split; [exact Htpos|].
  intros l Hl.
  destruct (Hlaid l Hl) as (w & q & p & Ew & _ & Hq & Hsl & _).
  assert (Hw : w = wq h l) by (unfold wq; now rewrite <- Hwt, Ew).
  subst w. specialize (Hwpos l Hl).
  assert (Hrho : ratioQ (sumQ h r) (length r) (wq h l)
                 == wq h l / sumQ h r).
  { unfold ratioQ. rewrite Qeq_bool_false by lra. reflexivity. }
  fold s in Hsl.
  destruct (aspect_identity s L t (sumQ h r) (wq h l) c
              (s * ratioQ (sumQ h r) (length r) (wq h l))
              (areaQ A t h l) sm)
    as (E0 & C0 & A0 & _ & HE & HC); auto.
  { now rewrite Hrho. }
  { unfold areaQ. now rewrite HA. }
  split; [exact A0|].
  apply itemQ_geom in Hq. destruct Hq as (g & Hg & Hgq).
  apply rectQ_fields in Hgq. destruct Hgq as (_ & _ & Gw & Gh).
  set (e := s * ratioQ (sumQ h r) (length r) (wq h l)) in *.
  unfold Slice in Hsl.
  destruct (Qle_bool (qw B) (qh B)); destruct Hsl as (_ & _ & S3 & S4).
  - destruct (aspect_fin (qw q) (qh q) ltac:(lra) ltac:(lra) g Gw Gh)
      as (u & Hu & U1 & U2 & U3).
    exists g, u. split; [exact Hg|]. split; [exact Hu|].
    rewrite S3, S4 in U1, U2. rewrite HE in U1. rewrite HC in U2.
    split; [exact U1|]. split; [exact U2|].
    destruct U3 as [-> | ->]; [left; now rewrite S3, S4, HE
                              | right; now rewrite S3, S4, HC].
  - destruct (aspect_fin (qw q) (qh q) ltac:(lra) ltac:(lra) g Gw Gh)
      as (u & Hu & U1 & U2 & U3).
    exists g, u. split; [exact Hg|]. split; [exact Hu|].
    rewrite S3, S4 in U1, U2. rewrite HC in U1. rewrite HE in U2.
    split; [exact U2|]. split; [exact U1|].
    destruct U3 as [-> | ->]; [right; now rewrite S3, S4, HC
                              | left; now rewrite S3, S4, HE].
Qed.

(** What [calculateWorstAspectRatioInRow] returns for a row of positive
    weights in bounds with positive edges. *)
Lemma calculateWorstAspectRatioInRow_value this h r b B t :
  r <> [] -> pos_weights h r ->
  _totalRemainingWeightSum this = Fin t -> 0 < t ->
  rectQ b = Some B -> 0 < qw B -> 0 < qh B ->
  let s := if Qle_bool (qw B) (qh B) then qw B else qh B in
  let A := qw B * qh B in
  let sm := A * (sumQ h r / t) in
  exists v mn mx,
    calculateWorstAspectRatioInRow this h r (nmin (width b) (height b)) b
      = Ok (Fin v) /\
    s * s * mx / (sm * sm) <= v /\ sm * sm / (s * s * mn) <= v /\
    (v == s * s * mx / (sm * sm) \/ v == sm * sm / (s * s * mn)) /\
    0 < mn /\
    (forall l, In l r -> mn <= areaQ A t h l <= mx) /\
    (exists l, In l r /\ areaQ A t h l == mn) /\
    (exists l, In l r /\ areaQ A t h l == mx).
Proof.
  intros Hne Hpos Ht Htpos HB Hbw Hbh s A sm.
  assert (Hwt : forall l, In l r -> weight (h l) = Fin (wq h l) /\ 0 < wq h l).
  { unfold pos_weights in Hpos. rewrite Forall_forall in Hpos.
    intros l Hl. destruct (fin_pos_inv _ (Hpos l Hl)) as (q & E & Hq).
    unfold wq. rewrite E. split; [reflexivity|exact Hq]. }
  assert (Hapos : forall l, In l r -> 0 < areaQ A t h l).
  { intros l Hl. destruct (Hwt l Hl) as (_ & Hw). unfold areaQ.
    apply Qmult_lt_0_compat; [apply Qmult_lt_0_compat; lra|].
    apply Qlt_shift_div_l; lra. }
  pose proof (rectQ_fields _ _ HB) as (_ & _ & Ew & Eh).
  assert (Hs : 0 < s) by (unfold s; destruct (Qle_bool _ _); lra).
  destruct r as [|first rest]; [congruence|].
  unfold calculateWorstAspectRatioInRow.
  rewrite Ew, Eh, nmin_fin. fold s. rewrite Ht.
  assert (Z1 : neq (Fin s) (Fin 0) = false)
    by (simpl; apply Qeq_bool_false; lra).
  assert (Z2 : neq (Fin t) (Fin 0) = false)
    by (simpl; apply Qeq_bool_false; lra).
  rewrite Z1, Z2.
  destruct (Hwt first (or_introl eq_refl)) as (Ef & Hf).
  rewrite Ef, ndiv_fin by lra.
  change (nmul (Fin (qw B)) (Fin (qh B))) with (Fin A).
  change (nmul (Fin A) (Fin (wq h first / t)))
    with (Fin (areaQ A t h first)).
  change (nmul (Fin s) (Fin s)) with (Fin (s * s)).
  match goal with
  | |- context [fold_left ?f rest _] =>
      destruct (stats_fold f (areaQ A t h) rest) with
        (mn := areaQ A t h first) (mx := areaQ A t h first)
        (sm := areaQ A t h first)
        as (mn & mx & sm' & Hfold & Hsum & N1 & N2 & N3 & X1 & X2 & X3)
  end.
  { intros mn mx sm0 l Hl.
    destruct (Hwt l (or_intror Hl)) as (El & _).
    cbv beta iota. rewrite El, ndiv_fin by lra. reflexivity. }
  rewrite Hfold.
  pose proof (Hapos first (or_introl eq_refl)) as Hfa.
  assert (Hmn : 0 < mn).
  { destruct N3 as [N3|(l & Hl & N3)]; rewrite N3;
      [exact Hfa | apply Hapos; now right]. }
  assert (Hsm' : sm' == sm).
  { rewrite Hsum. unfold sm.
    rewrite <- (sum_areaQ_value A t h (first :: rest)) by lra.
    simpl. reflexivity. }
  assert (Hsm0 : 0 < sm').
  { rewrite Hsum.
    assert (0 <= fold_right (fun r acc => areaQ A t h r + acc) 0 rest).
    { clear - Hapos. induction rest as [|a rest IH]; simpl; [lra|].
      pose proof (Hapos a (or_intror (or_introl eq_refl))).
      assert (0 <= fold_right (fun r acc => areaQ A t h r + acc) 0 rest).
      { apply IH. intros l [<-|Hl]; apply Hapos; [now left|right; now right]. }
      lra. }
    lra. }
  change (nmul (Fin (s * s)) (Fin mx)) with (Fin (s * s * mx)).
  change (nmul (Fin (s * s)) (Fin mn)) with (Fin (s * s * mn)).
  change (nmul (Fin sm') (Fin sm')) with (Fin (sm' * sm')).
  assert (P1 : 0 < sm' * sm') by now apply Qmult_lt_0_compat.
  assert (P2 : 0 < s * s * mn)
    by (repeat apply Qmult_lt_0_compat; assumption).
  rewrite !ndiv_fin by lra.
  destruct (nmax_fin_cases (s * s * mx / (sm' * sm'))
              (sm' * sm' / (s * s * mn))) as (v & -> & V1 & V2 & V3).
  exists v, mn, mx. split; [reflexivity|].
  rewrite <- Hsm'.
  split; [exact V1|]. split; [exact V2|].
  split; [destruct V3 as [->| ->]; [now left | now right]|].
  split; [exact Hmn|]. split.
  { intros l [<-|Hl]; [lra|]. split; [now apply N2 | now apply X2]. }
  split.
  - destruct N3 as [N3|(l & Hl & N3)].
    + exists first. split; [now left | now symmetry].
    + exists l. split; [now right | now symmetry].
  - destruct X3 as [X3|(l & Hl & X3)].
    + exists first. split; [now left | now symmetry].
    + exists l. split; [now right | now symmetry].
Qed.

(** X13. In exact arithmetic, the number
    [calculateWorstAspectRatioInRow] returns for a row is the worst aspect
    ratio among the rectangles [layoutRow] then gives the items of that
    row in the same bounds: with positive weights, a positive remaining
    weight sum that covers the row and bounds with positive edges, the
    returned value is at least 1, no item of the row gets a rectangle
    whose aspect ratio exceeds it, and some item of the row gets a
    rectangle whose aspect ratio equals it. *)
Theorem worst_aspect_ratio_is_attained this h r b :
  r <> [] -> pos_weights h r ->
  fin_pos (_totalRemainingWeightSum this) = true ->
  nle (sumWeights h r) (_totalRemainingWeightSum this) = true ->
  (Z.of_nat (length r) <= _itemsRemaining this)%Z ->
  finite (x b) = true -> finite (y b) = true ->
  fin_pos (width b) = true -> fin_pos (height b) = true ->
  exists v this' h' b',
    calculateWorstAspectRatioInRow this h r (nmin (width b) (height b)) b
      = Ok v /\
    layoutRow this h r (nmin (width b) (height b)) b = (this', h', b') /\
    nle (Fin 1) v = true /\
    (forall l, In l r ->
       exists g, geom (h' l) = Some g /\ nle (aspect g) v = true) /\
    (exists l g,
       In l r /\ geom (h' l) = Some g /\ neq (aspect g) v = true).
Proof.
  intros Hne Hpos Ht Hsum Hlen Hx Hy Hw Hh.
  destruct (finite_inv _ Hx) as (bx & Ex).
  destruct (finite_inv _ Hy) as (by_ & Ey).
  destruct (fin_pos_inv _ Hw) as (bw & Ew & Hbw).
  destruct (fin_pos_inv _ Hh) as (bh & Eh & Hbh).
  destruct (fin_pos_inv _ Ht) as (t & Et & Htpos).
  assert (HB : rectQ b = Some (mkQ bx by_ bw bh))
    by (unfold rectQ; now rewrite Ex, Ey, Ew, Eh).
  destruct (sumWeights_fin h r (pos_weights_nonneg h r Hpos))
    as (sw & Esw & Hsw).
  rewrite Esw, Et in Hsum. simpl in Hsum. apply Qle_bool_iff in Hsum.
  assert (Hcover : sumQ h r <= t) by lra.
  pose proof (row_aspects this h r b _ t Hne Hpos Et Hcover Hlen HB
                Hbw Hbh) as R.
  pose proof (calculateWorstAspectRatioInRow_value this h r b _ t Hne Hpos
                Et Htpos HB Hbw Hbh) as V.
  cbv zeta in R, V. cbn [qw qh] in R, V.
  set (s := if Qle_bool bw bh then bw else bh) in *.
  set (A := bw * bh) in *.
  set (sm := A * (sumQ h r / t)) in *.
  destruct R as (this' & h' & b' & Hlay & Hsm & Hs & _ & Hitems).
  destruct V as (v & mn & mx & Hcalc & V1 & V2 & V3 & Hmn & Hrange
                 & (lmin & Lmin & Emin) & (lmax & Lmax & Emax)).
  assert (Hss : 0 < s * s) by now apply Qmult_lt_0_compat.
  assert (Hsmsm : 0 < sm * sm) by now apply Qmult_lt_0_compat.
  assert (Hbound : forall l, In l r ->
            exists g u, geom (h' l) = Some g /\ aspect g = Fin u /\
              u <= v /\
              s * s * areaQ A t h l / (sm * sm) <= u /\
              sm * sm / (s * s * areaQ A t h l) <= u /\
              0 < areaQ A t h l).
  { intros l Hl.
    destruct (Hitems l Hl) as (A0 & g & u & Hg & Hu & U1 & U2 & U3).
    destruct (Hrange l Hl) as (R1 & R2).
    exists g, u. repeat split; try assumption.
    assert (B1 : s * s * areaQ A t h l / (sm * sm)
                 <= s * s * mx / (sm * sm)).
    { apply Qdiv_le_num; [exact Hsmsm|].
      apply Qmult_le_mono_nonneg; lra. }
    assert (B2 : sm * sm / (s * s * areaQ A t h l)
                 <= sm * sm / (s * s * mn)).
    { apply Qdiv_le_den; [lra | now apply Qmult_lt_0_compat|].
      apply Qmult_le_mono_nonneg; lra. }
    destruct U3 as [U3|U3]; rewrite U3; lra. }
  exists (Fin v), this', h', b'.
  split; [exact Hcalc|]. split; [exact Hlay|]. split; [|split].
  - destruct r as [|l0 r0]; [congruence|].
    destruct (Hbound l0 (or_introl eq_refl))
      as (g & u & _ & _ & Uv & U1 & U2 & A0).
    simpl. apply Qle_bool_true.
    set (a := areaQ A t h l0) in *.
    assert (Psa : 0 < s * s * a) by now apply Qmult_lt_0_compat.
    assert (E1 : 0 < s * s * a / (sm * sm))
      by (apply Qlt_shift_div_l; lra).
    assert (E2 : 0 < sm * sm / (s * s * a))
      by (apply Qlt_shift_div_l; lra).
    assert (E3 : s * s * a / (sm * sm) * (sm * sm / (s * s * a)) == 1)
      by (field; split; lra).
    nra.
  - intros l Hl.
    destruct (Hbound l Hl) as (g & u & Hg & Hu & Uv & _).
    exists g. split; [exact Hg|]. rewrite Hu. simpl.
    now apply Qle_bool_true.
  - destruct V3 as [V3|V3].
    + destruct (Hbound lmax Lmax) as (g & u & Hg & Hu & Uv & U1 & _).
      exists lmax, g. split; [exact Lmax|]. split; [exact Hg|].
      rewrite Hu. simpl. apply Qeq_bool_iff.
      rewrite Emax, <- V3 in U1. lra.
    + destruct (Hbound lmin Lmin) as (g & u & Hg & Hu & Uv & _ & U2 & _).
      exists lmin, g. split; [exact Lmin|]. split; [exact Hg|].
      rewrite Hu. simpl. apply Qeq_bool_iff.
      rewrite Emin, <- V3 in U2. lra.
Qed.

(** X17. The branch of lines 137-144, in exact arithmetic: when the
    remaining weight sum is zero, the number
    [calculateWorstAspectRatioInRow] returns for a row of zero-weight
    items is the aspect ratio of every rectangle [layoutRow] then gives
    that row in the same bounds (all of them have the same shape), and it
    is at least 1. *)
Theorem zero_weight_probe_is_item_ratio this h r b :
  r <> [] -> zero_weights h r ->
  neq (_totalRemainingWeightSum this) (Fin 0) = true ->
  (Z.of_nat (length r) <= _itemsRemaining this)%Z ->
  finite (x b) = true -> finite (y b) = true ->
  fin_pos (width b) = true -> fin_pos (height b) = true ->
  exists v this' h' b',
    calculateWorstAspectRatioInRow this h r (nmin (width b) (height b)) b
      = Ok v /\
    layoutRow this h r (nmin (width b) (height b)) b = (this', h', b') /\
    nle (Fin 1) v = true /\
    forall l, In l r ->
      exists g, geom (h' l) = Some g /\ neq (aspect g) v = true.
Proof.
  intros Hne Hzw Ht Hlen Hx Hy Hw Hh.
  destruct (finite_inv _ Hx) as (bx & Ex).
  destruct (finite_inv _ Hy) as (by_ & Ey).
  destruct (fin_pos_inv _ Hw) as (bw & Ew & Hbw).
  destruct (fin_pos_inv _ Hh) as (bh & Eh & Hbh).
  destruct (_totalRemainingWeightSum this) as [t| | |] eqn:Et;
    try discriminate.
  simpl in Ht. apply Qeq_bool_iff in Ht.
  assert (HB : rectQ b = Some (mkQ bx by_ bw bh))
    by (unfold rectQ; now rewrite Ex, Ey, Ew, Eh).
  destruct (zero_weights_mode h r Hzw) as (Hnn & Hmode).
  unfold zero_mode in Hmode. apply Qeq_bool_iff in Hmode.
  assert (Hk : (0 < Z.of_nat (length r))%Z)
    by (destruct r; [congruence | simpl length; lia]).
  pose proof (inject_Z_pos _ Hk) as Hk0.
  pose proof (inject_Z_le _ _ Hlen) as Hkn.
  pose proof (layoutRow_exact this h r b _ t Hne Hnn Et ltac:(lra) Hlen HB
                ltac:(simpl; lra) ltac:(simpl; lra)) as R.
  cbv zeta in R. cbn [qw qh qx qy] in R.
  set (hz := Qle_bool bw bh) in *.
  set (s := if hz then bw else bh) in *.
  set (L := if hz then bh else bw) in *.
  set (n := inject_Z (_itemsRemaining this)) in *.
  set (k := inject_Z (Z.of_nat (length r))) in *.
  destruct R as (this' & h' & b' & R' & c & Hlay & _ & _ & Hc & _ & _
                 & Hlaid & _).
  specialize (Hc Ht).
  assert (Hs : 0 < s) by (unfold s; destruct hz; lra).
  assert (HL : 0 < L) by (unfold L; destruct hz; lra).
  assert (HA : bw * bh == s * L) by (unfold s, L; destruct hz; ring).
  set (one := bw * bh * (1 / n)).
  set (ra := one * k).
  destruct (aspect_identity s L n k 1 c (s * (1 / k)) one ra)
    as (E0 & C0 & O0 & RA0 & HE & HC); try lra; try reflexivity.
  { unfold one. now rewrite HA. }
  { unfold ra, one. rewrite HA. field. lra. }
  assert (P1 : 0 < s * s * one)
    by (apply Qmult_lt_0_compat; [apply Qmult_lt_0_compat|]; assumption).
  assert (P2 : 0 < ra * ra) by now apply Qmult_lt_0_compat.
  assert (Hcalc : exists u,
            calculateWorstAspectRatioInRow this h r
              (nmin (width b) (height b)) b = Ok (Fin u) /\
            s * s * one / (ra * ra) <= u /\
            ra * ra / (s * s * one) <= u /\
            (u = s * s * one / (ra * ra) \/ u = ra * ra / (s * s * one))).
  { unfold calculateWorstAspectRatioInRow.
    destruct r as [|first rest]; [congruence|].
    rewrite Ew, Eh, nmin_fin. fold hz. fold s.
    assert (Z1 : neq (Fin s) (Fin 0) = false)
      by (simpl; apply Qeq_bool_false; lra).
    assert (Z2 : neq (Fin t) (Fin 0) = true)
      by (simpl; now apply Qeq_bool_iff).
    rewrite Z1, Et, Z2. unfold of_nat, of_Z. fold n. fold k.
    rewrite ndiv_fin by lra. cbn [nmul].
    change (inject_Z (Z.of_nat (length (first :: rest)))) with k.
    fold one. fold ra.
    rewrite !ndiv_fin by lra.
    destruct (nmax_fin_cases (s * s * one / (ra * ra))
                (ra * ra / (s * s * one))) as (u & -> & U1 & U2 & U3).
    exists u. auto. }
  destruct Hcalc as (u & Hcalc & U1 & U2 & U3).
  exists (Fin u), this', h', b'.
  split; [exact Hcalc|]. split; [exact Hlay|]. split.
  - simpl. apply Qle_bool_true.
    assert (E1 : 0 < s * s * one / (ra * ra))
      by (apply Qlt_shift_div_l; lra).
    assert (E2 : 0 < ra * ra / (s * s * one))
      by (apply Qlt_shift_div_l; lra).
    assert (E3 : s * s * one / (ra * ra) * (ra * ra / (s * s * one)) == 1)
      by (field; split; lra).
    nra.
  - intros l Hl.
    destruct (Hlaid l Hl) as (w & q & p & _ & _ & Hq & Hsl & _).
    assert (Hrho : ratioQ (sumQ h r) (length r) w == 1 / k).
    { unfold ratioQ. rewrite Qeq_bool_true by exact Hmode. reflexivity. }
    apply itemQ_geom in Hq. destruct Hq as (g & Hg & Hgq).
    apply rectQ_fields in Hgq. destruct Hgq as (_ & _ & Gw & Gh).
    exists g. split; [exact Hg|].
    unfold Slice in Hsl.
    destruct hz; destruct Hsl as (_ & _ & S3 & S4);
      rewrite Hrho in S3 || rewrite Hrho in S4;
      destruct (aspect_fin (qw q) (qh q) ltac:(lra) ltac:(lra) g Gw Gh)
        as (u' & -> & V1 & V2 & V3);
      simpl; apply Qeq_bool_iff;
      rewrite S3, S4 in V1, V2;
      assert (V3' : u' == (qw q) / (qh q) \/ u' == (qh q) / (qw q))
        by (destruct V3 as [-> | ->]; [now left | now right]);
      rewrite S3, S4 in V3';
      rewrite ?HE, ?HC in V1, V2, V3';
      assert (U3' : u == s * s * one / (ra * ra)
                    \/ u == ra * ra / (s * s * one))
        by (destruct U3 as [-> | ->]; [now left | now right]);
      destruct V3' as [V3'|V3']; destruct U3' as [U3'|U3']; lra.
Qed.

(** ** The layout is a function of the weights *)

(** Two runs at a loop head that no step can tell apart: everything but
    the object stores is the same, and the items laid out so far carry the
    same rectangles. *)
Definition Alike (s1 s2 : State) : Prop :=
  this s1 = this s2 /\ rootbounds s1 = rootbounds s2 /\
  lengthOfShorterEdge s1 = lengthOfShorterEdge s2 /\
  lastAspectRatio s1 = lastAspectRatio s2 /\
  committed s1 = committed s2 /\
  rowL s1 = rowL s2 /\ sortedL s1 = sortedL s2 /\
  forall l, In l (concat (committed s1)) ->
    geom (objs s1 l) = geom (objs s2 l).

Lemma sort_insert_ext f g a l :
  (forall b, In b l -> f a b = g a b) ->
  sort_insert f a l = sort_insert g a l.
Proof.
  induction l as [|b l IH]; intros H; simpl; [reflexivity|].
  rewrite (H b) by now left.
  rewrite IH by (intros c Hc; apply H; now right). reflexivity.
Qed.

Lemma array_sort_ext f g l :
  (forall a b, In a l -> In b l -> f a b = g a b) ->
  array_sort f l = array_sort g l.
Proof.
  unfold array_sort. induction l as [|a l IH]; intros H; simpl;
    [reflexivity|].
  rewrite IH by (intros; apply H; now right).
  apply sort_insert_ext. intros b Hb. apply H; [now left|right].
  fold (array_sort g l) in Hb.
  now apply (Permutation_in _ (array_sort_perm g l)).
Qed.

Lemma sumWeights_same h1 h2 r :
  (forall l, In l r -> weight (h1 l) = weight (h2 l)) ->
  sumWeights h1 r = sumWeights h2 r.
Proof.
  unfold sumWeights. generalize (Fin 0).
  induction r as [|a r IH]; intros acc H; simpl; [reflexivity|].
  rewrite (H a) by now left. apply IH. intros; apply H; now right.
Qed.

Lemma fold_left_same {A} (f g : A -> ref -> A) r : forall acc,
  (forall acc l, In l r -> f acc l = g acc l) ->
  fold_left f r acc = fold_left g r acc.
Proof.
  induction r as [|a r IH]; intros acc H; simpl; [reflexivity|].
  rewrite (H acc a) by now left. apply IH. intros; apply H; now right.
Qed.

(** [calculateWorstAspectRatioInRow] reads of the objects only the weights
    of the items in the row. *)
Lemma calculateWorstAspectRatioInRow_same this h1 h2 r e b :
  (forall l, In l r -> weight (h1 l) = weight (h2 l)) ->
  calculateWorstAspectRatioInRow this h1 r e b =
  calculateWorstAspectRatioInRow this h2 r e b.
Proof.
  intros H. unfold calculateWorstAspectRatioInRow.
  destruct r as [|a r]; [reflexivity|].
  rewrite (H a) by now left.
  rewrite (fold_left_same
             (fun '(minArea, maxArea, sumOfAreas) item =>
                let area :=
                  nmul (nmul (width b) (height b))
                       (ndiv (weight (h1 item))
                             (_totalRemainingWeightSum this)) in
                (nmin area minArea, nmax area maxArea, nadd sumOfAreas area))
             (fun '(minArea, maxArea, sumOfAreas) item =>
                let area :=
                  nmul (nmul (width b) (height b))
                       (ndiv (weight (h2 item))
                             (_totalRemainingWeightSum this)) in
                (nmin area minArea, nmax area maxArea, nadd sumOfAreas area))
             r).
  - reflexivity.
  - intros [[mn mx] sm] l Hl. rewrite (H l) by now right. reflexivity.
Qed.

(** The loop of [layoutRow] on two stores with the same weights in the
    row: same positions and counters, and the same rectangles on the items
    of the row; other rectangles stay as they agree. *)
Lemma layoutItem_same hz bd sh ce sw k h1 h2 p n a :
  weight (h1 a) = weight (h2 a) ->
  exists o q m,
    layoutItem hz bd sh ce sw k (h1, p, n) a = (assign h1 a o, q, m) /\
    layoutItem hz bd sh ce sw k (h2, p, n) a = (assign h2 a o, q, m) /\
    weight o = weight (h1 a).
Proof.
  intros H. unfold layoutItem. rewrite <- H.
  eexists _, _, _. repeat split.
Qed.

Lemma layoutItem_fold_same hz bd sh ce sw k r :
  forall h1 h2 p n h1' p1 n1 h2' p2 n2,
  (forall l, In l r -> weight (h1 l) = weight (h2 l)) ->
  fold_left (layoutItem hz bd sh ce sw k) r (h1, p, n) = (h1', p1, n1) ->
  fold_left (layoutItem hz bd sh ce sw k) r (h2, p, n) = (h2', p2, n2) ->
  p1 = p2 /\ n1 = n2 /\
  forall l, In l r \/ geom (h1 l) = geom (h2 l) ->
    geom (h1' l) = geom (h2' l).
Proof.
  induction r as [|a r IH];
    intros h1 h2 p n h1' p1 n1 h2' p2 n2 Hw F1 F2; cbn [fold_left] in F1, F2.
  - injection F1 as <- <- <-. injection F2 as <- <- <-.
    repeat split. intros l [[]|Hl]. exact Hl.
  - destruct (layoutItem_same hz bd sh ce sw k h1 h2 p n a
                (Hw a (or_introl eq_refl)))
      as (o & q & m & E1 & E2 & _).
    rewrite E1 in F1. rewrite E2 in F2.
    assert (Hw' : forall l, In l r ->
              weight (assign h1 a o l) = weight (assign h2 a o l)).
    { intros l Hl. unfold assign. destruct (Nat.eqb l a); [reflexivity|].
      apply Hw. now right. }
    destruct (IH _ _ _ _ _ _ _ _ _ _ Hw' F1 F2) as (Hp & Hn & Hg).
    split; [exact Hp|]. split; [exact Hn|].
    intros l Hl. apply Hg.
    destruct (Nat.eq_dec l a) as [->|Hne].
    + right. now rewrite !assign_same.
    + destruct Hl as [[Hl|Hl]|Hl]; [congruence | now left |].
      right. now rewrite !assign_other.
Qed.

Lemma layoutRow_same this h1 h2 r sh b this1 h1' b1 this2 h2' b2 :
  (forall l, In l r -> weight (h1 l) = weight (h2 l)) ->
  layoutRow this h1 r sh b = (this1, h1', b1) ->
  layoutRow this h2 r sh b = (this2, h2', b2) ->
  this1 = this2 /\ b1 = b2 /\
  forall l, In l r \/ geom (h1 l) = geom (h2 l) ->
    geom (h1' l) = geom (h2' l).
Proof.
  intros Hw L1 L2. unfold layoutRow in L1, L2.
  rewrite <- (sumWeights_same h1 h2 r Hw) in L2.
  match type of L1 with
  | context [fold_left ?f r ?a] =>
      destruct (fold_left f r a) as [[g1 p1] n1] eqn:F1
  end.
  match type of L2 with
  | context [fold_left ?f r ?a] =>
      destruct (fold_left f r a) as [[g2 p2] n2] eqn:F2
  end.
  injection L1 as <- <- <-. injection L2 as <- <- <-.
  destruct (layoutItem_fold_same _ _ _ _ _ _ _ _ _ _ _ _ _ _ _ _ _ Hw F1 F2)
    as (_ & -> & Hg).
  auto.
Qed.

Section SameWeights.

Variables (h1 h2 : heap) (items : list ref).
Hypothesis same_weights : forall l, In l items -> weight (h1 l) = weight (h2 l).

Lemma init_Alike bounds : Alike (init h1 items bounds) (init h2 items bounds).
Proof.
  assert (E : array_sort (compareFn h1) items
              = array_sort (compareFn h2) items).
  { apply array_sort_ext. intros a b Ha Hb. unfold compareFn.
    now rewrite (same_weights a), (same_weights b). }
  assert (Es : sumWeights h1 (array_sort (compareFn h1) items)
               = sumWeights h2 (array_sort (compareFn h2) items)).
  { rewrite <- E. apply sumWeights_same. intros l Hl. apply same_weights.
    now apply (Permutation_in _ (array_sort_perm (compareFn h1) items)). }
  unfold Alike, sortedL, rowL. cbn -[array_sort sumWeights compareFn].
  rewrite <- Es, <- E.
  repeat split; try reflexivity. intros l [].
Qed.

Lemma Struct_same s1 s2 r :
  Struct h1 items s1 -> Struct h2 items s2 -> incl r items ->
  forall l, In l r -> weight (objs s1 l) = weight (objs s2 l).
Proof.
  intros (_ & _ & _ & _ & _ & _ & W1 & _) (_ & _ & _ & _ & _ & _ & W2 & _)
         Hr l Hl.
  rewrite W1, W2. apply same_weights. now apply Hr.
Qed.

Lemma drawn_Alike s1 s2 r rem s1' s2' :
  Struct h1 items s1 -> Struct h2 items s2 -> incl r items ->
  Alike s1 s2 -> drawn s1 r rem s1' -> drawn s2 r rem s2' ->
  Alike s1' s2'.
Proof.
  intros S1 S2 Hr (At & Ab & Ae & Aa & Ac & Arow & Asorted & Ag)
         (L1 & E1 & R1 & C1 & W1 & D1) (L2 & E2 & R2 & C2 & W2 & D2).
  rewrite <- At, <- Ab, <- Ae in L2.
  destruct (layoutRow_same _ _ _ _ _ _ _ _ _ _ _ _
              (Struct_same s1 s2 r S1 S2 Hr) (eq_sym L1) (eq_sym L2))
    as (Ht & Hb & Hg).
  unfold Alike. rewrite E1, E2, R1, R2, C1, C2, W1, W2, D1, D2, Ac, Hb.
  repeat split; try reflexivity; try assumption.
  intros l Hl. apply Hg. rewrite concat_app in Hl. simpl in Hl.
  rewrite app_nil_r in Hl. apply in_app_or in Hl.
  destruct Hl as [Hl|Hl]; [right; apply Ag; now rewrite Ac | now left].
Qed.

Lemma step_Alike s1 s2 s1' s2' :
  Struct h1 items s1 -> Struct h2 items s2 -> Alike s1 s2 ->
  step s1 s1' -> step s2 s2' -> Alike s1' s2'.
Proof.
  intros S1 S2 HA (a & rest & Hs1 & Hb1) (a2 & rest2 & Hs2 & Hb2).
  pose proof HA as (At & Ab & Ae & Aa & Ac & Arow & Asorted & Ag).
  fold (sortedL s1) in Hs1. fold (sortedL s2) in Hs2.
  rewrite <- Asorted, Hs1 in Hs2. injection Hs2 as <- <-.
  pose proof S1 as (Hwf1 & _ & Hperm & _).
  pose proof S2 as (Hwf2 & _).
  assert (Hin : incl (rowL s1 ++ [a]) items).
  { intros l Hl. apply (Permutation_in _ Hperm).
    rewrite Hs1. apply in_or_app. right.
    apply in_app_or in Hl. destruct Hl as [Hl|[<-|[]]];
      apply in_or_app; [now left | right; now left]. }
  assert (Hin' : incl (rowL s1) items)
    by (intros l Hl; apply Hin, in_or_app; now left).
  destruct (step_cases s1 a rest Hwf1 Hs1)
    as (ar1 & t1 & Hc1 & Hb1' & _ & _ & K1).
  assert (Hs2 : sortedL s2 = a :: rest) by now rewrite <- Asorted.
  destruct (step_cases s2 a rest Hwf2 Hs2)
    as (ar2 & t2 & Hc2 & Hb2' & _ & _ & K2).
  rewrite Hb1 in Hb1'. injection Hb1' as <-.
  rewrite Hb2 in Hb2'. injection Hb2' as <-.
  rewrite <- At, <- Ab, <- Ae, <- Arow in Hc2.
  rewrite (calculateWorstAspectRatioInRow_same _ _ _ _ _ _
             (Struct_same s1 s2 _ S1 S2 Hin)) in Hc1.
  rewrite Hc1 in Hc2. injection Hc2 as <-.
  rewrite <- Aa, <- Arow in K2.
  destruct (accepts (lastAspectRatio s1) ar1).
  - destruct rest as [|c rest].
    + apply (drawn_Alike s1 s2 (rowL s1 ++ [a]) [] s1' s2'); assumption.
    + destruct K1 as (O1 & T1 & B1 & E1 & C1 & L1 & R1 & D1).
      destruct K2 as (O2 & T2 & B2 & E2 & C2 & L2 & R2 & D2).
      unfold Alike.
      rewrite T1, T2, B1, B2, E1, E2, C1, C2, L1, L2, R1, R2, D1, D2,
        O1, O2.
      repeat split; try reflexivity; try assumption.
  - apply (drawn_Alike s1 s2 (rowL s1) (a :: rest) s1' s2'); assumption.
Qed.

Lemma loop_Alike fuel : forall s1 s2 s1' s2',
  Struct h1 items s1 -> Struct h2 items s2 -> Alike s1 s2 ->
  loop fuel s1 = Ok s1' -> loop fuel s2 = Ok s2' -> Alike s1' s2'.
Proof.
  induction fuel as [|fuel IH]; intros s1 s2 s1' s2' S1 S2 HA L1 L2;
    pose proof HA as (_ & _ & _ & _ & _ & _ & Asorted & _);
    unfold sortedL in Asorted; simpl in L1, L2; rewrite <- Asorted in L2;
    destruct (arrays s1 (sorted s1)) as [|a rest] eqn:E1.
  - injection L1 as <-. injection L2 as <-. exact HA.
  - discriminate.
  - injection L1 as <-. injection L2 as <-. exact HA.
  - destruct (loop_body a (set_arrays (aset (arrays s1) _ _) s1))
      as [t1| |] eqn:B1; try discriminate.
    destruct (loop_body a (set_arrays (aset (arrays s2) _ _) s2))
      as [t2| |] eqn:B2; try discriminate.
    assert (St1 : step s1 t1) by (exists a, rest; auto).
    assert (St2 : step s2 t2)
      by (exists a, rest; split; [now rewrite <- Asorted | exact B2]).
    apply (IH t1 t2); auto.
    + eapply step_Struct; eauto.
    + eapply step_Struct; eauto.
    + eapply step_Alike; eauto.
Qed.

Lemma squarify_Alike bounds :
  exists s1 s2,
    squarify h1 items bounds = Ok s1 /\ squarify h2 items bounds = Ok s2 /\
    Alike s1 s2 /\ Permutation (concat (committed s1)) items.
Proof.
  destruct (squarify_final h1 items bounds) as (s1 & R1 & _ & _ & _ & P1).
  destruct (squarify_final h2 items bounds) as (s2 & R2 & _).
  exists s1, s2. split; [exact R1|]. split; [exact R2|].
  split; [|exact P1].
  unfold squarify in R1, R2.
  pose proof (init_Alike bounds) as HA.
  pose proof HA as (_ & _ & _ & _ & _ & _ & Asorted & _).
  unfold sortedL in Asorted. rewrite <- Asorted in R2.
  eapply loop_Alike; eauto using init_Struct.
Qed.

End SameWeights.

(** X14. [squarify] reads of the objects only the weights of the items:
    on two stores whose items have the same weights (whatever rectangles
    the objects carry before the call, and whatever the weights, [NaN] and
    infinities included) the two calls form the same rows, leave the same
    engine fields and the same remaining bounds, and give every item the
    same rectangle. *)
Theorem layout_reads_only_weights h1 h2 items bounds :
  (forall l, In l items -> weight (h1 l) = weight (h2 l)) ->
  exists s1 s2,
    squarify h1 items bounds = Ok s1 /\ squarify h2 items bounds = Ok s2 /\
    committed s1 = committed s2 /\ this s1 = this s2 /\
    rootbounds s1 = rootbounds s2 /\
    forall l, In l items -> geom (objs s1 l) = geom (objs s2 l).
Proof.
  intros Hw.
  destruct (squarify_Alike h1 h2 items Hw bounds)
    as (s1 & s2 & R1 & R2 & (At & Ab & _ & _ & Ac & _ & _ & Ag) & P).
  exists s1, s2. repeat split; auto.
  intros l Hl. apply Ag. now apply (Permutation_in _ (Permutation_sym P)).
Qed.

(** X15. Laying out again changes nothing: a second call on the objects as
    the first call left them, with the same items and the same bounds
    values, forms the same rows and gives every item the rectangle it
    already has. *)
Theorem squarify_again_same_layout h items bounds :
  exists s s',
    squarify h items bounds = Ok s /\
    squarify (objs s) items bounds = Ok s' /\
    committed s' = committed s /\ rootbounds s' = rootbounds s /\
    forall l, In l items -> geom (objs s' l) = geom (objs s l).
Proof.
  destruct (squarify_final h items bounds) as (s & R & HS & _).
  assert (Hw : forall l, In l items -> weight (h l) = weight (objs s l)).
  { destruct HS as (_ & _ & _ & _ & _ & _ & W & _). intros l _.
    now rewrite W. }
  destruct (squarify_Alike h (objs s) items Hw bounds)
    as (s1 & s2 & R1 & R2 & (At & Ab & _ & _ & Ac & _ & _ & Ag) & P).
  rewrite R in R1. injection R1 as <-.
  exists s, s2. repeat split; auto.
  intros l Hl. symmetry. apply Ag.
  now apply (Permutation_in _ (Permutation_sym P)).
Qed.

(** ** A weight that is not a number *)

Lemma nadd_NaN_r a : nadd a NaN = NaN.
Proof. now destruct a. Qed.

Lemma nmul_NaN_r a : nmul a NaN = NaN.
Proof. now destruct a. Qed.

Lemma ndiv_NaN_r a : ndiv a NaN = NaN.
Proof. now destruct a. Qed.

Lemma sumWeights_NaN h r :
  (exists l, In l r /\ weight (h l) = NaN) -> sumWeights h r = NaN.
Proof.
  unfold sumWeights. generalize (Fin 0).
  assert (Hstay : forall r',
            fold_left (fun sum item => nadd sum (weight (h item))) r' NaN
            = NaN).
  { induction r' as [|b r' IH]; simpl; auto. }
  induction r as [|a r IH]; intros acc (l & Hl & E); [destruct Hl|].
  simpl. destruct Hl as [->|Hl].
  - rewrite E, nadd_NaN_r. apply Hstay.
  - apply IH. eauto.
Qed.

(** Lines 146-167 when the remaining weight sum is [NaN]: every area is
    [NaN], and so is the result. *)
Lemma calculateWorstAspectRatioInRow_NaN this h r e b :
  r <> [] -> _totalRemainingWeightSum this = NaN ->
  neq e (Fin 0) = false ->
  calculateWorstAspectRatioInRow this h r e b = Ok NaN.
Proof.
  intros Hne Ht He. unfold calculateWorstAspectRatioInRow.
  destruct r as [|a r]; [congruence|].
  rewrite He, Ht. cbn [neq]. rewrite ndiv_NaN_r, nmul_NaN_r.
  match goal with
  | |- context [fold_left ?f r ?acc] =>
      assert (E : fold_left f r acc = (NaN, NaN, NaN))
  end.
  { clear. induction r as [|c r IH]; [reflexivity|].
    cbn [fold_left]. rewrite ndiv_NaN_r, nmul_NaN_r. exact IH. }
  rewrite E. rewrite !nmul_NaN_r. reflexivity.
Qed.

Lemma commonItemEdge_NaN this L k :
  _totalRemainingWeightSum this = NaN ->
  commonItemEdge this L NaN k = Fin 0.
Proof.
  intros Ht. unfold commonItemEdge. rewrite Ht. cbn [ndiv].
  now rewrite nmul_NaN_r.
Qed.

(** The extents [layoutRow] writes when the sum of the row weights is
    [NaN]: the same for every item. *)
Definition even_extents (hz : bool) (sh ce : num) (k : nat)
  (g : SquarifyLayoutRect) : Prop :=
  let e := nmul sh (ndiv (Fin 1) (of_nat k)) in
  if hz then width g = e /\ height g = ce
  else width g = nmax (Fin 0) ce /\ height g = nmax (Fin 0) e.

Lemma layoutItem_fold_even hz bd sh ce k r : forall h p n h' p' n',
  fold_left (layoutItem hz bd sh ce NaN k) r (h, p, n) = (h', p', n') ->
  forall l,
    In l r \/ (exists g, geom (h l) = Some g /\ even_extents hz sh ce k g) ->
    exists g, geom (h' l) = Some g /\ even_extents hz sh ce k g.
Proof.
  induction r as [|a r IH]; intros h p n h' p' n' F l Hl;
    cbn [fold_left] in F.
  - injection F as <- <- <-. destruct Hl as [[]|Hl]. exact Hl.
  - unfold layoutItem at 2 in F. rewrite ndiv_NaN_r in F.
    cbn [isNaN neq orb] in F.
    eapply IH; [exact F|].
    destruct (Nat.eq_dec l a) as [->|Hne].
    + right. rewrite assign_same. eexists. split; [reflexivity|].
      unfold even_extents. destruct hz; split; reflexivity.
    + destruct Hl as [[Hl|Hl]|Hl]; [congruence | now left |].
      right. now rewrite assign_other.
Qed.

(** X16. A weight that is [NaN] makes the remaining weight sum [NaN] and
    every probe accepted, so all items are laid out together, as one row
    along the shorter edge of the bounds: with [n] items each gets
    [shorter edge / n] along that edge and the extent 0 across it,
    whatever its own weight, and the engine is left with [NaN] as its
    remaining weight sum. *)
Theorem nan_weight_one_flat_row h items bounds :
  (exists l, In l items /\ weight (h l) = NaN) ->
  exists s,
    squarify h items bounds = Ok s /\
    committed s = [array_sort (compareFn h) items] /\
    _totalRemainingWeightSum (this s) = NaN /\
    forall l, In l items ->
      exists g, geom (objs s l) = Some g /\
        even_extents (neq (nmin (width bounds) (height bounds))
                          (width bounds))
                     (nmin (width bounds) (height bounds)) (Fin 0)
                     (length items) g.
Proof.
  intros (l0 & Hl0 & E0).
  pose proof (array_sort_perm (compareFn h) items) as Hp.
  set (srt := array_sort (compareFn h) items) in *.
  assert (Hne : srt <> []).
  { intros E. rewrite E in Hp. apply Permutation_nil in Hp.
    subst items. destruct Hl0. }
  assert (Hsum : sumWeights h srt = NaN).
  { apply sumWeights_NaN. exists l0. split; [|exact E0].
    now apply (Permutation_in _ (Permutation_sym Hp)). }
  set (sh := nmin (width bounds) (height bounds)).
  assert (Hloop : exists s',
            loop (2 * length srt) (init h items bounds) = Ok s' /\
            drawn (init h items bounds) srt [] s').
  { destruct (neq sh (Fin 0)) eqn:Hz.
    - apply (loop_constant_ratio MAX_VALUE srt);
        [apply init_wf | | apply accepts_MAX_VALUE | now left
         | reflexivity | exact Hne | lia].
      intros row Hrow. now apply calculateWorstAspectRatioInRow_zero_edge.
    - apply (loop_constant_ratio NaN srt);
        [apply init_wf | | reflexivity | now left
         | reflexivity | exact Hne | lia].
      intros row Hrow. now apply calculateWorstAspectRatioInRow_NaN. }
  destruct Hloop as (s & Hs & Hl & _ & _ & Hcm & _).
  exists s. split; [exact Hs|]. split; [exact Hcm|].
  change (this (init h items bounds))
    with (mkEngine (sumWeights h srt) (Z.of_nat (length srt))) in Hl.
  change (objs (init h items bounds)) with h in Hl.
  change (lengthOfShorterEdge (init h items bounds)) with sh in Hl.
  change (rootbounds (init h items bounds)) with bounds in Hl.
  unfold layoutRow in Hl. rewrite Hsum in Hl.
  rewrite commonItemEdge_NaN in Hl by reflexivity.
  match type of Hl with
  | context [fold_left ?f srt ?a] =>
      destruct (fold_left f srt a) as [[h' p'] n'] eqn:F
  end.
  injection Hl as Hth Hob _.
  split; [rewrite Hth; reflexivity|].
  intros l Hin. rewrite Hob.
  rewrite <- (Permutation_length Hp).
  eapply layoutItem_fold_even; [exact F|]. left.
  now apply (Permutation_in _ (Permutation_sym Hp)).
Qed.

(** ** Concrete runs of the further properties *)

Lemma updateBounds_keeps_far_corner_witness :
  let b' := updateBoundsForNextRow demo_bounds (Fin 250) in
  neq (nadd (x b') (width b')) (nadd (x demo_bounds) (width demo_bounds))
    = true /\
  neq (nadd (y b') (height b')) (nadd (y demo_bounds) (height demo_bounds))
    = true /\
  fin_nonneg (width b') = true /\ fin_nonneg (height b') = true /\
  finite (x b') = true /\ finite (y b') = true /\
  (width b' = width demo_bounds \/ height b' = height demo_bounds).
Proof.
  apply (updateBounds_keeps_far_corner demo_bounds (Fin 250));
    reflexivity.
Defined.

Lemma sorted_copy_descending_witness :
  descending demo_heap (sortedL (init demo_heap [2; 0; 1]%nat demo_bounds)) /\
  Permutation (sortedL (init demo_heap [2; 0; 1]%nat demo_bounds))
              [2; 0; 1]%nat /\
  (descending demo_heap [2; 0; 1]%nat ->
   sortedL (init demo_heap [2; 0; 1]%nat demo_bounds) = [2; 0; 1]%nat).
Proof.
  apply sorted_copy_descending. repeat constructor.
Defined.


Lemma items_do_not_overlap_witness :
  exists s,
    squarify demo_heap demo_items demo_bounds = Ok s /\
    forall l l', In l demo_items -> In l' demo_items -> l <> l' ->
      exists g g',
        geom (objs s l) = Some g /\ geom (objs s l') = Some g' /\
        rect_apart g g' = true.
Proof.
  apply items_do_not_overlap; [repeat constructor | reflexivity].
Defined.

Lemma bounds_used_up_witness :
  (forall s, reach (init demo_heap demo_items demo_bounds) s ->
     rect_inside (rootbounds s) demo_bounds = true /\
     proper_rect (rootbounds s) = true /\
     forall l, In l (concat (committed s)) ->
       exists g, geom (objs s l) = Some g /\
                 rect_apart g (rootbounds s) = true) /\
  exists s,
    squarify demo_heap demo_items demo_bounds = Ok s /\
    (demo_items <> [] ->
     neq (nmul (width (rootbounds s)) (height (rootbounds s))) (Fin 0)
       = true).
Proof.
  apply bounds_used_up; [repeat constructor | reflexivity].
Defined.

Lemma single_item_fills_bounds_witness :
  exists s g,
    squarify zero_heap [7]%nat flat_bounds = Ok s /\
    geom (objs s 7%nat) = Some g /\ rect_same g flat_bounds = true.
Proof.
  apply single_item_fills_bounds; reflexivity.
Defined.

Lemma row_neighbours_share_an_edge_witness :
  exists s,
    squarify zero_heap zero_items demo_bounds = Ok s /\
    forall row r1 a b r2,
      In row (committed s) -> row = r1 ++ a :: b :: r2 ->
      exists g g',
        geom (objs s a) = Some g /\ geom (objs s b) = Some g' /\
        rect_follows g g' = true.
Proof.
  apply row_neighbours_share_an_edge;
    [repeat constructor | reflexivity |].
  repeat constructor; simpl; intuition discriminate.
Defined.

Lemma heaviest_item_at_origin_witness :
  exists s,
    squarify demo_heap demo_items demo_bounds = Ok s /\
    forall a rest,
      sortedL (init demo_heap demo_items demo_bounds) = a :: rest ->
      Forall (fun l => nge (weight (demo_heap a)) (weight (demo_heap l))
                       = true) demo_items /\
      exists g, geom (objs s a) = Some g /\
                neq (x g) (x demo_bounds) = true /\
                neq (y g) (y demo_bounds) = true.
Proof.
  apply heaviest_item_at_origin;
    [repeat constructor | reflexivity |].
  repeat constructor; simpl; intuition discriminate.
Defined.


(** The worked example after its first iteration: the heaviest item is in
    the open row. *)
Definition demo_open : State :=
  let s := init demo_heap demo_items demo_bounds in
  match loop_body 0%nat
          (set_arrays (aset (arrays s) (sorted s) [1; 2]%nat) s) with
  | Ok s' => s'
  | _ => s
  end.

Lemma lastAspectRatio_is_of_open_row_witness :
  reach (init demo_heap demo_items demo_bounds) demo_open /\
  rowL demo_open = [0%nat] /\
  calculateWorstAspectRatioInRow (this demo_open) (objs demo_open)
    (rowL demo_open) (lengthOfShorterEdge demo_open) (rootbounds demo_open)
    = Ok (lastAspectRatio demo_open).
Proof.
  assert (R : reach (init demo_heap demo_items demo_bounds) demo_open).
  { eapply reach_step; [apply reach_start|].
    exists 0%nat, [1; 2]%nat. split; reflexivity. }
  split; [exact R|]. split; [reflexivity|].
  exact (lastAspectRatio_is_of_open_row demo_heap demo_items demo_bounds
           demo_open R).
Defined.

(** The engine of the worked example at the loop head, and its two
    heaviest items as a row. *)
Definition demo_engine : SquarifyLayout := mkEngine (Fin 6) 3.
Definition demo_row : list ref := [0; 1]%nat.

Lemma worst_aspect_ratio_is_attained_witness :
  exists v this' h' b',
    calculateWorstAspectRatioInRow demo_engine demo_heap demo_row
      (nmin (width demo_bounds) (height demo_bounds)) demo_bounds = Ok v /\
    layoutRow demo_engine demo_heap demo_row
      (nmin (width demo_bounds) (height demo_bounds)) demo_bounds
      = (this', h', b') /\
    nle (Fin 1) v = true /\
    (forall l, In l demo_row ->
       exists g, geom (h' l) = Some g /\ nle (aspect g) v = true) /\
    (exists l g,
       In l demo_row /\ geom (h' l) = Some g /\ neq (aspect g) v = true).
Proof.
  apply worst_aspect_ratio_is_attained; try reflexivity.
  - discriminate.
  - repeat constructor.
  - simpl. lia.
Defined.

(** The worked example with rectangles left over from an earlier layout. *)
Definition demo_heap_laid : heap :=
  fun r => mkItem (weight (demo_heap r)) (Some flat_bounds).

Lemma layout_reads_only_weights_witness :
  exists s1 s2,
    squarify demo_heap demo_items demo_bounds = Ok s1 /\
    squarify demo_heap_laid demo_items demo_bounds = Ok s2 /\
    committed s1 = committed s2 /\ this s1 = this s2 /\
    rootbounds s1 = rootbounds s2 /\
    forall l, In l demo_items -> geom (objs s1 l) = geom (objs s2 l).
Proof.
  apply layout_reads_only_weights. intros l _. reflexivity.
Defined.

(** Three items, the second with a weight that is not a number. *)
Definition nan_heap : heap :=
  fun r => mkItem (match r with 1%nat => NaN | _ => Fin 1 end) None.

Lemma nan_weight_one_flat_row_witness :
  exists s,
    squarify nan_heap demo_items demo_bounds = Ok s /\
    committed s = [array_sort (compareFn nan_heap) demo_items] /\
    _totalRemainingWeightSum (this s) = NaN /\
    forall l, In l demo_items ->
      exists g, geom (objs s l) = Some g /\
        even_extents (neq (nmin (width demo_bounds) (height demo_bounds))
                          (width demo_bounds))
                     (nmin (width demo_bounds) (height demo_bounds)) (Fin 0)
                     (length demo_items) g.
Proof.
  apply nan_weight_one_flat_row.
  exists 1%nat. split; [simpl; auto | reflexivity].
Defined.

(** An engine with five zero-weight items left, and two of them as a
    row. *)
Definition zero_engine : SquarifyLayout := mkEngine (Fin 0) 5.

Lemma zero_weight_probe_is_item_ratio_witness :
  exists v this' h' b',
    calculateWorstAspectRatioInRow zero_engine zero_heap demo_row
      (nmin (width demo_bounds) (height demo_bounds)) demo_bounds = Ok v /\
    layoutRow zero_engine zero_heap demo_row
      (nmin (width demo_bounds) (height demo_bounds)) demo_bounds
      = (this', h', b') /\
    nle (Fin 1) v = true /\
    forall l, In l demo_row ->
      exists g, geom (h' l) = Some g /\ neq (aspect g) v = true.
Proof.
  apply zero_weight_probe_is_item_ratio; try reflexivity.
  - discriminate.
  - repeat constructor.
  - simpl. lia.
Defined.
